(** * The SSR module loader of vite (packages/vite/src/node/ssr/ssrModuleLoader.ts)

    A shallow embedding of [ssrLoadModule], [instantiateModule], the binding
    surface handed to an executed module body ([ssrImport], [ssrDynamicImport],
    [ssrExportAll]) and the external resolver ([nodeRequire], [resolve]),
    followed by the properties the loader's specification states about them.

    Layout:
    - [JS]         : the fragment of the JavaScript object model the loader
                     uses (property tables, accessors, [Object.freeze], the
                     interop [Proxy]);
    - [Loader]     : the loader itself, as a pool of suspended [async]
                     activations stepped by a scheduler, over the module
                     graph, the object heap, [pendingModules] and
                     [resolveCache];
    - [Notions]    : what a resumption may do, the invariants of the pool and
                     the histories of the dependency loops;
    - [Scenario]   : a small module graph to run the loader on;
    - [Stated]     : statements of the specification the code does not meet;
    - [Properties] : the theorems. *)

From Stdlib Require Import ZArith String Ascii List Lia.
From stdpp Require Import base tactics option list gmap strings fin_maps.

Local Open Scope string_scope.
Local Open Scope list_scope.
Local Open Scope nat_scope.

(* ===================================================================== *)
(** ** The JavaScript object model                                        *)
(* ===================================================================== *)

Module JS.

(** Object identities are heap addresses. *)
Abbreviation loc := nat.

(** The values that cross the loader's interfaces.  Functions are objects;
    string values are not needed by the loader and are left out. *)
Inductive Val :=
| VUndef
| VNull
| VBool (b : bool)
| VNum (n : Z)
| VObj (l : loc).

#[global] Instance Val_eq_dec : EqDecision Val.
Proof. solve_decision. Defined.

(** ToBoolean. *)
Definition truthy (v : Val) : bool :=
  match v with
  | VUndef | VNull => false
  | VBool b => b
  | VNum n => negb (n =? 0)%Z
  | VObj _ => true
  end.

(** Error objects: a name, a message and a stack trace. *)
Record Exn := mkExn { ename : string; message : string; stack : string }.

#[global] Instance Exn_eq_dec : EqDecision Exn.
Proof. solve_decision. Defined.

(** What a [throw] in module code can carry, as far as the [catch] of lines
    133-143 tells values apart: an error object whose [stack] is a string
    that can be assigned; an error object whose [stack] cannot be assigned
    (a frozen error); an object that is not an error (it has no [stack],
    and may have a name and a message) and can be given properties; [null];
    [undefined]; a primitive, by its [typeof] and the way it is shown. *)
Inductive Thrown :=
| ThrownError (e : Exn)
| ThrownFrozen (e : Exn)
| ThrownObject (name msg : string)
| ThrownNull
| ThrownUndefined
| ThrownPrimitive (kind shown : string).

#[global] Instance Thrown_eq_dec : EqDecision Thrown.
Proof. solve_decision. Defined.

Definition TypeError (msg : string) : Exn := mkExn "TypeError" msg "".
Definition RangeError (msg : string) : Exn := mkExn "RangeError" msg "".

(** Results of fallible operations: [inl e] is [throw e]. *)
Abbreviation Res A := (Exn + A)%type.

(** A property is a data slot or the accessor that [ssrExportAll] installs,
    [get() { return sourceModule[key] }], represented by the two variables the
    closure captures. *)
Inductive Slot :=
| Data (v : Val) (writable : bool)
| Getter (sourceModule : loc) (key : string).

Record Property := mkProperty {
  slot : Slot;
  enumerable : bool;
  configurable : bool
}.

(** An object is an ordinary object (string-keyed property table, the
    [[Extensible]] flag and its [Symbol.toStringTag], if any) or the proxy
    built by [nodeRequire], which captures its target and [defaultExport].
    Prototype chains are not modelled: ordinary objects inherit nothing. *)
Inductive Obj :=
| Plain (props : gmap string Property) (extensible : bool) (tag : option string)
| InteropProxy (target : loc) (defaultExport : Val).

(** The heap: objects are allocated at the end and never collected. *)
Abbreviation Heap := (list Obj).

Definition alloc (h : Heap) (o : Obj) : Heap * loc := (h ++ [o], length h).

(** *** Reading a property

    [get d h l k] is [o[k]] for the object at [l], with [d] the call-stack
    frames that are left: calling an accessor or a proxy trap takes one, and
    with none left the engine throws its stack-overflow [RangeError]. *)
Definition stack_overflow : Exn := RangeError "Maximum call stack size exceeded".

(** [[GetOwnProperty]]: a proxy without a [getOwnPropertyDescriptor] trap
    reports the property of its target; [n] bounds the chain of targets. *)
Fixpoint own_property (n : nat) (h : Heap) (l : loc) (k : string) : option Property :=
  match h !! l with
  | Some (Plain ps _ _) => ps !! k
  | Some (InteropProxy target _) =>
      match n with
      | O => None
      | S n' => own_property n' h target k
      end
  | None => None
  end.

(** What [[Get]] of a proxy does with the value [v] its [get] trap returned:
    when the target has [k] as a data property that is neither writable nor
    configurable, the trap must have returned that property's value, and the
    engine throws a [TypeError] otherwise. *)
Definition proxy_get_invariant (target_property : option Property) (k : string) (v : Val)
    : Res Val :=
  match target_property with
  | Some p =>
      match slot p with
      | Data v0 false =>
          if configurable p then inr v
          else if decide (v = v0) then inr v
          else inl (TypeError ("'get' on proxy: property '" +:+ k +:+
                      "' is a read-only and non-configurable data property on the proxy target but the proxy did not return its actual value"))
      | _ => inr v
      end
  | None => inr v
  end.

Fixpoint get (d : nat) (h : Heap) (l : loc) (k : string) {struct d} : Res Val :=
  match h !! l with
  | None => inr VUndef
  | Some (Plain ps _ _) =>
      match ps !! k with
      | None => inr VUndef
      | Some p =>
          match slot p with
          | Data v _ => inr v
          | Getter src key =>
              match d with
              | O => inl stack_overflow
              | S d' => get d' h src key
              end
          end
      end
  | Some (InteropProxy target defaultExport) =>
      match d with
      | O => inl stack_overflow
      | S d' =>
          (* get(mod, prop) { if (prop === 'default') return defaultExport
                              return mod[prop] } *)
          match (if decide (k = "default") then inr defaultExport else get d' h target k) with
          | inl e => inl e
          | inr v => proxy_get_invariant (own_property (length h) h target k) k v
          end
      end
  end.

(** *** Enumeration ([for key in o])

    The enumerable string keys of an object.  A proxy without an [ownKeys]
    trap reports those of its target; [n] bounds the chain of targets.  Own
    keys only (no prototype chain), and in the order of the property table,
    not in the order of insertion that the engine follows: the statements
    below speak of which keys are enumerated, never of their order. *)
Definition enumerable_props (ps : gmap string Property) : list string :=
  (map_to_list (filter (λ kp, enumerable kp.2 = true) ps)).*1.

Fixpoint keys_of (n : nat) (h : Heap) (l : loc) : list string :=
  match h !! l with
  | Some (Plain ps _ _) => enumerable_props ps
  | Some (InteropProxy target _) =>
      match n with
      | O => []
      | S n' => keys_of n' h target
      end
  | None => []
  end.

(** [for (const key in v)]: [undefined], [null], booleans and numbers have
    nothing to enumerate. *)
Definition for_in_keys (h : Heap) (v : Val) : list string :=
  match v with
  | VObj l => keys_of (length h) h l
  | _ => []
  end.

(** *** Writing *)

(** [o[k] = v] on an ordinary object, in non-strict code (the body made by
    [new Function] is non-strict unless it opts in): a rejected assignment
    does nothing. *)
Definition assign (o : Obj) (k : string) (v : Val) : Obj :=
  match o with
  | Plain ps ext tag =>
      match ps !! k with
      | Some p =>
          match slot p with
          | Data _ true =>
              Plain (<[k := mkProperty (Data v true) (enumerable p) (configurable p)]> ps) ext tag
          | Data _ false => o
          | Getter _ _ => o (* accessor without a setter *)
          end
      | None =>
          if ext then Plain (<[k := mkProperty (Data v true) true true]> ps) ext tag
          else o
      end
  | InteropProxy _ _ => o
  end.

(** [Object.defineProperty(o, k, desc)] with a full descriptor [desc] on an
    ordinary object: a new key needs an extensible object, an existing key a
    configurable property. *)
Definition defineProperty (o : Obj) (k : string) (desc : Property) : Res Obj :=
  match o with
  | Plain ps ext tag =>
      match ps !! k with
      | Some p =>
          if configurable p then inr (Plain (<[k := desc]> ps) ext tag)
          else inl (TypeError ("Cannot redefine property: " +:+ k))
      | None =>
          if ext then inr (Plain (<[k := desc]> ps) ext tag)
          else inl (TypeError ("Cannot define property " +:+ k +:+ ", object is not extensible"))
      end
  | InteropProxy _ _ => inl (TypeError "defineProperty on proxy")
  end.

(** [Object.freeze] and [Object.isFrozen]. *)
Definition freeze_property (p : Property) : Property :=
  match slot p with
  | Data v _ => mkProperty (Data v false) (enumerable p) false
  | Getter s k => mkProperty (Getter s k) (enumerable p) false
  end.

Definition property_frozen (p : Property) : bool :=
  negb (configurable p) &&
  match slot p with
  | Data _ w => negb w
  | Getter _ _ => true
  end.

Definition freeze_obj (o : Obj) : Obj :=
  match o with
  | Plain ps _ tag => Plain (freeze_property <$> ps) false tag
  | InteropProxy _ _ => o
  end.

Definition obj_frozen (o : Obj) : bool :=
  match o with
  | Plain ps ext _ =>
      negb ext && bool_decide (map_Forall (λ _ p, property_frozen p = true) ps)
  | InteropProxy _ _ => false
  end.

Definition isFrozen (h : Heap) (l : loc) : bool :=
  match h !! l with
  | Some o => obj_frozen o
  | None => false
  end.

Definition update (h : Heap) (l : loc) (f : Obj → Obj) : Heap :=
  match h !! l with
  | Some o => <[l := f o]> h
  | None => h
  end.

Definition freeze (h : Heap) (l : loc) : Heap := update h l freeze_obj.

End JS.

(* ===================================================================== *)
(** ** The loader                                                         *)
(* ===================================================================== *)

Module Loader.
Import JS.

(** *** Module bodies

    The code of a module is run as [new Function(...)(global, ssrModule,
    ssrImportMeta, ssrImport, ssrDynamicImport, ssrExportAll)].  What the
    loader can see of that synchronous run is the sequence of calls the body
    makes on its binding surface, each answer feeding what the body does next:
    a body is the tree of those interactions.  A throw, of the body's own or
    out of a binding-surface call, ends the run unless it happens inside a
    [try] of the body. *)
Inductive Body :=
| BDone
| BThrow (t : Thrown)                               (* throw t *)
| BSet (key : string) (v : Val) (k : Body)          (* __vite_ssr_exports__[key] = v *)
| BImport (dep : string) (k : Val → Body)           (* __vite_ssr_import__(dep) *)
| BDynamicImport (dep : string) (k : Body)          (* __vite_ssr_dynamic_import__(dep) *)
| BExportAll (sourceModule : Val) (k : Body)        (* __vite_ssr_exportAll__(sourceModule) *)
| BTry (b : Body) (handler : Thrown → Body) (k : Body).
                                                    (* try { b } catch (t) { handler t }; k *)

(** The transform pipeline's result, [{ code, deps }]. *)
Record TransformResult := mkResult { code : Body; deps : list string }.

(** Modelled from the spec: the Module Record of the graph store
    ([ModuleNode], declared in moduleGraph.ts).  [ssrModule] is the spec's
    nullable [exportNamespace]: [None] is JavaScript's [null]. *)
Record ModuleNode := mkNode {
  file : option string;
  ssrModule : option loc;
  ssrTransformResult : option TransformResult
}.

Definition ns_val (o : option loc) : Val :=
  match o with
  | Some l => VObj l
  | None => VNull
  end.

(** *** The collaborators the loader imports *)
Record Env := mkEnv {
  unwrapId : string → string;                                (* ../utils *)
  cleanUrl : string → string;                                (* ../utils *)
  resolveFrom : string → string → Res string;                (* ../utils, with ssr = true *)
  existsSync : string → bool;                                (* fs *)
  dirname : string → string;                                 (* path *)
  require : string → Thrown + Val;                           (* node's module loading *)
  ssrRewriteStacktrace : string → string;                    (* ./ssrStacktrace *)
  ssrRewriteStacktrace_undefined : Res string;               (* ./ssrStacktrace, on [undefined] *)
  transformRequest : string → Res (option TransformResult);  (* ../server/transformRequest, { ssr: true } *)
  fileOf : string → option string;                           (* the graph store's file of a url *)
  root : string;                                             (* server.config.root *)
  stackLimit : nat                                           (* frames the engine allows *)
}.

(** *** Activations

    Every call of an [async] function is an activation that owns the promise
    it returned; an activation is named by its index in the pool.  Between
    two [await]s it runs without interruption, so an activation is kept at the
    [await] it is suspended on, with the variables it still needs. *)
Inductive Outcome :=
| Fulfilled (v : Val)
| Rejected (e : Exn).

Inductive Task :=
(* ssrLoadModule *)
| LoadEntry (url : string) (urlStack : list string)   (* at [await ensureEntryFromUrl], line 31 *)
| LoadNow (url : string) (v : Val)                    (* returned [mod.ssrModule], line 35 *)
| LoadReturn (url : string) (p : nat)                 (* returned the promise [p], lines 38 and 42 *)
(* instantiateModule *)
| InstEntry (url : string) (urlStack : list string)   (* at [await ensureEntryFromUrl], line 52 *)
| InstTransform (url : string) (urlStack : list string) (ssrModule : loc)
                                                      (* at [await transformRequest], line 67 *)
| InstDep (url : string) (urlStack : list string) (ssrModule : loc)
          (result : TransformResult) (rest : list string) (t : nat)
                                                      (* at [await ssrLoadModule(dep, ...)], line 80 *)
| InstDone (url : string) (o : Outcome)               (* settled *)
(* modulePromise.catch(() => {}).then(() => pendingModules.delete(url)), line 41 *)
| Cleanup (url : string) (p : nat)
| CleanupDone (deleted : bool).

(** What the loader does, in the order it does it (newest first). *)
Inductive Event :=
| EvInstantiate (url : string) (p : nat)              (* line 39: instantiateModule called *)
| EvTransform (url : string) (p : nat)                (* line 67: transformRequest called *)
| EvPreload (p : nat) (dep : string) (urlStack : list string) (t : nat)
                                                      (* line 80: ssrLoadModule called *)
| EvAwaited (p : nat) (t : nat)                       (* line 80: the await returned *)
| EvExec (url : string) (p : nat)                     (* lines 117-132: the body is run *)
| EvReuse (url : string) (p : nat)                    (* line 55: frozen namespace returned *)
| EvLogError (url : string) (e : Exn)                 (* line 135: logger.error *)
| EvResolveFrom (id : string) (resolveDir : string).  (* line 173: resolveFrom called *)

#[global] Instance Event_eq_dec : EqDecision Event.
Proof. solve_decision. Defined.

Record State := mkState {
  moduleGraph : gmap string ModuleNode;   (* moduleGraph.urlToModuleMap *)
  heap : Heap;
  pendingModules : gmap string nat;
  resolveCache : gmap string string;
  tasks : list Task;
  trace : list Event
}.

Definition with_graph (s : State) (g : gmap string ModuleNode) : State :=
  mkState g (heap s) (pendingModules s) (resolveCache s) (tasks s) (trace s).
Definition with_heap (s : State) (h : Heap) : State :=
  mkState (moduleGraph s) h (pendingModules s) (resolveCache s) (tasks s) (trace s).
Definition with_pending (s : State) (m : gmap string nat) : State :=
  mkState (moduleGraph s) (heap s) m (resolveCache s) (tasks s) (trace s).
Definition with_cache (s : State) (c : gmap string string) : State :=
  mkState (moduleGraph s) (heap s) (pendingModules s) c (tasks s) (trace s).
Definition with_tasks (s : State) (ts : list Task) : State :=
  mkState (moduleGraph s) (heap s) (pendingModules s) (resolveCache s) ts (trace s).
Definition emit (ev : Event) (s : State) : State :=
  mkState (moduleGraph s) (heap s) (pendingModules s) (resolveCache s) (tasks s) (ev :: trace s).

(** Calling an [async] function: a new activation, suspended at its first
    [await]. *)
Definition spawn (t : Task) (s : State) : State := with_tasks s (tasks s ++ [t]).
Definition set_task (i : nat) (t : Task) (s : State) : State :=
  with_tasks s (<[i := t]> (tasks s)).

(** The settled result of the promise of activation [t], if it has one.  An
    [async] function that returns a promise settles as that promise does. *)
Definition settled (s : State) (p : nat) : option Outcome :=
  match tasks s !! p with
  | Some (InstDone _ o) => Some o
  | Some (LoadNow _ v) => Some (Fulfilled v)
  | Some (CleanupDone b) => Some (Fulfilled (VBool b))
  | _ => None
  end.

Definition outcome (s : State) (t : nat) : option Outcome :=
  match tasks s !! t with
  | Some (LoadReturn _ p) => settled s p
  | _ => settled s t
  end.

(** const isExternal = (dep: string) => dep[0] !== '.' && dep[0] !== '/' *)
Definition isExternal (dep : string) : bool :=
  match dep with
  | EmptyString => true
  | String c _ => negb (Ascii.eqb c ".") && negb (Ascii.eqb c "/")
  end.

Section WithEnv.
Context (env : Env).

(** Modelled from the spec: [moduleGraph.ensureEntryFromUrl] (moduleGraph.ts),
    which returns the record of a url and creates it on first access. *)
Definition ensureEntryFromUrl (url : string) (s : State) : ModuleNode * State :=
  match moduleGraph s !! url with
  | Some mod_ => (mod_, s)
  | None =>
      let mod_ := mkNode (fileOf env url) None None in
      (mod_, with_graph s (<[url := mod_]> (moduleGraph s)))
  end.

(** *** The external resolver *)

(** [id + importer + root]: a [null] importer is concatenated as "null". *)
Definition importer_str (importer : option string) : string :=
  match importer with
  | Some i => i
  | None => "null"
  end.

Definition cache_key (id : string) (importer : option string) (root : string) : string :=
  (id +:+ importer_str importer) +:+ root.

Definition str_truthy (x : string) : bool :=
  match x with
  | EmptyString => false
  | String _ _ => true
  end.

Definition resolveDir_of (importer : option string) (root : string) : string :=
  match importer with
  | Some i => if str_truthy i && existsSync env (cleanUrl env i) then dirname env i else root
  | None => root
  end.

Definition resolve_search (id : string) (importer : option string) (root : string)
    (s : State) : Res string * State :=
  let resolveDir := resolveDir_of importer root in
  let s1 := emit (EvResolveFrom id resolveDir) s in
  match resolveFrom env id resolveDir with
  | inl e => (inl e, s1)
  | inr resolved =>
      (inr resolved, with_cache s1 (<[cache_key id importer root := resolved]> (resolveCache s1)))
  end.

Definition resolve (id : string) (importer : option string) (root : string)
    (s : State) : Res string * State :=
  match resolveCache s !! cache_key id importer root with
  | Some cached =>
      if str_truthy cached then (inr cached, s) else resolve_search id importer root s
  | None => resolve_search id importer root s
  end.

(** Lines 151-158 of [nodeRequire]: the default-export interop around the
    loaded module [raw]. *)
Definition interop (d : nat) (h : Heap) (raw : Val) : Res (Val * Heap) :=
  match raw with
  | VObj l =>
      match get d h l "__esModule" with
      | inl e => inl e
      | inr marker =>
          let defaultExport := if truthy marker then get d h l "default" else inr raw in
          match defaultExport with
          | inl e => inl e
          | inr dflt =>
              let '(h', p) := alloc h (InteropProxy l dflt) in inr (VObj p, h')
          end
      end
  | VUndef => inl (TypeError "Cannot read properties of undefined (reading '__esModule')")
  | VNull => inl (TypeError "Cannot read properties of null (reading '__esModule')")
  | VBool _ | VNum _ => inl (TypeError "Cannot create proxy with a non-object as target or handler")
  end.

(** [nodeRequire], lines 149-159.  What the resolver or the engine throws
    is an error object; what the loaded module's own code throws is
    anything. *)
Definition nodeRequire (id : string) (importer : option string) (root : string)
    (s : State) : (Thrown + Val) * State :=
  match resolve id importer root s with
  | (inl e, s1) => (inl (ThrownError e), s1)
  | (inr path, s1) =>
      match require env path with
      | inl t => (inl t, s1)
      | inr raw =>
          match interop (stackLimit env) (heap s1) raw with
          | inl e => (inl (ThrownError e), s1)
          | inr (v, h') => (inr v, with_heap s1 h')
          end
      end
  end.

(** *** The binding surface (lines 84-114) *)

(** [ssrImport] on a dependency that is not external, line 90:
    [moduleGraph.urlToModuleMap.get(unwrapId(dep))?.ssrModule]. *)
Definition ssrImport_internal (s : State) (dep : string) : Val :=
  match moduleGraph s !! unwrapId env dep with
  | None => VUndef
  | Some mod_ => ns_val (ssrModule mod_)
  end.

(** [ssrImport], lines 86-92.  [importer] is [mod.file]. *)
Definition ssrImport (importer : option string) (dep : string) (s : State)
    : (Thrown + Val) * State :=
  if isExternal dep then nodeRequire dep importer (root env) s
  else (inr (ssrImport_internal s dep), s).

(** [ssrDynamicImport], lines 94-100: the promise it returns is the new
    activation of [ssrLoadModule], or is already resolved. *)
Definition ssrDynamicImport (url : string) (urlStack : list string) (importer : option string)
    (dep : string) (s : State) : option Thrown * State :=
  if isExternal dep then
    match nodeRequire dep importer (root env) s with
    | (inl e, s1) => (Some e, s1)
    | (inr _, s1) => (None, s1)
    end
  else (None, spawn (LoadEntry (unwrapId env dep) (urlStack ++ [url])) s).

(** [ssrExportAll], lines 102-114.  [export_keys] is the loop over the keys
    that [for ... in] enumerates; a [defineProperty] that throws ends it, and
    the definitions made before stay. *)
Definition live_accessor (sourceModule : loc) (key : string) : Property :=
  mkProperty (Getter sourceModule key) true true.

Fixpoint export_keys (h : Heap) (ssrModule : loc) (sourceModule : loc) (keys : list string)
    : option Exn * Heap :=
  match keys with
  | [] => (None, h)
  | key :: keys' =>
      if decide (key = "default") then export_keys h ssrModule sourceModule keys'
      else
        match h !! ssrModule with
        | Some o =>
            match defineProperty o key (live_accessor sourceModule key) with
            | inr o' => export_keys (<[ssrModule := o']> h) ssrModule sourceModule keys'
            | inl e => (Some e, h)
            end
        | None => (Some (TypeError "Object.defineProperty called on non-object"), h)
        end
  end.

Definition ssrExportAll (h : Heap) (ssrModule : loc) (sourceModule : Val) : option Exn * Heap :=
  match sourceModule with
  | VObj src => export_keys h ssrModule src (for_in_keys h sourceModule)
  | _ => (None, h)
  end.

(** The run of a module body against its binding surface: the state it
    leaves and what it threw, if it did. *)
Fixpoint run_body (url : string) (urlStack : list string) (ssrModule : loc)
    (importer : option string) (b : Body) (s : State) : option Thrown * State :=
  match b with
  | BDone => (None, s)
  | BThrow t => (Some t, s)
  | BSet key v k =>
      run_body url urlStack ssrModule importer k
        (with_heap s (update (heap s) ssrModule (λ o, assign o key v)))
  | BImport dep k =>
      match ssrImport importer dep s with
      | (inl e, s1) => (Some e, s1)
      | (inr v, s1) => run_body url urlStack ssrModule importer (k v) s1
      end
  | BDynamicImport dep k =>
      match ssrDynamicImport url urlStack importer dep s with
      | (Some e, s1) => (Some e, s1)
      | (None, s1) => run_body url urlStack ssrModule importer k s1
      end
  | BExportAll sourceModule k =>
      match ssrExportAll (heap s) ssrModule sourceModule with
      | (Some e, h1) => (Some (ThrownError e), with_heap s h1)
      | (None, h1) => run_body url urlStack ssrModule importer k (with_heap s h1)
      end
  | BTry b handler k =>
      match run_body url urlStack ssrModule importer b s with
      | (None, s1) => run_body url urlStack ssrModule importer k s1
      | (Some t, s1) =>
          match run_body url urlStack ssrModule importer (handler t) s1 with
          | (None, s2) => run_body url urlStack ssrModule importer k s2
          | (Some t', s2) => (Some t', s2)
          end
      end
  end.

(** *** instantiateModule *)

(** Lines 58-61: the fresh namespace object, with its non-enumerable
    [__esModule] flag (the attributes [defineProperty] leaves out are false). *)
Definition new_ssrModule : Obj :=
  Plain {[ "__esModule" := mkProperty (Data (VBool true) false) false false ]} true (Some "Module").

Definition rewrite_stack (e : Exn) : Exn :=
  mkExn (ename e) (message e) (ssrRewriteStacktrace env (stack e)).

(** Line 134, [e.stack = ssrRewriteStacktrace(e.stack, moduleGraph)], in the
    strict mode of a module: [inr] is the error with its stack rewritten;
    [inl] is what the line itself throws when it cannot do that.  Reading
    [stack] of [null] or [undefined] throws; an object that is not an error
    and a primitive have no [stack], so that [ssrRewriteStacktrace] is
    called on [undefined]: if it returns, the object gets that stack, and
    the assignment to a primitive throws; the assignment to a read-only
    [stack] throws. *)
Definition rewrite_or_throw (t : Thrown) : Exn + Exn :=
  match t with
  | ThrownError e => inr (rewrite_stack e)
  | ThrownFrozen e =>
      inl (TypeError ("Cannot assign to read only property 'stack' of object '" +:+
                      ename e +:+ ": " +:+ message e +:+ "'"))
  | ThrownNull => inl (TypeError "Cannot read properties of null (reading 'stack')")
  | ThrownUndefined => inl (TypeError "Cannot read properties of undefined (reading 'stack')")
  | ThrownObject name msg =>
      match ssrRewriteStacktrace_undefined env with
      | inl e => inl e
      | inr st => inr (mkExn name msg st)
      end
  | ThrownPrimitive kind shown =>
      match ssrRewriteStacktrace_undefined env with
      | inl e => inl e
      | inr _ =>
          inl (TypeError ("Cannot create property 'stack' on " +:+ kind +:+ " '" +:+
                          shown +:+ "'"))
      end
  end.

(** Lines 84-146: run the body, then freeze the namespace and return it; or,
    in the [catch], rewrite the stack of what the body threw, log it and
    throw it again.  When line 134 throws, that is what leaves the [catch],
    and nothing is logged. *)
Definition execute (p : nat) (url : string) (urlStack : list string) (ssrModule : loc)
    (result : TransformResult) (s : State) : State :=
  let importer := match moduleGraph s !! url with Some mod_ => file mod_ | None => None end in
  match run_body url urlStack ssrModule importer (code result) (emit (EvExec url p) s) with
  | (Some t, s1) =>
      match rewrite_or_throw t with
      | inr e' => set_task p (InstDone url (Rejected e')) (emit (EvLogError url e') s1)
      | inl e134 => set_task p (InstDone url (Rejected e134)) s1
      end
  | (None, s1) =>
      set_task p (InstDone url (Fulfilled (VObj ssrModule)))
        (with_heap s1 (freeze (heap s1) ssrModule))
  end.

(** Lines 78-82, from the dependency the loop has reached: external
    specifiers are passed over; at the first one that is not, [ssrLoadModule]
    is called and awaited.  After the last one the body is run. *)
Fixpoint inst_deps (p : nat) (url : string) (urlStack : list string) (ssrModule : loc)
    (result : TransformResult) (rest : list string) (s : State) : State :=
  match rest with
  | [] => execute p url urlStack ssrModule result s
  | dep :: rest' =>
      if isExternal dep then inst_deps p url urlStack ssrModule result rest' s
      else
        let t := length (tasks s) in
        set_task p (InstDep url urlStack ssrModule result rest' t)
          (emit (EvPreload p (unwrapId env dep) (urlStack ++ [url]) t)
             (spawn (LoadEntry (unwrapId env dep) (urlStack ++ [url])) s))
  end.

(** Lines 68-71. *)
Definition transform_failure (url : string) : Exn :=
  mkExn "Error" ("failed to load module for ssr: " +:+ url) "".

Definition with_result (p : nat) (url : string) (urlStack : list string) (ssrModule : loc)
    (result : option TransformResult) (s : State) : State :=
  match result with
  | None => set_task p (InstDone url (Rejected (transform_failure url))) s
  | Some r => inst_deps p url urlStack ssrModule r (deps r) s
  end.

(** Line 54: [mod.ssrModule && Object.isFrozen(mod.ssrModule)]. *)
Definition complete_namespace (h : Heap) (mod_ : ModuleNode) : option loc :=
  match ssrModule mod_ with
  | Some ns => if isFrozen h ns then Some ns else None
  | None => None
  end.

(** Lines 51-67, resumed after [ensureEntryFromUrl]: a frozen namespace is
    returned as it is; otherwise a fresh one is stored in the record before
    anything else, and the transform result is taken from the record or
    awaited. *)
Definition instantiate_entry (p : nat) (url : string) (urlStack : list string) (s : State) : State :=
  let '(mod_, s1) := ensureEntryFromUrl url s in
  match complete_namespace (heap s1) mod_ with
  | Some ns => set_task p (InstDone url (Fulfilled (VObj ns))) (emit (EvReuse url p) s1)
  | None =>
      let '(h', ns) := alloc (heap s1) new_ssrModule in
      let s2 := with_graph (with_heap s1 h')
                  (<[url := mkNode (file mod_) (Some ns) (ssrTransformResult mod_)]> (moduleGraph s1)) in
      match ssrTransformResult mod_ with
      | Some r => with_result p url urlStack ns (Some r) s2
      | None => set_task p (InstTransform url urlStack ns) (emit (EvTransform url p) s2)
      end
  end.

(** Line 67, resumed with what [transformRequest] gave. *)
Definition instantiate_transformed (p : nat) (url : string) (urlStack : list string)
    (ssrModule : loc) (s : State) : State :=
  match transformRequest env url with
  | inl e => set_task p (InstDone url (Rejected e)) s
  | inr r => with_result p url urlStack ssrModule r s
  end.

(** Line 80, resumed when the awaited [ssrLoadModule] has settled: a
    rejection is thrown on, otherwise the loop goes on. *)
Definition instantiate_resumed (p : nat) (url : string) (urlStack : list string)
    (ssrModule : loc) (result : TransformResult) (rest : list string) (t : nat)
    (s : State) : option State :=
  match outcome s t with
  | None => None
  | Some (Rejected e) => Some (set_task p (InstDone url (Rejected e)) s)
  | Some (Fulfilled _) =>
      Some (inst_deps p url urlStack ssrModule result rest (emit (EvAwaited p t) s))
  end.

(** *** ssrLoadModule *)

(** Lines 30-42, resumed after [ensureEntryFromUrl]. *)
Definition load_entry (i : nat) (url : string) (urlStack : list string) (s : State) : State :=
  let '(mod_, s1) := ensureEntryFromUrl url s in
  if bool_decide (url ∈ urlStack) then set_task i (LoadNow url (ns_val (ssrModule mod_))) s1
  else
    match pendingModules s1 !! url with
    | Some pending => set_task i (LoadReturn url pending) s1
    | None =>
        let p := length (tasks s1) in
        let s2 := spawn (InstEntry url urlStack) (emit (EvInstantiate url p) s1) in
        let s3 := with_pending s2 (<[url := p]> (pendingModules s2)) in
        let s4 := spawn (Cleanup url p) s3 in
        set_task i (LoadReturn url p) s4
    end.

(** Line 41, once [modulePromise] has settled either way. *)
Definition cleanup (i : nat) (url : string) (p : nat) (s : State) : option State :=
  match settled s p with
  | None => None
  | Some _ =>
      Some (set_task i (CleanupDone (bool_decide (is_Some (pendingModules s !! url))))
              (with_pending s (delete url (pendingModules s))))
  end.

(** *** The scheduler *)

(** Resuming activation [i]: [None] when it is not suspended or what it
    awaits has not settled. *)
Definition step (s : State) (i : nat) : option State :=
  match tasks s !! i with
  | Some (LoadEntry url urlStack) => Some (load_entry i url urlStack s)
  | Some (InstEntry url urlStack) => Some (instantiate_entry i url urlStack s)
  | Some (InstTransform url urlStack ns) => Some (instantiate_transformed i url urlStack ns s)
  | Some (InstDep url urlStack ns result rest t) =>
      instantiate_resumed i url urlStack ns result rest t s
  | Some (Cleanup url p) => cleanup i url p s
  | _ => None
  end.

(** A top-level [ssrLoadModule(url, server)]: line 28 and the new
    activation, with the default empty [urlStack]. *)
Definition ssrLoadModule (url : string) (s : State) : State :=
  spawn (LoadEntry (unwrapId env url) []) s.

(** One move of the system: a caller asks for a module, or some activation
    is resumed. *)
Inductive sstep : State → State → Prop :=
| sstep_call (url : string) (s : State) : sstep s (ssrLoadModule url s)
| sstep_run (i : nat) (s s' : State) : step s i = Some s' → sstep s s'.

(** The states a server starts in: nothing loaded, nothing in flight. *)
Definition initial (s : State) : Prop :=
  tasks s = [] ∧ pendingModules s = ∅ ∧ trace s = [] ∧
  map_Forall (λ _ mod_, ssrModule mod_ = None) (moduleGraph s).

Definition reachable (s : State) : Prop :=
  ∃ s0, initial s0 ∧ rtc sstep s0 s.

(** A deterministic scheduler, for running examples: resume the first
    activation that can be, until none can or [n] resumptions were made. *)
Fixpoint first_step (s : State) (candidates : list nat) : option State :=
  match candidates with
  | [] => None
  | i :: rest =>
      match step s i with
      | Some s' => Some s'
      | None => first_step s rest
      end
  end.

Fixpoint run (n : nat) (s : State) : State :=
  match n with
  | O => s
  | S n' =>
      match first_step s (seq 0 (length (tasks s))) with
      | Some s' => run n' s'
      | None => s
      end
  end.

(** A schedule: top-level calls and resumptions, in the order they happen. *)
Inductive Action :=
| Call (url : string)
| Resume (i : nat).

Fixpoint play (acts : list Action) (s : State) : option State :=
  match acts with
  | [] => Some s
  | Call url :: acts' => play acts' (ssrLoadModule url s)
  | Resume i :: acts' =>
      match step s i with
      | Some s' => play acts' s'
      | None => None
      end
  end.
Definition quiescent (s : State) : bool :=
  bool_decide (first_step s (seq 0 (length (tasks s))) = None).

End WithEnv.
End Loader.

(* ===================================================================== *)
(** ** Notions used to state the properties                               *)
(* ===================================================================== *)

Module Notions.
Import JS Loader.

(** The namespace at [cur] carries, under [key], the accessor that
    [ssrExportAll] installs for the source at [src]. *)
Definition bound_to (h : Heap) (cur : loc) (key : string) (src : loc) : Prop :=
  ∃ ps ext tag, h !! cur = Some (Plain ps ext tag) ∧ ps !! key = Some (live_accessor src key).

(** *** What one resumption can do

    The relations below say, component by component, what a resumption makes
    of the state.  The scheduler's [step] is shown to stay within them, and
    the invariants are then checked against them. *)

Section Effects.
Context (env : Env).

(** The graph after [ensureEntryFromUrl url], and the record it returns. *)
Definition ensured (url : string) (g : gmap string ModuleNode) : gmap string ModuleNode :=
  match g !! url with
  | Some _ => g
  | None => <[url := mkNode (fileOf env url) None None]> g
  end.

Definition record_of (url : string) (g : gmap string ModuleNode) : ModuleNode :=
  match g !! url with
  | Some mod_ => mod_
  | None => mkNode (fileOf env url) None None
  end.

(** How the heap may change while the body of the module that owns the
    namespace [ns] runs: objects are added; of the old ones only [ns]
    changes, and stays an extensible ordinary object if it was one; a frozen
    object does not change at all. *)
Definition heap_evolves (ns : loc) (h h1 : Heap) : Prop :=
  (length h ≤ length h1)%nat ∧
  (∀ l, (l < length h)%nat → l ≠ ns → h1 !! l = h !! l) ∧
  (∀ ps tag, h !! ns = Some (Plain ps true tag) → ∃ ps', h1 !! ns = Some (Plain ps' true tag)) ∧
  (∀ l o, h !! l = Some o → obj_frozen o = true → h1 !! l = Some o).

Definition is_load_with (urlStack : list string) (t : Task) : Prop :=
  ∃ dep, t = LoadEntry dep urlStack.

Definition is_resolve (ev : Event) : Prop :=
  ∃ id dir, ev = EvResolveFrom id dir.

(** The run of a body: it leaves the graph and [pendingModules] alone, starts
    loads (dynamic imports) under the stack extended with its own url, and
    calls [resolveFrom]. *)
Record body_effect (url : string) (urlStack : list string) (ns : loc) (s s1 : State) : Prop := {
  be_graph : moduleGraph s1 = moduleGraph s;
  be_pending : pendingModules s1 = pendingModules s;
  be_tasks : ∃ new, tasks s1 = tasks s ++ new ∧ Forall (is_load_with (urlStack ++ [url])) new;
  be_trace : ∃ evs, trace s1 = evs ++ trace s ∧ Forall is_resolve evs;
  be_heap : heap_evolves ns (heap s) (heap s1)
}.

(** How the dependency loop of activation [i] (lines 78-82 and what follows
    them) leaves the state [sm] it is resumed in, with [rest] still to visit:
    suspended on the load of the next internal dependency, or past the last
    one with the body run to its end, to a throw that was logged and thrown
    on, or to a throw on which line 134 itself threw. *)
Inductive loop_out (i : nat) (url : string) (urlStack : list string) (ns : loc)
    (r : TransformResult) (sm : State) (rest : list string) (s' : State) : Prop :=
| lo_suspend (ext : list string) (dep : string) (rest' : list string) :
    rest = ext ++ dep :: rest' →
    Forall (λ x, isExternal x = true) ext →
    isExternal dep = false →
    moduleGraph s' = moduleGraph sm →
    heap s' = heap sm →
    pendingModules s' = pendingModules sm →
    trace s' = EvPreload i (unwrapId env dep) (urlStack ++ [url]) (length (tasks sm)) :: trace sm →
    tasks s' = <[i := InstDep url urlStack ns r rest' (length (tasks sm))]> (tasks sm)
                 ++ [LoadEntry (unwrapId env dep) (urlStack ++ [url])] →
    loop_out i url urlStack ns r sm rest s'
| lo_return (h1 : Heap) (new : list Task) (evs : list Event) :
    Forall (λ x, isExternal x = true) rest →
    heap_evolves ns (heap sm) h1 →
    Forall (is_load_with (urlStack ++ [url])) new →
    Forall is_resolve evs →
    moduleGraph s' = moduleGraph sm →
    heap s' = freeze h1 ns →
    pendingModules s' = pendingModules sm →
    trace s' = evs ++ EvExec url i :: trace sm →
    tasks s' = <[i := InstDone url (Fulfilled (VObj ns))]> (tasks sm) ++ new →
    loop_out i url urlStack ns r sm rest s'
| lo_throw (h1 : Heap) (new : list Task) (evs : list Event) (e : Exn) :
    Forall (λ x, isExternal x = true) rest →
    heap_evolves ns (heap sm) h1 →
    Forall (is_load_with (urlStack ++ [url])) new →
    Forall is_resolve evs →
    moduleGraph s' = moduleGraph sm →
    heap s' = h1 →
    pendingModules s' = pendingModules sm →
    trace s' = EvLogError url e :: evs ++ EvExec url i :: trace sm →
    tasks s' = <[i := InstDone url (Rejected e)]> (tasks sm) ++ new →
    loop_out i url urlStack ns r sm rest s'
| lo_raise (h1 : Heap) (new : list Task) (evs : list Event) (e : Exn) :
    Forall (λ x, isExternal x = true) rest →
    heap_evolves ns (heap sm) h1 →
    Forall (is_load_with (urlStack ++ [url])) new →
    Forall is_resolve evs →
    moduleGraph s' = moduleGraph sm →
    heap s' = h1 →
    pendingModules s' = pendingModules sm →
    trace s' = evs ++ EvExec url i :: trace sm →
    tasks s' = <[i := InstDone url (Rejected e)]> (tasks sm) ++ new →
    loop_out i url urlStack ns r sm rest s'.

(** The state in which [instantiateModule] enters the loop when the record
    already holds a transform result: the fresh namespace is allocated and
    stored, nothing else has happened. *)
Definition entered (url : string) (s : State) : State :=
  with_graph (with_heap s (heap s ++ [new_ssrModule]))
    (<[url := mkNode (file (record_of url (moduleGraph s))) (Some (length (heap s)))
                (ssrTransformResult (record_of url (moduleGraph s)))]> (moduleGraph s)).

(** What resuming activation [i] makes of [s]. *)
Inductive trans (s : State) (i : nat) (s' : State) : Prop :=
| tr_cycle url urlStack :
    tasks s !! i = Some (LoadEntry url urlStack) →
    url ∈ urlStack →
    moduleGraph s' = ensured url (moduleGraph s) →
    heap s' = heap s →
    pendingModules s' = pendingModules s →
    trace s' = trace s →
    tasks s' = <[i := LoadNow url (ns_val (ssrModule (record_of url (moduleGraph s))))]> (tasks s) →
    trans s i s'
| tr_join url urlStack p :
    tasks s !! i = Some (LoadEntry url urlStack) →
    url ∉ urlStack →
    pendingModules s !! url = Some p →
    moduleGraph s' = ensured url (moduleGraph s) →
    heap s' = heap s →
    pendingModules s' = pendingModules s →
    trace s' = trace s →
    tasks s' = <[i := LoadReturn url p]> (tasks s) →
    trans s i s'
| tr_start url urlStack :
    tasks s !! i = Some (LoadEntry url urlStack) →
    url ∉ urlStack →
    pendingModules s !! url = None →
    moduleGraph s' = ensured url (moduleGraph s) →
    heap s' = heap s →
    pendingModules s' = <[url := length (tasks s)]> (pendingModules s) →
    trace s' = EvInstantiate url (length (tasks s)) :: trace s →
    tasks s' = <[i := LoadReturn url (length (tasks s))]> (tasks s)
                 ++ [InstEntry url urlStack; Cleanup url (length (tasks s))] →
    trans s i s'
| tr_reuse url urlStack ns :
    tasks s !! i = Some (InstEntry url urlStack) →
    complete_namespace (heap s) (record_of url (moduleGraph s)) = Some ns →
    moduleGraph s' = ensured url (moduleGraph s) →
    heap s' = heap s →
    pendingModules s' = pendingModules s →
    trace s' = EvReuse url i :: trace s →
    tasks s' = <[i := InstDone url (Fulfilled (VObj ns))]> (tasks s) →
    trans s i s'
| tr_begin url urlStack :
    tasks s !! i = Some (InstEntry url urlStack) →
    complete_namespace (heap s) (record_of url (moduleGraph s)) = None →
    ssrTransformResult (record_of url (moduleGraph s)) = None →
    moduleGraph s' = moduleGraph (entered url s) →
    heap s' = heap s ++ [new_ssrModule] →
    pendingModules s' = pendingModules s →
    trace s' = EvTransform url i :: trace s →
    tasks s' = <[i := InstTransform url urlStack (length (heap s))]> (tasks s) →
    trans s i s'
| tr_begin_cached url urlStack r :
    tasks s !! i = Some (InstEntry url urlStack) →
    complete_namespace (heap s) (record_of url (moduleGraph s)) = None →
    ssrTransformResult (record_of url (moduleGraph s)) = Some r →
    loop_out i url urlStack (length (heap s)) r (entered url s) (deps r) s' →
    trans s i s'
| tr_transform_rejected url urlStack ns e :
    tasks s !! i = Some (InstTransform url urlStack ns) →
    transformRequest env url = inl e ∨
      (transformRequest env url = inr None ∧ e = transform_failure url) →
    moduleGraph s' = moduleGraph s →
    heap s' = heap s →
    pendingModules s' = pendingModules s →
    trace s' = trace s →
    tasks s' = <[i := InstDone url (Rejected e)]> (tasks s) →
    trans s i s'
| tr_transformed url urlStack ns r :
    tasks s !! i = Some (InstTransform url urlStack ns) →
    transformRequest env url = inr (Some r) →
    loop_out i url urlStack ns r s (deps r) s' →
    trans s i s'
| tr_dep_rejected url urlStack ns r rest t e :
    tasks s !! i = Some (InstDep url urlStack ns r rest t) →
    outcome s t = Some (Rejected e) →
    moduleGraph s' = moduleGraph s →
    heap s' = heap s →
    pendingModules s' = pendingModules s →
    trace s' = trace s →
    tasks s' = <[i := InstDone url (Rejected e)]> (tasks s) →
    trans s i s'
| tr_dep_fulfilled url urlStack ns r rest t v :
    tasks s !! i = Some (InstDep url urlStack ns r rest t) →
    outcome s t = Some (Fulfilled v) →
    loop_out i url urlStack ns r (emit (EvAwaited i t) s) rest s' →
    trans s i s'
| tr_cleanup url p o :
    tasks s !! i = Some (Cleanup url p) →
    settled s p = Some o →
    moduleGraph s' = moduleGraph s →
    heap s' = heap s →
    pendingModules s' = delete url (pendingModules s) →
    trace s' = trace s →
    tasks s' = <[i := CleanupDone (bool_decide (is_Some (pendingModules s !! url)))]> (tasks s) →
    trans s i s'.

End Effects.

(** *** The invariants of the loader *)

(** The url an unsettled activation of [instantiateModule] works on. *)
Definition inst_url (t : Task) : option string :=
  match t with
  | InstEntry u _ | InstTransform u _ _ | InstDep u _ _ _ _ _ => Some u
  | _ => None
  end.

(** The namespace an activation of [instantiateModule] is building: it has
    one from line 63 until it settles. *)
Definition inst_namespace (t : Task) : option (string * loc) :=
  match t with
  | InstTransform u _ ns | InstDep u _ ns _ _ _ => Some (u, ns)
  | _ => None
  end.

Definition task_stack (t : Task) : list string :=
  match t with
  | LoadEntry _ st | InstEntry _ st | InstTransform _ st _ | InstDep _ st _ _ _ _ => st
  | _ => []
  end.

(** An activation of [instantiateModule] for [url], settled or not. *)
Definition instance_of (url : string) (t : Task) : Prop :=
  inst_url t = Some url ∨ ∃ o, t = InstDone url o.

(** An activation of [ssrLoadModule] for [url]. *)
Definition load_of (url : string) (t : Task) : Prop :=
  (∃ st, t = LoadEntry url st) ∨ (∃ v, t = LoadNow url v) ∨ (∃ p, t = LoadReturn url p).

Definition is_load_entry (t : Task) : Prop := ∃ dep st, t = LoadEntry dep st.

Section Invariants.
Context (g : gmap string ModuleNode) (h : Heap) (pm : gmap string nat) (ts : list Task).

(** The record of [url] holds the namespace [ns]. *)
Definition has_namespace (url : string) (ns : loc) : Prop :=
  ∃ mod_, g !! url = Some mod_ ∧ ssrModule mod_ = Some ns.

(** The module [url] is complete: its record holds the frozen [ns]. *)
Definition complete (url : string) (ns : loc) : Prop :=
  has_namespace url ns ∧ isFrozen h ns = true.

(** The pending-load table and the activations. *)
Record InvA : Prop := {
  (* an unsettled instantiation is the table's entry for its url *)
  inv_flight : ∀ p t u, ts !! p = Some t → inst_url t = Some u → pm !! u = Some p;
  (* a clean-up that has not run still has its entry *)
  inv_cleanup : ∀ c u p, ts !! c = Some (Cleanup u p) → pm !! u = Some p;
  inv_cleanup_unique : ∀ c c' u p p',
    ts !! c = Some (Cleanup u p) → ts !! c' = Some (Cleanup u p') → c = c';
  (* an entry is an instantiation of its url and has its clean-up registered *)
  inv_pending : ∀ u p, pm !! u = Some p →
    (∃ c, ts !! c = Some (Cleanup u p)) ∧ ∃ t, ts !! p = Some t ∧ instance_of u t;
  (* the promise a load returned is an instantiation of its url *)
  inv_return : ∀ i u p, ts !! i = Some (LoadReturn u p) →
    ∃ t, ts !! p = Some t ∧ instance_of u t
}.

(** The namespaces.  What must hold of the activation at index [j]:
    - a namespace being built is the one in the record of its url, and is
      extensible;
    - a fulfilled instantiation returned the frozen namespace of its record;
    - while a failed instantiation is still the table's entry, the module
      has a namespace that is not frozen;
    - a namespace handed out at a cycle is the record's, or was abandoned
      unfrozen;
    - every url on a call stack has a namespace. *)
Definition stack_ok (urlStack : list string) : Prop :=
  ∀ x, x ∈ urlStack → ∃ ns, has_namespace x ns.

Definition building (url : string) (ns : loc) : Prop :=
  has_namespace url ns ∧ ∃ ps tag, h !! ns = Some (Plain ps true tag).

Definition abandoned (ns : loc) : Prop :=
  isFrozen h ns = false ∧ ∀ x, ¬ has_namespace x ns.

Definition task_ok (j : nat) (t : Task) : Prop :=
  match t with
  | LoadEntry _ st | InstEntry _ st => stack_ok st
  | InstTransform u st ns | InstDep u st ns _ _ _ => building u ns ∧ stack_ok st
  | InstDone u (Fulfilled v) => ∃ ns, v = VObj ns ∧ complete u ns
  | InstDone u (Rejected _) =>
      pm !! u = Some j → ∃ ns, has_namespace u ns ∧ isFrozen h ns = false
  | LoadNow u (VObj ns) => ns < length h ∧ (has_namespace u ns ∨ abandoned ns)
  | _ => True
  end.

Record InvB : Prop := {
  inv_tasks : ∀ j t, ts !! j = Some t → task_ok j t;
  inv_alloc : ∀ u ns, has_namespace u ns → ns < length h;
  inv_inj : ∀ u1 u2 ns, has_namespace u1 ns → has_namespace u2 ns → u1 = u2
}.

End Invariants.

(** *** The history of an instantiation *)






Definition executions (u : string) (p : nat) (tr : list Event) : nat :=
  count_occ Event_eq_dec tr (EvExec u p).





(** The activations that a resumption adds to the pool. *)
Definition passive (t : Task) : Prop :=
  (∃ d st, t = LoadEntry d st) ∨ (∃ u st, t = InstEntry u st) ∨ (∃ u p, t = Cleanup u p).


(** An activation that has settled, or has returned the promise it will
    settle with: it does not change any more. *)
Definition final (t : Task) : Prop :=
  match t with
  | LoadNow _ _ | LoadReturn _ _ | InstDone _ _ | CleanupDone _ => True
  | _ => False
  end.

(** *** After a module is complete *)

(** The load at index [j] is subsequent to the state [s0]: it was called
    later, or had not yet passed line 31 in [s0]. *)
Definition subsequent (s0 : State) (u : string) (j : nat) : Prop :=
  length (tasks s0) ≤ j ∨ ∃ st, tasks s0 !! j = Some (LoadEntry u st).

(** A load of [u] will give [ns]: it returned it, or returned the promise of
    an instantiation that has returned it or is about to pass line 54. *)
Definition served_by (ts : list Task) (u : string) (ns : loc) (t : Task) : Prop :=
  match t with
  | LoadNow u' v => u' = u → v = VObj ns
  | LoadReturn u' p =>
      u' = u →
      (∃ st, ts !! p = Some (InstEntry u st)) ∨ ts !! p = Some (InstDone u (Fulfilled (VObj ns)))
  | _ => True
  end.

Record After (s0 : State) (u : string) (ns : loc) (s : State) : Prop := {
  after_complete : complete (moduleGraph s) (heap s) u ns;
  after_object : heap s !! ns = heap s0 !! ns;
  after_exec : ∀ p, executions u p (trace s) = executions u p (trace s0);
  after_loads : ∀ j t, subsequent s0 u j → tasks s !! j = Some t → served_by (tasks s) u ns t
}.

(** The instantiations [p] and [q] wait for each other: the loop of [p] is
    suspended on a load that returned the promise of [q] (line 38), and the
    loop of [q] on a load that returned the promise of [p]. *)
Definition mutual_wait (s : State) (p q : nat) : Prop :=
  ∃ u st ns r rest a v st' ns' r' rest' b,
    tasks s !! p = Some (InstDep u st ns r rest a) ∧
    tasks s !! a = Some (LoadReturn v q) ∧
    tasks s !! q = Some (InstDep v st' ns' r' rest' b) ∧
    tasks s !! b = Some (LoadReturn u p).

Definition Inv (s : State) : Prop :=
  InvA (pendingModules s) (tasks s) ∧
  InvB (moduleGraph s) (heap s) (pendingModules s) (tasks s).

(** *** The resolution cache over time *)

(** Every entry of [c] that a look-up would answer with (line 166: a
    non-empty path) is still in [c']. *)
Definition cache_keeps (c c' : gmap string string) : Prop :=
  ∀ k p, c !! k = Some p → str_truthy p = true → c' !! k = Some p.

(** *** The mark of a module namespace *)

(** What lines 58-61 give every namespace: the tag "Module" and an
    [__esModule] that is [true], not enumerable, not writable and not
    configurable. *)
Definition esModule_flag : Property := mkProperty (Data (VBool true) false) false false.

Definition marked (o : Obj) : Prop :=
  ∃ ps ext, o = Plain ps ext (Some "Module") ∧ ps !! "__esModule" = Some esModule_flag.

(** Every marked object of [h] is still there, and marked, in [h']. *)
Definition marks_kept (h h' : Heap) : Prop :=
  ∀ l o, h !! l = Some o → marked o → ∃ o', h' !! l = Some o' ∧ marked o'.

(** Every namespace in a record is a marked object. *)
Definition namespaces_marked (g : gmap string ModuleNode) (h : Heap) : Prop :=
  ∀ u ns, has_namespace g u ns → ∃ o, h !! ns = Some o ∧ marked o.

(** *** The call stacks *)

(** The [urlStack] of an activation names no module twice, and not the
    module the activation instantiates. *)
Definition stack_fresh (t : Task) : Prop :=
  NoDup (task_stack t) ∧ ∀ u, inst_url t = Some u → u ∉ task_stack t.

(** *** The error log *)

(** Every error in the log is the rejection of an instantiation that ran
    the body of the module it is logged for. *)
Definition log_justified (s : State) : Prop :=
  ∀ u e, EvLogError u e ∈ trace s →
    ∃ p, tasks s !! p = Some (InstDone u (Rejected e)) ∧ EvExec u p ∈ trace s.

(** *** The runs of a body *)


End Notions.

(* ===================================================================== *)
(** ** Concrete modules, for the scenarios                                *)
(* ===================================================================== *)

Module Scenario.
Import JS Loader.

Definition data (v : Val) : Property := mkProperty (Data v true) true true.

(** A package written the old way, [module.exports = leftpad] with a stray
    [default] property, and one compiled from an ES module. *)
Definition legacy_pkg : Obj := Plain {[ "default" := data (VNum 7); "pad" := data (VNum 1) ]} true None.
Definition esm_pkg : Obj :=
  Plain {[ "__esModule" := mkProperty (Data (VBool true) false) false false;
           "default" := data (VNum 42); "named" := data (VNum 2) ]} true None.

Definition pkg_heap : Heap := [legacy_pkg; esm_pkg].

(** a.js imports b.js and leftpad; b.js imports a.js and keeps what it got. *)
Definition bodyA : Body :=
  BSet "x" (VNum 1) (BImport "/b.js" (λ b, BSet "b" b (BImport "leftpad" (λ p, BSet "pad" p BDone)))).
Definition bodyB : Body :=
  BImport "/a.js" (λ a, BSet "seen" a BDone).
(** c.js has no dependencies; bad.js throws. *)
Definition bodyC : Body := BSet "x" (VNum 1) BDone.
Definition boom : Exn := mkExn "Error" "boom" "at bad.js".
Definition bodyBad : Body := BThrow (ThrownError boom).
(** m.js imports c.js, leftpad and d.js, in this order. *)
Definition bodyM : Body :=
  BImport "/c.js" (λ c, BSet "c" c (BImport "/d.js" (λ d, BSet "d" d BDone))).
Definition bodyD : Body := BSet "y" (VNum 2) BDone.

(** imp.js imports bad.js; null.js throws [null] and str.js a string;
    late.js imports c.js and throws a string; try.js catches what it throws
    and goes on; the transform of rej.js rejects. *)
Definition bodyImp : Body := BImport "/bad.js" (λ b, BSet "b" b BDone).
Definition bodyLate : Body := BImport "/c.js" (λ c, BSet "c" c (BThrow (ThrownPrimitive "string" "late"))).
Definition bodyNull : Body := BSet "x" (VNum 1) (BThrow ThrownNull).
Definition bodyStr : Body := BThrow (ThrownPrimitive "string" "msg").
Definition bodyTry : Body :=
  BTry (BThrow (ThrownPrimitive "string" "msg")) (λ _, BSet "caught" (VBool true) BDone) (BSet "x" (VNum 1) BDone).
Definition unexpected_token : Exn := mkExn "SyntaxError" "Unexpected token" "at rej.js".

Definition transform (url : string) : Res (option TransformResult) :=
  if decide (url = "/a.js") then inr (Some (mkResult bodyA ["/b.js"; "leftpad"]))
  else if decide (url = "/b.js") then inr (Some (mkResult bodyB ["/a.js"]))
  else if decide (url = "/c.js") then inr (Some (mkResult bodyC []))
  else if decide (url = "/bad.js") then inr (Some (mkResult bodyBad []))
  else if decide (url = "/m.js") then inr (Some (mkResult bodyM ["/c.js"; "leftpad"; "/d.js"]))
  else if decide (url = "/d.js") then inr (Some (mkResult bodyD []))
  else if decide (url = "/imp.js") then inr (Some (mkResult bodyImp ["/bad.js"]))
  else if decide (url = "/late.js") then inr (Some (mkResult bodyLate ["/c.js"]))
  else if decide (url = "/null.js") then inr (Some (mkResult bodyNull []))
  else if decide (url = "/str.js") then inr (Some (mkResult bodyStr []))
  else if decide (url = "/try.js") then inr (Some (mkResult bodyTry []))
  else if decide (url = "/rej.js") then inl unexpected_token
  else inr None.

Definition search (id resolveDir : string) : Res string :=
  inr (resolveDir +:+ "/node_modules/" +:+ id).

Definition load_pkg (path : string) : Thrown + Val :=
  if decide (path = "/root/node_modules/esm") then inr (VObj 1) else inr (VObj 0).

(** [ssrRewriteStacktrace] starts with [stack.split]. *)
Definition no_stack : Res string :=
  inl (TypeError "Cannot read properties of undefined (reading 'split')").

Definition env : Env :=
  mkEnv (λ id, id) (λ u, u) search (λ _, false) (λ p, p) load_pkg
        (λ st, "rewritten: " +:+ st) no_stack transform (λ u, Some ("/root" +:+ u)) "/root" 64.

Definition start : State := mkState ∅ pkg_heap ∅ ∅ [] [].

(** The state the schedule [acts] leads to from [start]. *)
Definition after (acts : list Action) : State := default start (play env acts start).

(** Two callers ask for c.js and both have looked [pendingModules] up. *)
Definition two_callers : list Action := [Call "/c.js"; Call "/c.js"; Resume 0; Resume 1].

(** a.js is asked for; the schedule stops when b.js has called
    [ssrLoadModule] on a.js (activation 6) under the stack [a.js; b.js]. *)
Definition cycle_closing : list Action :=
  [Call "/a.js"; Resume 0; Resume 1; Resume 1; Resume 3; Resume 4; Resume 4].

(** bad.js is asked for and its instantiation has failed; the entry is still
    in the table. *)
Definition bad_failed : list Action := [Call "/bad.js"; Resume 0; Resume 1; Resume 1].

(** c.js is asked for and its instantiation has returned. *)
Definition c_loaded : list Action := [Call "/c.js"; Resume 0; Resume 1; Resume 1].


(** a.js and b.js are asked for together: both instantiations (activations 2
    and 4) are under way before either reaches its dependency loop, and each
    loop then calls [ssrLoadModule] on the other module (activations 6, 7). *)
Definition both_asked : list Action :=
  [Call "/a.js"; Call "/b.js"; Resume 0; Resume 1; Resume 2; Resume 4;
   Resume 2; Resume 4; Resume 6; Resume 7].

(** The same server with a package that is not installed: the search for
    ghost throws. *)
Definition not_found (id : string) : Exn := mkExn "Error" ("Cannot find module " +:+ id) "".
Definition search_installed (id resolveDir : string) : Res string :=
  if decide (id = "ghost") then inl (not_found id) else search id resolveDir.
Definition env_ghost : Env :=
  mkEnv (λ id, id) (λ u, u) search_installed (λ _, false) (λ p, p) load_pkg
        (λ st, "rewritten: " +:+ st) no_stack transform (λ u, Some ("/root" +:+ u)) "/root" 64.

(** Heaps for [ssrExportAll]: a source with an export and a default next to
    a namespace with exports of its own; and a source whose [__esModule] is
    an ordinary, enumerable property (as [exports.__esModule = true] leaves
    it) next to a fresh namespace. *)
Definition reexport_heap : Heap :=
  [Plain {[ "x" := data (VNum 1); "default" := data (VNum 0) ]} true None;
   Plain {[ "default" := data (VNum 9); "own" := data (VNum 5) ]} true None].
Definition flagged_source_heap : Heap :=
  [Plain {[ "__esModule" := data (VBool true); "x" := data (VNum 1) ]} true None;
   new_ssrModule].

(** bad.js is asked for and its instantiation (activation 1) awaits the
    transform. *)
Definition bad_transforming : list Action := [Call "/bad.js"; Resume 0; Resume 1].

(** bad.js has failed, its clean-up has run, and it is asked for again: the
    second instantiation (activation 4) has not passed line 52 yet. *)
Definition bad_retried : list Action :=
  [Call "/bad.js"; Resume 0; Resume 1; Resume 1; Resume 2; Call "/bad.js"; Resume 3].

(** ghost.js imports, dynamically, a package that is not installed; and
    self.js imports itself dynamically. *)
Definition bodyGhost : Body := BSet "x" (VNum 1) (BDynamicImport "ghost" (BSet "y" (VNum 2) BDone)).
Definition bodySelf : Body := BSet "x" (VNum 1) (BDynamicImport "/self.js" (BSet "y" (VNum 2) BDone)).
Definition transform_dynamic (url : string) : Res (option TransformResult) :=
  if decide (url = "/ghost.js") then inr (Some (mkResult bodyGhost []))
  else if decide (url = "/self.js") then inr (Some (mkResult bodySelf []))
  else transform url.
Definition env_dynamic : Env :=
  mkEnv (λ id, id) (λ u, u) search_installed (λ _, false) (λ p, p) load_pkg
        (λ st, "rewritten: " +:+ st) no_stack transform_dynamic (λ u, Some ("/root" +:+ u)) "/root" 64.

(** ghost.js, resp. self.js, is asked for and its instantiation (activation
    1) awaits the transform. *)
Definition ghost_transforming : list Action := [Call "/ghost.js"; Resume 0; Resume 1].
Definition self_transforming : list Action := [Call "/self.js"; Resume 0; Resume 1].




(** The same server with the old-style package frozen:
    [module.exports = Object.freeze({ default: 7, pad: 1 })]. *)
Definition frozen_start : State :=
  mkState ∅ [freeze_obj legacy_pkg; esm_pkg] ∅ ∅ [] [].

End Scenario.

(* ===================================================================== *)
(** ** Statements of the specification that the code does not satisfy     *)
(* ===================================================================== *)

Module Stated.
Import JS Loader.

(** Section 8, Interop: a dependency written under the legacy convention (no
    [__esModule] marker) yields a namespace whose "default" is the
    dependency's [default] property; one written under the current
    convention yields a "default" that is the dependency object itself. *)
Definition interop_section8 : Prop :=
  ∀ d h l marker p h',
    get d h l "__esModule" = inr marker →
    interop d h (VObj l) = inr (VObj p, h') →
    (truthy marker = false → get (S d) h' p "default" = get d h l "default") ∧
    (truthy marker = true → get (S d) h' p "default" = inr (VObj l)).

(** Section 3, Resolution Cache Entry: the cache is keyed by the triple, so a
    resolution that follows one for a different triple still gives what its
    own search gives. *)
Definition cache_keyed_by_triple : Prop :=
  ∀ env id1 imp1 rt1 id2 imp2 rt2 s path1 s1,
    (id1, imp1, rt1) ≠ (id2, imp2, rt2) →
    resolveCache s = ∅ →
    resolve env id1 imp1 rt1 s = (inr path1, s1) →
    (resolve env id2 imp2 rt2 s1).1 = resolveFrom env id2 (resolveDir_of env imp2 rt2).




(** The static import of an internal specifier returns [undefined] when the
    graph store has no record, or no namespace yet, for it. *)
Definition import_undefined_without_namespace : Prop :=
  ∀ env s dep,
    isExternal dep = false →
    (∀ mod_, moduleGraph s !! unwrapId env dep = Some mod_ → ssrModule mod_ = None) →
    ssrImport_internal env s dep = VUndef.

End Stated.

(* ===================================================================== *)
(** ** Properties                                                         *)
(* ===================================================================== *)

Module Properties.
Import JS Loader Notions.

(** *** Reading through accessors and proxies *)

Lemma get_data d h l ps ext tag k p v w :
  h !! l = Some (Plain ps ext tag) → ps !! k = Some p → slot p = Data v w →
  get d h l k = inr v.
Proof. intros Hl Hk Hs. destruct d; simpl; rewrite Hl, Hk, Hs; reflexivity. Qed.

Lemma get_absent d h l ps ext tag k :
  h !! l = Some (Plain ps ext tag) → ps !! k = None → get d h l k = inr VUndef.
Proof. intros Hl Hk. destruct d; simpl; rewrite Hl, Hk; reflexivity. Qed.

Lemma get_getter d h l ps ext tag k p src key :
  h !! l = Some (Plain ps ext tag) → ps !! k = Some p → slot p = Getter src key →
  get (S d) h l k = get d h src key.
Proof. intros Hl Hk Hs. simpl. rewrite Hl, Hk, Hs. reflexivity. Qed.

Lemma get_proxy d h p l dflt k :
  h !! p = Some (InteropProxy l dflt) →
  get (S d) h p k
  = match (if decide (k = "default") then inr dflt else get d h l k) with
    | inl e => inl e
    | inr v => proxy_get_invariant (own_property (length h) h l k) k v
    end.
Proof. intros Hp. simpl. rewrite Hp. reflexivity. Qed.

Lemma own_property_plain n h l ps ext tag k :
  h !! l = Some (Plain ps ext tag) → own_property n h l k = ps !! k.
Proof. intros Hl. destruct n; simpl; by rewrite Hl. Qed.

(** Reading through a proxy whose target is an ordinary object: every key
    but "default" reads the target; "default" gives [defaultExport], unless
    the target's own "default" is a read-only, non-configurable data
    property with another value, where the engine throws. *)
Lemma get_proxy_plain d h p l dflt ps ext tag :
  h !! p = Some (InteropProxy l dflt) → h !! l = Some (Plain ps ext tag) →
  (∀ k, k ≠ "default" → get (S d) h p k = get d h l k) ∧
  get (S d) h p "default" = proxy_get_invariant (ps !! "default") "default" dflt.
Proof.
  intros Hp Hl. split.
  - intros k Hk. rewrite (get_proxy _ _ _ _ _ _ Hp).
    rewrite (own_property_plain _ _ _ _ _ _ _ Hl).
    destruct (decide (k = "default")) as [|_]; [done|].
    destruct (get d h l k) as [e|v] eqn:Hg; [done|].
    unfold proxy_get_invariant. destruct (ps !! k) as [q|] eqn:Hq; [|done].
    destruct (slot q) as [v0 [|]|src key] eqn:Hs; try done.
    destruct (configurable q); [done|].
    rewrite (get_data _ _ _ _ _ _ _ _ _ _ Hl Hq Hs) in Hg. injection Hg as <-.
    by rewrite decide_True.
  - rewrite (get_proxy _ _ _ _ _ _ Hp). rewrite (own_property_plain _ _ _ _ _ _ _ Hl).
    by rewrite decide_True.
Qed.

Section Resolver.
Context (env : Env).

Lemma resolve_heap id importer rt s :
  heap (resolve env id importer rt s).2 = heap s.
Proof.
  unfold resolve, resolve_search.
  repeat case_match; reflexivity.
Qed.

Lemma interop_inv d h raw v h' :
  interop d h raw = inr (v, h') →
  ∃ l marker dflt,
    raw = VObj l ∧ v = VObj (length h) ∧ h' = h ++ [InteropProxy l dflt] ∧
    get d h l "__esModule" = inr marker ∧
    (if truthy marker then get d h l "default" else inr (VObj l)) = inr dflt.
Proof.
  unfold interop. destruct raw as [| | | |l]; try discriminate.
  destruct (get d h l "__esModule") as [e|marker] eqn:Hm; [discriminate|].
  destruct (if truthy marker then get d h l "default" else inr (VObj l)) as [e|dflt] eqn:Hd;
    [discriminate|].
  unfold alloc. intros [= <- <-]. eauto 10.
Qed.

Lemma nodeRequire_inv id importer rt s v s' :
  nodeRequire env id importer rt s = (inr v, s') →
  ∃ path s1 raw h',
    resolve env id importer rt s = (inr path, s1) ∧
    require env path = inr raw ∧
    interop (stackLimit env) (heap s) raw = inr (v, h') ∧
    s' = with_heap s1 h'.
Proof.
  unfold nodeRequire. intros H.
  pose proof (resolve_heap id importer rt s) as Hh.
  destruct (resolve env id importer rt s) as [[e|path] s1] eqn:Hr; [discriminate|].
  simpl in Hh.
  destruct (require env path) as [e|raw] eqn:Hq; [discriminate|].
  rewrite Hh in H.
  destruct (interop (stackLimit env) (heap s) raw) as [e|[v' h']] eqn:Hi; [discriminate|].
  injection H as <- <-. eauto 10.
Qed.

(** What [nodeRequire] returns: a new proxy around the module that [require]
    loaded, holding the interop default fixed at that moment -- the module
    itself when it has no truthy [__esModule], its [default] when it has. *)
Lemma nodeRequire_proxy id importer rt s v s' :
  nodeRequire env id importer rt s = (inr v, s') →
  ∃ path l p marker dflt,
    (resolve env id importer rt s).1 = inr path ∧
    require env path = inr (VObj l) ∧
    v = VObj p ∧
    heap s' !! p = Some (InteropProxy l dflt) ∧
    get (stackLimit env) (heap s) l "__esModule" = inr marker ∧
    (truthy marker = false → dflt = VObj l) ∧
    (truthy marker = true → get (stackLimit env) (heap s) l "default" = inr dflt).
Proof.
  intros H. apply nodeRequire_inv in H as (path & s1 & raw & h' & Hr & Hq & Hi & ->).
  apply interop_inv in Hi as (l & marker & dflt & -> & -> & -> & Hm & Hd).
  exists path, l, (length (heap s)), marker, dflt.
  rewrite Hr. simpl. repeat split; try done.
  - apply list_lookup_middle. reflexivity.
  - intros Ht. rewrite Ht in Hd. congruence.
  - intros Ht. rewrite Ht in Hd. exact Hd.
Qed.

End Resolver.

(** C5, at the failing input: the package is [module.exports =
    Object.freeze({ default: 7, pad: 1 })], written the old way (no
    [__esModule]).  [nodeRequire] returns a proxy over it whose interop
    default is the package itself; every other key reads the package, but a
    read of "default" through the proxy throws a [TypeError]: the trap of
    line 155 returns the package, the target holds 7 under a read-only,
    non-configurable "default", and the engine refuses the answer. *)
Theorem interop_default_throws_on_frozen_module :
  let s' := (nodeRequire Scenario.env "leftpad" None "/root" Scenario.frozen_start).2 in
  require Scenario.env "/root/node_modules/leftpad" = inr (VObj 0) ∧
  isFrozen (heap Scenario.frozen_start) 0 = true ∧
  get 8 (heap Scenario.frozen_start) 0 "__esModule" = inr VUndef ∧
  get 8 (heap Scenario.frozen_start) 0 "default" = inr (VNum 7) ∧
  (nodeRequire Scenario.env "leftpad" None "/root" Scenario.frozen_start).1 = inr (VObj 2) ∧
  heap s' !! 2 = Some (InteropProxy 0 (VObj 0)) ∧
  get 8 (heap s') 2 "pad" = inr (VNum 1) ∧
  get 8 (heap s') 2 "default"
  = inl (TypeError "'get' on proxy: property 'default' is a read-only and non-configurable data property on the proxy target but the proxy did not return its actual value").
Proof. vm_compute. repeat split; reflexivity. Qed.

(** With the same package not frozen, the read gives the package itself. *)
Lemma interop_default_of_legacy_module :
  let s' := (nodeRequire Scenario.env "leftpad" None "/root" Scenario.start).2 in
  heap s' !! 2 = Some (InteropProxy 0 (VObj 0)) ∧
  get 8 (heap s') 2 "pad" = inr (VNum 1) ∧
  get 8 (heap s') 2 "default" = inr (VObj 0).
Proof. vm_compute. repeat split; reflexivity. Qed.

(** An object module whose marker and default can be read is always wrapped:
    [nodeRequire] fails only where resolution, loading or those reads do. *)
Lemma interop_object d h l marker dflt :
  get d h l "__esModule" = inr marker →
  (if truthy marker then get d h l "default" else inr (VObj l)) = inr dflt →
  interop d h (VObj l) = inr (VObj (length h), h ++ [InteropProxy l dflt]).
Proof. intros Hm Hd. unfold interop. rewrite Hm, Hd. reflexivity. Qed.

(** C6, as section 8 words it, fails: for the legacy package of the scenario
    the proxy's "default" is the package itself, not its [default] property
    (and for the ES package it is the [default] property, not the package). *)
Lemma interop_section8_fails : ¬ Stated.interop_section8.
Proof.
  intros H.
  destruct (H 64 Scenario.pkg_heap 0 VUndef 2
              (Scenario.pkg_heap ++ [InteropProxy 0 (VObj 0)])) as [Hlegacy _];
    [vm_compute; reflexivity | vm_compute; reflexivity |].
  specialize (Hlegacy eq_refl). vm_compute in Hlegacy. discriminate.
Qed.

(** C6, amended.  For a module that is an ordinary object and whose marker
    is readable: without a truthy [__esModule] (legacy convention) the
    namespace's "default" is the module object itself, provided the module
    does not hold another value under a read-only, non-configurable
    "default" of its own; with a truthy [__esModule] (current convention) it
    is the module's own [default] property. *)
Theorem interop_default_by_convention d h l ps ext tag marker :
  h !! l = Some (Plain ps ext tag) →
  get d h l "__esModule" = inr marker →
  (truthy marker = false →
     (∀ p v0, ps !! "default" = Some p → slot p = Data v0 false → configurable p = false →
              v0 = VObj l) →
     interop d h (VObj l) = inr (VObj (length h), h ++ [InteropProxy l (VObj l)]) ∧
     ∀ d', get (S d') (h ++ [InteropProxy l (VObj l)]) (length h) "default" = inr (VObj l)) ∧
  (truthy marker = true →
     ∀ dflt, get d h l "default" = inr dflt →
     interop d h (VObj l) = inr (VObj (length h), h ++ [InteropProxy l dflt]) ∧
     ∀ d', get (S d') (h ++ [InteropProxy l dflt]) (length h) "default" = inr dflt).
Proof.
  intros Hl Hm.
  assert (∀ dflt d',
            (∀ p v0, ps !! "default" = Some p → slot p = Data v0 false →
                     configurable p = false → v0 = dflt) →
            get (S d') (h ++ [InteropProxy l dflt]) (length h) "default" = inr dflt) as Hread.
  { intros dflt d' Hok.
    destruct (get_proxy_plain d' (h ++ [InteropProxy l dflt]) (length h) l dflt ps ext tag)
      as [_ ->].
    - by apply list_lookup_middle.
    - by apply lookup_app_l_Some.
    - unfold proxy_get_invariant. destruct (ps !! "default") as [q|] eqn:Hq; [|done].
      destruct (slot q) as [v0 [|]|src key] eqn:Hs; try done.
      destruct (configurable q) eqn:Hc; [done|].
      rewrite (Hok q v0 eq_refl Hs Hc). by rewrite decide_True. }
  split.
  - intros Ht Hok. split.
    + apply (interop_object _ _ _ marker); [done|]. by rewrite Ht.
    + intros d'. by apply Hread.
  - intros Ht dflt Hd. split.
    + apply (interop_object _ _ _ marker); [done|]. by rewrite Ht.
    + intros d'. apply Hread. intros q v0 Hq Hs _.
      rewrite (get_data _ _ _ _ _ _ _ _ _ _ Hl Hq Hs) in Hd. congruence.
Qed.

Lemma interop_default_by_convention_witness :
  Scenario.pkg_heap !! 0
  = Some (Plain {[ "default" := Scenario.data (VNum 7); "pad" := Scenario.data (VNum 1) ]} true None) ∧
  get 64 Scenario.pkg_heap 0 "__esModule" = inr VUndef ∧
  truthy VUndef = false ∧
  interop 64 Scenario.pkg_heap (VObj 0)
  = inr (VObj (length Scenario.pkg_heap), Scenario.pkg_heap ++ [InteropProxy 0 (VObj 0)]) ∧
  ∀ d', get (S d') (Scenario.pkg_heap ++ [InteropProxy 0 (VObj 0)])
          (length Scenario.pkg_heap) "default" = inr (VObj 0).
Proof.
  split; [reflexivity|]. split; [vm_compute; reflexivity|]. split; [reflexivity|].
  destruct (interop_default_by_convention 64 Scenario.pkg_heap 0
              {[ "default" := Scenario.data (VNum 7); "pad" := Scenario.data (VNum 1) ]}
              true None VUndef) as [Hlegacy _].
  - reflexivity.
  - vm_compute. reflexivity.
  - apply Hlegacy; [reflexivity|].
    intros p v0 Hp Hs. vm_compute in Hp. injection Hp as <-. discriminate Hs.
Defined.

(** The package compiled from an ES module: the proxy's "default" is the
    package's own [default]. *)
Lemma interop_default_of_es_module :
  interop 64 Scenario.pkg_heap (VObj 1)
  = inr (VObj 2, Scenario.pkg_heap ++ [InteropProxy 1 (VNum 42)]) ∧
  get 8 (Scenario.pkg_heap ++ [InteropProxy 1 (VNum 42)]) 2 "default" = inr (VNum 42) ∧
  get 8 (Scenario.pkg_heap ++ [InteropProxy 1 (VNum 42)]) 2 "named" = inr (VNum 2).
Proof. vm_compute. repeat split; reflexivity. Qed.

(** *** The resolution cache *)

Section Cache.
Context (env : Env).

(** A resolution that succeeded is remembered: asking again gives the same
    path and changes nothing, so [resolveFrom] is not called again. *)
Lemma resolve_memo id importer rt s path s1 :
  resolve env id importer rt s = (inr path, s1) →
  str_truthy path = true →
  resolve env id importer rt s1 = (inr path, s1).
Proof.
  unfold resolve. intros H Hp.
  destruct (resolveCache s !! cache_key id importer rt) as [cached|] eqn:Hc.
  - destruct (str_truthy cached) eqn:Ht.
    + injection H as <- <-. by rewrite Hc, Ht.
    + unfold resolve_search in H.
      destruct (resolveFrom env id (resolveDir_of env importer rt)); [discriminate|].
      injection H as <- <-. simpl. by rewrite lookup_insert_eq, Hp.
  - unfold resolve_search in H.
    destruct (resolveFrom env id (resolveDir_of env importer rt)); [discriminate|].
    injection H as <- <-. simpl. by rewrite lookup_insert_eq, Hp.
Qed.

(** The key is the plain concatenation, so triples that concatenate to the
    same string share an entry. *)
Lemma cache_key_collision :
  cache_key "lodash" (Some "/fp/x.js") "/root" = cache_key "lodash/fp" (Some "/x.js") "/root".
Proof. reflexivity. Qed.

End Cache.

(** C8, at the failing input: after ["lodash"] was resolved for the importer
    [/fp/x.js], resolving ["lodash/fp"] for the importer [/x.js] answers with
    the path of ["lodash"] out of the cache, without a search, although its
    own search would find another path. *)
Theorem resolve_returns_other_triple :
  let s1 := (resolve Scenario.env "lodash" (Some "/fp/x.js") "/root" Scenario.start).2 in
  (resolve Scenario.env "lodash" (Some "/fp/x.js") "/root" Scenario.start).1
    = inr "/root/node_modules/lodash" ∧
  resolve Scenario.env "lodash/fp" (Some "/x.js") "/root" s1
    = (inr "/root/node_modules/lodash", s1) ∧
  resolveFrom Scenario.env "lodash/fp" (resolveDir_of Scenario.env (Some "/x.js") "/root")
    = inr "/root/node_modules/lodash/fp".
Proof. vm_compute. repeat split; reflexivity. Qed.

Lemma cache_keyed_by_triple_fails : ¬ Stated.cache_keyed_by_triple.
Proof.
  intros H.
  specialize (H Scenario.env "lodash" (Some "/fp/x.js") "/root" "lodash/fp" (Some "/x.js") "/root"
                Scenario.start "/root/node_modules/lodash"
                (resolve Scenario.env "lodash" (Some "/fp/x.js") "/root" Scenario.start).2).
  vm_compute in H. specialize (H ltac:(discriminate) eq_refl eq_refl). discriminate.
Qed.

(** *** Export-all *)

Lemma for_in_keys_plain h l ps ext tag key :
  h !! l = Some (Plain ps ext tag) →
  key ∈ for_in_keys h (VObj l) ↔ ∃ p, ps !! key = Some p ∧ enumerable p = true.
Proof.
  intros Hl. unfold for_in_keys.
  assert (keys_of (length h) h l = enumerable_props ps) as ->.
  { destruct (length h); simpl; by rewrite Hl. }
  unfold enumerable_props. rewrite list_elem_of_fmap. split.
  - intros [[k p] [-> Hin]]. apply elem_of_map_to_list in Hin.
    apply map_lookup_filter_Some in Hin as [Hk He]. eauto.
  - intros (p & Hk & He). exists (key, p). split; [done|].
    apply elem_of_map_to_list. by apply map_lookup_filter_Some.
Qed.

Section ExportAll.
Context (env : Env).

Lemma defineProperty_inr o key desc o' :
  defineProperty o key desc = inr o' →
  ∃ ps ext tag, o = Plain ps ext tag ∧ o' = Plain (<[key := desc]> ps) ext tag.
Proof.
  destruct o as [ps ext tag|]; simpl; [|discriminate].
  destruct (ps !! key) as [p|].
  - destruct (configurable p); [|discriminate]. intros [= <-]. eauto.
  - destruct ext; [|discriminate]. intros [= <-]. eauto.
Qed.

Lemma export_keys_keeps keys : ∀ h cur src h' key,
  export_keys h cur src keys = (None, h') →
  bound_to h cur key src → bound_to h' cur key src.
Proof.
  induction keys as [|k keys IH]; intros h cur src h' key; simpl.
  - by intros [= <-].
  - destruct (decide (k = "default")); [by apply IH|].
    intros H (ps & ext & tag & Hcur & Hkey). rewrite Hcur in H.
    destruct (defineProperty (Plain ps ext tag) k (live_accessor src k)) as [e|o'] eqn:Hd;
      [discriminate|].
    apply defineProperty_inr in Hd as (ps' & ext' & tag' & [= <- <- <-] & ->).
    eapply IH; [exact H|].
    exists (<[k := live_accessor src k]> ps), ext, tag. split.
    + apply list_lookup_insert_eq. by eapply lookup_lt_Some.
    + destruct (decide (k = key)) as [->|Hne].
      * by rewrite lookup_insert_eq.
      * by rewrite lookup_insert_ne.
Qed.

Lemma export_keys_binds keys : ∀ h cur src h' key,
  export_keys h cur src keys = (None, h') →
  key ∈ keys → key ≠ "default" → bound_to h' cur key src.
Proof.
  induction keys as [|k keys IH]; intros h cur src h' key; simpl.
  - intros _ Hin. by apply elem_of_nil in Hin.
  - intros H Hin Hne. destruct (decide (k = "default")) as [->|Hk].
    + apply elem_of_cons in Hin as [->|Hin]; [done|]. by eapply IH.
    + destruct (h !! cur) as [o|] eqn:Hcur; [|discriminate].
      destruct (defineProperty o k (live_accessor src k)) as [e|o'] eqn:Hd; [discriminate|].
      apply defineProperty_inr in Hd as (ps & ext & tag & -> & ->).
      apply elem_of_cons in Hin as [->|Hin]; [|by eapply IH].
      eapply export_keys_keeps; [exact H|].
      exists (<[k := live_accessor src k]> ps), ext, tag. split.
      * apply list_lookup_insert_eq. by eapply lookup_lt_Some.
      * by rewrite lookup_insert_eq.
Qed.

(** When [ssrExportAll(sourceModule)] has run to its end, every key that
    [for ... in] enumerates on the source, "default" apart, is on the current
    namespace as an enumerable accessor onto the source; and in any later
    heap where the namespace still carries that accessor (frozen or not),
    reading the key on the namespace is reading it on the source in that
    heap, one frame deeper: no value was copied. *)
Lemma ssrExportAll_live_binding h cur sourceModule h' key :
  ssrExportAll h cur sourceModule = (None, h') →
  key ∈ for_in_keys h sourceModule → key ≠ "default" →
  ∃ src, sourceModule = VObj src ∧
    bound_to h' cur key src ∧
    ∀ h'' ps ext tag p d,
      h'' !! cur = Some (Plain ps ext tag) → ps !! key = Some p → slot p = Getter src key →
      get (S d) h'' cur key = get d h'' src key.
Proof.
  intros H Hin Hne. destruct sourceModule as [| | | |src]; try by apply elem_of_nil in Hin.
  exists src. split; [done|]. split.
  - by eapply export_keys_binds.
  - intros h'' ps ext tag p d Hcur Hkey Hslot. by eapply get_getter.
Qed.

End ExportAll.

(** Live binding on an example: [cur] re-exports [x] of [src]; [src.x]
    is assigned afterwards, the namespace is frozen, and [cur.x] reads the
    new value. *)
Lemma export_all_example :
  let h := [Plain {[ "x" := Scenario.data (VNum 1); "default" := Scenario.data (VNum 0) ]} true None;
            Loader.new_ssrModule] in
  ∃ h1, ssrExportAll h 1 (VObj 0) = (None, h1) ∧
    get 8 h1 1 "x" = inr (VNum 1) ∧
    get 8 h1 1 "default" = inr VUndef ∧
    get 8 (freeze (update h1 0 (λ o, assign o "x" (VNum 2))) 1) 1 "x" = inr (VNum 2).
Proof. eexists. split; [vm_compute; reflexivity|]. vm_compute. done. Qed.

Lemma ssrExportAll_live_binding_witness :
  let h := [Plain {[ "x" := Scenario.data (VNum 1) ]} true None; Loader.new_ssrModule] in
  ∃ h', ssrExportAll h 1 (VObj 0) = (None, h') ∧
    "x" ∈ for_in_keys h (VObj 0) ∧ "x" ≠ "default" ∧
    ∃ src, VObj 0 = VObj src ∧
      bound_to h' 1 "x" src ∧
      ∀ h'' ps ext tag p d,
        h'' !! 1 = Some (Plain ps ext tag) → ps !! "x" = Some p → slot p = Getter src "x" →
        get (S d) h'' 1 "x" = get d h'' src "x".
Proof.
  intros h. eexists. split; [vm_compute; reflexivity|].
  split; [vm_compute; apply list_elem_of_here|].
  split; [discriminate|].
  eapply (ssrExportAll_live_binding h 1 (VObj 0));
    [vm_compute; reflexivity | vm_compute; apply list_elem_of_here | discriminate].
Defined.

(** The source with an enumerable [__esModule] is where [ssrExportAll] does
    not run to its end: the namespace's own flag cannot be redefined. *)
Lemma export_all_esModule_throws :
  let h := [Plain {[ "__esModule" := Scenario.data (VBool true) ]} true None;
            Loader.new_ssrModule] in
  (ssrExportAll h 1 (VObj 0)).1 = Some (TypeError "Cannot redefine property: __esModule").
Proof. vm_compute. reflexivity. Qed.

(** *** The static import of an internal specifier *)

(** C10, as stated, fails on the record that has no namespace yet: the
    record of /c.js exists once [ssrLoadModule] has looked it up, and until
    [instantiateModule] stores a namespace the import of /c.js is [null]. *)
Lemma import_without_namespace_is_null :
  ¬ Stated.import_undefined_without_namespace.
Proof.
  intros H.
  pose (s := load_entry Scenario.env 0 "/c.js" [] (ssrLoadModule Scenario.env "/c.js" Scenario.start)).
  specialize (H Scenario.env s "/c.js" eq_refl).
  assert (ssrImport_internal Scenario.env s "/c.js" = VNull) as Hnull by (vm_compute; reflexivity).
  rewrite H in Hnull; [discriminate|].
  intros mod_. vm_compute. by intros [= <-].
Qed.

(** C10, amended.  For a specifier that is not external, [ssrImport] returns
    at once, without throwing and without touching the state (no activation
    is created, nothing is awaited): it returns the namespace stored in the
    record of the unwrapped specifier, [null] when the record has none yet,
    and [undefined] when there is no record. *)
Theorem ssrImport_internal_total (env : Env) importer dep s :
  isExternal dep = false →
  ssrImport env importer dep s = (inr (ssrImport_internal env s dep), s) ∧
  (∀ url urlStack ns k,
     run_body env url urlStack ns importer (BImport dep k) s
     = run_body env url urlStack ns importer (k (ssrImport_internal env s dep)) s) ∧
  ssrImport_internal env s dep =
    match moduleGraph s !! unwrapId env dep with
    | None => VUndef
    | Some mod_ =>
        match ssrModule mod_ with
        | Some ns => VObj ns
        | None => VNull
        end
    end.
Proof.
  intros Hint. unfold ssrImport. rewrite Hint. split; [done|]. split.
  - intros url urlStack ns k. simpl. unfold ssrImport. by rewrite Hint.
  - unfold ssrImport_internal, ns_val. by repeat case_match.
Qed.

Lemma ssrImport_internal_total_witness :
  isExternal "/c.js" = false ∧
  ssrImport Scenario.env None "/c.js" Scenario.start
    = (inr (ssrImport_internal Scenario.env Scenario.start "/c.js"), Scenario.start) ∧
  (∀ url urlStack ns k,
     run_body Scenario.env url urlStack ns None (BImport "/c.js" k) Scenario.start
     = run_body Scenario.env url urlStack ns None
         (k (ssrImport_internal Scenario.env Scenario.start "/c.js")) Scenario.start) ∧
  ssrImport_internal Scenario.env Scenario.start "/c.js" =
    match moduleGraph Scenario.start !! unwrapId Scenario.env "/c.js" with
    | None => VUndef
    | Some mod_ =>
        match ssrModule mod_ with
        | Some ns => VObj ns
        | None => VNull
        end
    end.
Proof.
  split; [reflexivity|].
  apply (ssrImport_internal_total Scenario.env None "/c.js" Scenario.start). reflexivity.
Defined.

(* ===================================================================== *)
(** *** What a resumption does to the state                               *)
(* ===================================================================== *)

Lemma freeze_property_frozen p : property_frozen (freeze_property p) = true.
Proof. unfold freeze_property, property_frozen. by destruct (slot p). Qed.

Lemma freeze_property_id p : property_frozen p = true → freeze_property p = p.
Proof.
  unfold freeze_property, property_frozen. destruct p as [[v w|src key] e c]; simpl.
  - destruct c, w; simpl; congruence.
  - destruct c; simpl; congruence.
Qed.

Lemma obj_frozen_freeze ps ext tag : obj_frozen (freeze_obj (Plain ps ext tag)) = true.
Proof.
  simpl. apply bool_decide_eq_true. intros k p Hk.
  apply lookup_fmap_Some in Hk as (q & <- & _). apply freeze_property_frozen.
Qed.

Lemma obj_frozen_plain ps ext tag :
  obj_frozen (Plain ps ext tag) = true →
  ext = false ∧ ∀ k p, ps !! k = Some p → property_frozen p = true.
Proof.
  simpl. intros H. apply andb_true_iff in H as [He Hp].
  apply bool_decide_eq_true in Hp. split; [by destruct ext|]. exact Hp.
Qed.

(** Once frozen, an object is not changed by anything the loader or a body
    does to it. *)
Lemma assign_frozen o k v : obj_frozen o = true → assign o k v = o.
Proof.
  destruct o as [ps ext tag|]; [|done]. intros H.
  apply obj_frozen_plain in H as [-> Hp]. simpl.
  destruct (ps !! k) as [p|] eqn:Hk; [|done].
  specialize (Hp _ _ Hk). unfold property_frozen in Hp.
  destruct (slot p) as [v' [|]|]; try done.
  by rewrite andb_false_r in Hp.
Qed.

Lemma defineProperty_frozen o k desc : obj_frozen o = true → ∃ e, defineProperty o k desc = inl e.
Proof.
  destruct o as [ps ext tag|]; [|by eexists]. intros H.
  apply obj_frozen_plain in H as [-> Hp]. simpl.
  destruct (ps !! k) as [p|] eqn:Hk; [|by eexists].
  specialize (Hp _ _ Hk). unfold property_frozen in Hp.
  destruct (configurable p); [done|by eexists].
Qed.

Lemma freeze_obj_frozen o : obj_frozen o = true → freeze_obj o = o.
Proof.
  destruct o as [ps ext tag|]; [|done]. intros H.
  apply obj_frozen_plain in H as [-> Hp]. simpl. f_equal.
  apply map_eq. intros k. rewrite lookup_fmap.
  destruct (ps !! k) as [p|] eqn:Hk; simpl; [|done].
  f_equal. apply freeze_property_id. by eapply Hp.
Qed.

Section BodyEffect.
Context (env : Env).

Lemma heap_evolves_refl ns h : heap_evolves ns h h.
Proof. repeat split; eauto. Qed.

Lemma heap_evolves_trans ns h h1 h2 :
  heap_evolves ns h h1 → heap_evolves ns h1 h2 → heap_evolves ns h h2.
Proof.
  intros (Hl1 & Ho1 & Hn1 & Hf1) (Hl2 & Ho2 & Hn2 & Hf2). repeat split.
  - lia.
  - intros l Hl Hne. rewrite Ho2, Ho1; [done..|lia|done].
  - intros ps tag Hns. destruct (Hn1 _ _ Hns) as [ps' Hns']. eauto.
  - eauto.
Qed.

Lemma heap_evolves_alloc ns h o : heap_evolves ns h (h ++ [o]).
Proof.
  repeat split.
  - rewrite length_app. lia.
  - intros l Hl _. by apply lookup_app_l.
  - intros ps tag Hns. exists ps. rewrite lookup_app_l; [done|]. by eapply lookup_lt_Some.
  - intros l o' Hl _. rewrite lookup_app_l; [done|]. by eapply lookup_lt_Some.
Qed.

Lemma assign_plain ps ext tag k v : ∃ ps', assign (Plain ps ext tag) k v = Plain ps' ext tag.
Proof. simpl. repeat case_match; eauto. Qed.

Lemma heap_evolves_put ns h o o' :
  h !! ns = Some o →
  (obj_frozen o = true → o' = o) →
  (∀ ps tag, o = Plain ps true tag → ∃ ps', o' = Plain ps' true tag) →
  heap_evolves ns h (<[ns := o']> h).
Proof.
  intros Hns Hfrozen Hplain. pose proof (lookup_lt_Some _ _ _ Hns) as Hlt. repeat split.
  - by rewrite length_insert.
  - intros l _ Hne. by rewrite list_lookup_insert_ne.
  - intros ps tag Hps. rewrite Hns in Hps. injection Hps as ->.
    destruct (Hplain _ _ eq_refl) as [ps' ->]. exists ps'. by apply list_lookup_insert_eq.
  - intros l o0 Hl Hf. destruct (decide (l = ns)) as [Heq|Hne].
    + subst l. rewrite Hns in Hl. injection Hl as ->. rewrite Hfrozen; [|done].
      by apply list_lookup_insert_eq.
    + by rewrite list_lookup_insert_ne.
Qed.

Lemma heap_evolves_assign ns h k v :
  heap_evolves ns h (update h ns (λ o, assign o k v)).
Proof.
  unfold update. destruct (h !! ns) as [o|] eqn:Hns; [|apply heap_evolves_refl].
  apply (heap_evolves_put ns h o); [done|by apply assign_frozen|].
  intros ps tag ->. apply assign_plain.
Qed.

Lemma export_keys_evolves keys : ∀ h ns src e h',
  export_keys h ns src keys = (e, h') → heap_evolves ns h h'.
Proof.
  induction keys as [|k keys IH]; intros h ns src e h'; simpl.
  - intros [= _ <-]. apply heap_evolves_refl.
  - destruct (decide (k = "default")); [by apply IH|].
    destruct (h !! ns) as [o|] eqn:Hns; [|intros [= _ <-]; apply heap_evolves_refl].
    destruct (defineProperty o k (live_accessor src k)) as [e'|o'] eqn:Hd;
      [intros [= _ <-]; apply heap_evolves_refl|].
    intros H. eapply heap_evolves_trans; [|by eapply IH].
    apply (heap_evolves_put ns h o); [done| |].
    + intros Hf. destruct (defineProperty_frozen o k (live_accessor src k) Hf). congruence.
    + intros ps tag ->. apply defineProperty_inr in Hd as (ps0 & ext0 & tag0 & [= <- <- <-] & ->).
      eauto.
Qed.

Lemma ssrExportAll_evolves h ns src e h' :
  ssrExportAll h ns src = (e, h') → heap_evolves ns h h'.
Proof.
  destruct src; simpl; try (intros [= _ <-]; apply heap_evolves_refl).
  apply export_keys_evolves.
Qed.

Lemma body_effect_refl url urlStack ns s : body_effect url urlStack ns s s.
Proof.
  split; try done.
  - exists []. by rewrite app_nil_r.
  - by exists [].
  - apply heap_evolves_refl.
Qed.

Lemma body_effect_trans url urlStack ns s s1 s2 :
  body_effect url urlStack ns s s1 → body_effect url urlStack ns s1 s2 →
  body_effect url urlStack ns s s2.
Proof.
  intros [Hg1 Hp1 (n1 & Ht1 & Hn1) (e1 & He1 & Hr1) Hh1] [Hg2 Hp2 (n2 & Ht2 & Hn2) (e2 & He2 & Hr2) Hh2].
  split.
  - congruence.
  - congruence.
  - exists (n1 ++ n2). rewrite Ht2, Ht1, app_assoc. split; [done|]. by apply Forall_app.
  - exists (e2 ++ e1). rewrite He2, He1, app_assoc. split; [done|]. by apply Forall_app.
  - by eapply heap_evolves_trans.
Qed.

Lemma body_effect_heap url urlStack ns s h' :
  heap_evolves ns (heap s) h' → body_effect url urlStack ns s (with_heap s h').
Proof.
  intros H. split; simpl; try done.
  - exists []. by rewrite app_nil_r.
  - by exists [].
Qed.

Lemma body_effect_spawn url urlStack ns s dep :
  body_effect url urlStack ns s (spawn (LoadEntry dep (urlStack ++ [url])) s).
Proof.
  split; simpl; try done.
  - eexists. split; [done|]. apply Forall_singleton. by eexists.
  - by exists [].
  - apply heap_evolves_refl.
Qed.

Lemma resolve_effect url urlStack ns id importer rt s r s1 :
  resolve env id importer rt s = (r, s1) → body_effect url urlStack ns s s1.
Proof.
  assert (∀ r s1, resolve_search env id importer rt s = (r, s1) →
                  body_effect url urlStack ns s s1) as Hsearch.
  { clear. intros r s1. unfold resolve_search.
    destruct (resolveFrom env id (resolveDir_of env importer rt)); intros [= _ <-];
      (split; simpl; try done;
       [exists []; by rewrite app_nil_r
       |eexists [_]; split; [done|]; apply Forall_singleton; by eexists _, _
       |apply heap_evolves_refl]). }
  unfold resolve.
  destruct (resolveCache s !! cache_key id importer rt) as [cached|]; [|by apply Hsearch].
  destruct (str_truthy cached); [|by apply Hsearch].
  intros [= _ <-]. apply body_effect_refl.
Qed.

Lemma interop_evolves ns d h raw v h' :
  interop d h raw = inr (v, h') → heap_evolves ns h h'.
Proof.
  intros H. apply interop_inv in H as (l & marker & dflt & _ & _ & -> & _).
  apply heap_evolves_alloc.
Qed.

Lemma nodeRequire_effect url urlStack ns id importer rt s r s1 :
  nodeRequire env id importer rt s = (r, s1) → body_effect url urlStack ns s s1.
Proof.
  unfold nodeRequire.
  destruct (resolve env id importer rt s) as [[e|path] s0] eqn:Hr;
    [intros [= _ <-]; by eapply resolve_effect|].
  pose proof (resolve_effect url urlStack ns _ _ _ _ _ _ Hr) as Heff.
  destruct (require env path) as [e|raw]; [by intros [= _ <-]|].
  destruct (interop (stackLimit env) (heap s0) raw) as [e|[v h']] eqn:Hi;
    [by intros [= _ <-]|].
  intros [= _ <-]. eapply body_effect_trans; [exact Heff|].
  apply body_effect_heap. by eapply interop_evolves.
Qed.

(** The run of a body stays within [body_effect]. *)
Lemma run_body_effect url urlStack ns importer b : ∀ s e s1,
  run_body env url urlStack ns importer b s = (e, s1) → body_effect url urlStack ns s s1.
Proof.
  induction b as [|e0|key v k IH|dep k IH|dep k IH|src k IH|b IHb handler IHh k IHk];
    intros s e s1; simpl.
  - intros [= _ <-]. apply body_effect_refl.
  - intros [= _ <-]. apply body_effect_refl.
  - intros H. eapply body_effect_trans; [|by eapply IH].
    apply body_effect_heap, heap_evolves_assign.
  - unfold ssrImport. destruct (isExternal dep).
    + destruct (nodeRequire env dep importer (root env) s) as [[e'|v] s0] eqn:Hn.
      * intros [= _ <-]. by eapply nodeRequire_effect.
      * intros H. eapply body_effect_trans; [by eapply nodeRequire_effect|by eapply IH].
    + by apply IH.
  - unfold ssrDynamicImport. destruct (isExternal dep).
    + destruct (nodeRequire env dep importer (root env) s) as [[e'|v] s0] eqn:Hn.
      * intros [= _ <-]. by eapply nodeRequire_effect.
      * intros H. eapply body_effect_trans; [by eapply nodeRequire_effect|by eapply IH].
    + intros H. eapply body_effect_trans; [apply body_effect_spawn|by eapply IH].
  - destruct (ssrExportAll (heap s) ns src) as [[e'|] h1] eqn:Hx.
    + intros [= _ <-]. apply body_effect_heap. by eapply ssrExportAll_evolves.
    + intros H. eapply body_effect_trans; [|by eapply IH].
      apply body_effect_heap. by eapply ssrExportAll_evolves.
  - destruct (run_body env url urlStack ns importer b s) as [[t|] s0] eqn:Hb.
    + destruct (run_body env url urlStack ns importer (handler t) s0) as [[t'|] s2] eqn:Hh.
      * intros [= _ <-]. eapply body_effect_trans; [by eapply IHb|by eapply IHh].
      * intros H. eapply body_effect_trans; [by eapply IHb|].
        eapply body_effect_trans; [by eapply IHh|by eapply IHk].
    + intros H. eapply body_effect_trans; [by eapply IHb|by eapply IHk].
Qed.

End BodyEffect.

Section StepEffect.
Context (env : Env).

Lemma loop_out_skip i url urlStack ns r sm dep rest s' :
  isExternal dep = true →
  loop_out env i url urlStack ns r sm rest s' →
  loop_out env i url urlStack ns r sm (dep :: rest) s'.
Proof.
  intros Hext [ext d rest' -> Hexts Hd Hg Hh Hp Ht Hts|h1 new evs Hexts Hh1 Hnew Hevs Hg Hh Hp Ht Hts
               |h1 new evs e Hexts Hh1 Hnew Hevs Hg Hh Hp Ht Hts
               |h1 new evs e Hexts Hh1 Hnew Hevs Hg Hh Hp Ht Hts].
  - eapply lo_suspend with (ext := dep :: ext) (dep := d) (rest' := rest'); try done.
    by apply Forall_cons.
  - eapply lo_return; try done. by apply Forall_cons.
  - eapply lo_throw; try done. by apply Forall_cons.
  - eapply lo_raise; try done. by apply Forall_cons.
Qed.

Lemma execute_out i url urlStack ns r sm :
  i < length (tasks sm) →
  loop_out env i url urlStack ns r sm [] (execute env i url urlStack ns r sm).
Proof.
  intros Hi. unfold execute.
  destruct (run_body env url urlStack ns _ (code r) (emit (EvExec url i) sm)) as [[e|] s1] eqn:Hrun;
    apply run_body_effect in Hrun as [Hg Hp (new & Hts & Hnew) (evs & Ht & Hevs) Hh];
    simpl in *.
  - destruct (rewrite_or_throw env e) as [e134|e'].
    + eapply lo_raise with (h1 := heap s1) (new := new) (evs := evs); simpl; try done.
      rewrite Hts. by apply insert_app_l.
    + eapply lo_throw with (h1 := heap s1) (new := new) (evs := evs); simpl; try done.
      * by rewrite Ht.
      * rewrite Hts. by apply insert_app_l.
  - eapply lo_return with (h1 := heap s1) (new := new) (evs := evs); simpl; try done.
    rewrite Hts. by apply insert_app_l.
Qed.

Lemma inst_deps_out i url urlStack ns r rest : ∀ sm,
  i < length (tasks sm) →
  loop_out env i url urlStack ns r sm rest (inst_deps env i url urlStack ns r rest sm).
Proof.
  induction rest as [|dep rest IH]; intros sm Hi; simpl.
  - by apply execute_out.
  - destruct (isExternal dep) eqn:Hext.
    + apply loop_out_skip; [done|]. by apply IH.
    + eapply lo_suspend with (ext := []) (dep := dep) (rest' := rest); simpl; try done.
      by rewrite insert_app_l.
Qed.

Lemma ensureEntryFromUrl_spec url s :
  ensureEntryFromUrl env url s
  = (record_of env url (moduleGraph s), with_graph s (ensured env url (moduleGraph s))).
Proof.
  unfold ensureEntryFromUrl, record_of, ensured.
  destruct (moduleGraph s !! url); [|done]. by destruct s.
Qed.

Lemma insert_ensured url node (g : gmap string ModuleNode) :
  <[url := node]> (ensured env url g) = <[url := node]> g.
Proof.
  unfold ensured. destruct (g !! url); [done|]. apply insert_insert_eq.
Qed.

Lemma step_length s i s' : step env s i = Some s' → i < length (tasks s).
Proof.
  unfold step. destruct (tasks s !! i) eqn:Hi; [|done]. intros _. by eapply lookup_lt_Some.
Qed.

(** Every resumption is one of the moves of [trans]. *)
Lemma step_trans s i s' : step env s i = Some s' → trans env s i s'.
Proof.
  intros Hstep. pose proof (step_length _ _ _ Hstep) as Hlt. revert Hstep. unfold step.
  destruct (tasks s !! i) as [[url st|url v|url p|url st|url st ns|url st ns r rest t|url o|url p|b]|]
    eqn:Hi; try done.
  - (* ssrLoadModule *)
    intros [= <-]. unfold load_entry. rewrite ensureEntryFromUrl_spec.
    case_bool_decide as Hin; [by eapply tr_cycle|].
    simpl. destruct (pendingModules s !! url) as [p|] eqn:Hp; [by eapply tr_join|].
    eapply tr_start; simpl; try done.
    rewrite <- app_assoc. simpl. by rewrite insert_app_l.
  - (* instantiateModule, entry *)
    intros [= <-]. unfold instantiate_entry. rewrite ensureEntryFromUrl_spec. simpl.
    destruct (complete_namespace (heap s) (record_of env url (moduleGraph s))) as [ns|] eqn:Hc;
      [by eapply tr_reuse|].
    destruct (ssrTransformResult (record_of env url (moduleGraph s))) as [r|] eqn:Hr.
    + eapply tr_begin_cached; try done. simpl.
      rewrite insert_ensured.
      replace (with_graph _ _) with (entered env url s); [by apply inst_deps_out|].
      unfold entered. by rewrite Hr.
    + eapply tr_begin; simpl; try done. by rewrite insert_ensured, Hr.
  - (* instantiateModule, after the transform *)
    intros [= <-]. unfold instantiate_transformed.
    destruct (transformRequest env url) as [e|[r|]] eqn:Ht; simpl.
    + eapply tr_transform_rejected; eauto.
    + eapply tr_transformed; try done. by apply inst_deps_out.
    + eapply tr_transform_rejected; eauto.
  - (* instantiateModule, after a dependency *)
    unfold instantiate_resumed. destruct (outcome s t) as [[v|e]|] eqn:Ho; [| |done].
    + intros [= <-]. eapply tr_dep_fulfilled; try done. by apply inst_deps_out.
    + intros [= <-]. by eapply tr_dep_rejected.
  - (* the clean-up *)
    unfold cleanup. destruct (settled s p) as [o|] eqn:Ho; [|done].
    intros [= <-]. by eapply tr_cleanup.
Qed.

End StepEffect.

(* ===================================================================== *)
(** *** The invariants are kept                                           *)
(* ===================================================================== *)

(** Case analysis on where an activation is looked up in an updated pool. *)
Ltac look :=
  repeat match goal with
  | H : (_ ++ _) !! _ = Some _ |- _ =>
      apply lookup_app_Some in H as [H|[? H]]
  | H : (<[_ := _]> _) !! _ = Some _ |- _ =>
      apply list_lookup_insert_Some in H as [(? & ? & ?)|[? H]]
  | H : [_] !! _ = Some _ |- _ => apply list_lookup_singleton_Some in H as [? ?]
  | H : [] !! _ = Some _ |- _ => by rewrite lookup_nil in H
  end; simplify_eq/=.

Lemma lookup_keep {A} (l : list A) i x j y :
  l !! j = Some y → i ≠ j → <[i := x]> l !! j = Some y.
Proof. intros. by rewrite list_lookup_insert_ne. Qed.

Lemma lookup_self {A} (l : list A) i x y :
  l !! i = Some y → <[i := x]> l !! i = Some x.
Proof. intros H. apply list_lookup_insert_eq. by eapply lookup_lt_Some. Qed.

Lemma instance_not_load u t : instance_of u t → ¬ is_load_entry t.
Proof. intros Hi (d & st & ->). by destruct Hi as [H|[o H]]. Qed.

Lemma A_spawn pm ts new :
  InvA pm ts → Forall is_load_entry new → InvA pm (ts ++ new).
Proof.
  intros [Hf Hc Hu Hp Hr] Hnew.
  assert (∀ j t, new !! j = Some t → is_load_entry t) as Hn.
  { intros j t Hj. eapply Forall_lookup_1 in Hnew; eauto. }
  split.
  - intros p t u H Hi. look; [eauto|]. apply Hn in H as (? & ? & ->). done.
  - intros c u p H. look; [eauto|]. apply Hn in H as (? & ? & ?). done.
  - intros c c' u p p' H H'. look; eauto;
      repeat match goal with H : new !! _ = Some _ |- _ => apply Hn in H as (? & ? & ?) end; done.
  - intros u p H. destruct (Hp _ _ H) as [[c Hc'] (t & Ht & Hi)]. split.
    + exists c. by apply lookup_app_l_Some.
    + exists t. split; [by apply lookup_app_l_Some|done].
  - intros i u p H. look.
    + destruct (Hr _ _ _ H) as (t & Ht & Hi). exists t. split; [by apply lookup_app_l_Some|done].
    + apply Hn in H as (? & ? & ?). done.
Qed.


Lemma A_inst pm ts i t t' u :
  InvA pm ts → ts !! i = Some t → inst_url t = Some u → instance_of u t' →
  InvA pm (<[i := t']> ts).
Proof.
  intros [Hf Hc Hu Hp Hr] Hi Hturl Ht'. pose proof (lookup_lt_Some _ _ _ Hi) as Hlt.
  assert (∀ j x, ts !! j = Some x → instance_of u x ∨ j ≠ i →
            ∃ x', <[i := t']> ts !! j = Some x' ∧ (instance_of u x → instance_of u x') ∧ (j ≠ i → x' = x))
    as Hkeep.
  { intros j x Hj Hor. destruct (decide (j = i)) as [->|Hne].
    - exists t'. rewrite list_lookup_insert_eq; [|done]. split; [done|]. split; [done|]. done.
    - exists x. rewrite list_lookup_insert_ne; [|done]. done. }
  split.
  - intros p x u' H Hx. look.
    + destruct Ht' as [Ht'|[o ->]]; [|done]. rewrite Hx in Ht'. simplify_eq. eauto.
    + eauto.
  - intros c u' p H. look; [|eauto]. by destruct Ht' as [?|[o ?]].
  - intros c c' u' p p' H H'. look; eauto; by destruct Ht' as [?|[o ?]].
  - intros u' p H. destruct (Hp _ _ H) as [[c Hc'] (x & Hx & Hix)]. split.
    + exists c. rewrite list_lookup_insert_ne; [done|]. intros ->. rewrite Hi in Hc'. by simplify_eq.
    + destruct (decide (p = i)) as [->|Hne].
      * exists t'. rewrite list_lookup_insert_eq; [|done]. split; [done|].
        rewrite Hi in Hx. simplify_eq. pose proof (Hf _ _ _ Hi Hturl) as Hpm.
        destruct Hix as [Hix|[o ->]]; [|done]. rewrite Hturl in Hix. by simplify_eq.
      * exists x. by rewrite list_lookup_insert_ne.
  - intros j u' p H. look; [by destruct Ht' as [?|[o ?]]|].
    destruct (Hr _ _ _ H) as (x & Hx & Hix).
    destruct (decide (p = i)) as [->|Hne].
    + exists t'. rewrite list_lookup_insert_eq; [|done]. split; [done|].
      rewrite Hi in Hx. simplify_eq.
      destruct Hix as [Hix|[o ->]]; [|done]. rewrite Hturl in Hix. by simplify_eq.
    + exists x. by rewrite list_lookup_insert_ne.
Qed.

(** Replacing a load that was waiting by something that is neither an
    instantiation nor a clean-up. *)
Lemma A_inert pm ts i u st t' :
  InvA pm ts → ts !! i = Some (LoadEntry u st) →
  inst_url t' = None → (∀ u' p, t' ≠ Cleanup u' p) →
  (∀ u' p, t' = LoadReturn u' p → ∃ t, ts !! p = Some t ∧ instance_of u' t) →
  InvA pm (<[i := t']> ts).
Proof.
  intros [Hf Hc Hu Hp Hr] Hi Hnone Hncl Hret. pose proof (lookup_lt_Some _ _ _ Hi) as Hlt.
  assert (∀ p u' x, ts !! p = Some x → instance_of u' x → <[i := t']> ts !! p = Some x) as Hkeep.
  { intros p u' x Hx Hix. rewrite list_lookup_insert_ne; [done|].
    intros ->. rewrite Hi in Hx. simplify_eq. by destruct Hix as [?|[? ?]]. }
  split.
  - intros p x u' H Hx. look; eauto.
  - intros c u' p H. look; try (by edestruct Hncl); eauto.
  - intros c c' u' p p' H H'. look; try (by edestruct Hncl); eauto.
  - intros u' p H. destruct (Hp _ _ H) as [[c Hc'] (x & Hx & Hix)]. split.
    + exists c. rewrite list_lookup_insert_ne; [done|]. intros ->. rewrite Hi in Hc'. by simplify_eq.
    + eauto.
  - intros j u' p H. look.
    + destruct (Hret _ _ eq_refl) as (x & Hx & Hix). eauto.
    + destruct (Hr _ _ _ H) as (x & Hx & Hix). eauto.
Qed.

Lemma A_cleanup pm ts i u p b :
  InvA pm ts → ts !! i = Some (Cleanup u p) →
  (∀ t, ts !! p = Some t → inst_url t = None) →
  InvA (delete u pm) (<[i := CleanupDone b]> ts).
Proof.
  intros [Hf Hc Hu Hp Hr] Hi Hsettled. pose proof (lookup_lt_Some _ _ _ Hi) as Hlt.
  assert (∀ q u' x, ts !! q = Some x → instance_of u' x →
            <[i := CleanupDone b]> ts !! q = Some x) as Hkeep.
  { intros q u' x Hx Hix. rewrite list_lookup_insert_ne; [done|].
    intros ->. rewrite Hi in Hx. simplify_eq. by destruct Hix as [?|[? ?]]. }
  pose proof (Hc _ _ _ Hi) as Hpu.
  split.
  - intros q x u' H Hx. look. rewrite lookup_delete_ne; [eauto|].
    intros ->. pose proof (Hf _ _ _ H Hx) as Hq. rewrite Hpu in Hq. simplify_eq.
    rewrite (Hsettled _ H) in Hx. done.
  - intros c u' q H. look. rewrite lookup_delete_ne; [eauto|].
    intros ->. pose proof (Hu _ _ _ _ _ H Hi). done.
  - intros c c' u' q q' H H'. look. eauto.
  - intros u' q H. apply lookup_delete_Some in H as [Hne H].
    destruct (Hp _ _ H) as [[c Hc'] (x & Hx & Hix)]. split; [|eauto].
    exists c. rewrite list_lookup_insert_ne; [done|]. intros ->. rewrite Hi in Hc'. by simplify_eq.
  - intros j u' q H. look. destruct (Hr _ _ _ H) as (x & Hx & Hix). eauto.
Qed.

Lemma A_start pm ts i u st :
  InvA pm ts → ts !! i = Some (LoadEntry u st) → pm !! u = None →
  InvA (<[u := length ts]> pm)
       (<[i := LoadReturn u (length ts)]> ts ++ [InstEntry u st; Cleanup u (length ts)]).
Proof.
  intros [Hf Hc Hu Hp Hr] Hi Hnone. pose proof (lookup_lt_Some _ _ _ Hi) as Hlt.
  set (ts' := <[i := LoadReturn u (length ts)]> ts ++ [InstEntry u st; Cleanup u (length ts)]).
  assert (length (<[i := LoadReturn u (length ts)]> ts) = length ts) as Hlen
    by apply length_insert.
  assert (ts' !! length ts = Some (InstEntry u st)) as Hnew.
  { unfold ts'. rewrite lookup_app_r; rewrite Hlen; [|done]. by rewrite Nat.sub_diag. }
  assert (ts' !! S (length ts) = Some (Cleanup u (length ts))) as Hnewc.
  { unfold ts'. rewrite lookup_app_r; rewrite Hlen; [|lia].
    by replace (S (length ts) - length ts) with 1 by lia. }
  assert (∀ q u' x, ts !! q = Some x → instance_of u' x → ts' !! q = Some x) as Hkeep.
  { intros q u' x Hx Hix. unfold ts'. apply lookup_app_l_Some.
    rewrite list_lookup_insert_ne; [done|].
    intros ->. rewrite Hi in Hx. simplify_eq. by destruct Hix as [?|[? ?]]. }
  assert (∀ c u' q, ts !! c = Some (Cleanup u' q) → ts' !! c = Some (Cleanup u' q)) as Hkeepc.
  { intros c u' q Hx. unfold ts'. apply lookup_app_l_Some.
    rewrite list_lookup_insert_ne; [done|]. intros ->. rewrite Hi in Hx. by simplify_eq. }
  assert (∀ c u' q, ts !! c = Some (Cleanup u' q) → u' ≠ u) as Hother.
  { intros c u' q Hx ->. apply Hc in Hx. congruence. }
  split.
  - intros q x u' H Hx. unfold ts' in H. rewrite lookup_app_Some in H.
    destruct H as [H|[Hge H]].
    + look. rewrite lookup_insert_ne; [eauto|]. intros <-.
      pose proof (Hf _ _ _ H Hx). congruence.
    + rewrite Hlen in *. destruct (q - length ts) as [|[|k]] eqn:Hk; simplify_eq/=.
      replace q with (length ts) by lia. by rewrite lookup_insert_eq.
  - intros c u' q H. unfold ts' in H. rewrite lookup_app_Some in H.
    destruct H as [H|[Hge H]].
    + look. rewrite lookup_insert_ne; [eauto|]. intros <-. by eapply Hother.
    + rewrite Hlen in *. destruct (c - length ts) as [|[|k]] eqn:Hk; simplify_eq/=.
      by rewrite lookup_insert_eq.
  - intros c c' u' q q' H H'. unfold ts' in H, H'. rewrite lookup_app_Some in H, H'.
    rewrite Hlen in *.
    destruct H as [H|[Hge H]], H' as [H'|[Hge' H']]; look.
    + eauto.
    + destruct (c' - length ts) as [|[|k]] eqn:Hk; simplify_eq/=. by edestruct Hother.
    + destruct (c - length ts) as [|[|k]] eqn:Hk; simplify_eq/=. by edestruct Hother.
    + destruct (c - length ts) as [|[|k]] eqn:Hk; simplify_eq/=.
      destruct (c' - length ts) as [|[|k']] eqn:Hk'; simplify_eq/=. lia.
  - intros u' q H. apply lookup_insert_Some in H as [[<- <-]|[Hne H]].
    + split; [eauto|]. exists (InstEntry u st). split; [done|]. by left.
    + destruct (Hp _ _ H) as [[c Hc'] (x & Hx & Hix)]. split; eauto.
  - intros j u' q H. unfold ts' in H. rewrite lookup_app_Some in H.
    destruct H as [H|[Hge H]].
    + look.
      * exists (InstEntry u' st). split; [done|]. by left.
      * destruct (Hr _ _ _ H) as (x & Hx & Hix). eauto.
    + rewrite Hlen in *. destruct (j - length ts) as [|[|k]] eqn:Hk; simplify_eq/=.
Qed.

Section Namespaces.
Context (env : Env).

Lemma isFrozen_lookup h h' l : h' !! l = h !! l → isFrozen h' l = isFrozen h l.
Proof. unfold isFrozen. by intros ->. Qed.

Lemma isFrozen_building h ns ps tag : h !! ns = Some (Plain ps true tag) → isFrozen h ns = false.
Proof. unfold isFrozen. by intros ->. Qed.

Lemma task_ok_graph g g' h pm j t :
  (∀ x ns, has_namespace g x ns → has_namespace g' x ns) →
  (∀ x ns, has_namespace g' x ns → has_namespace g x ns) →
  task_ok g h pm j t → task_ok g' h pm j t.
Proof.
  intros H1 H2.
  destruct t as [url st|url [| | | |ns]|url p|url st|url st ns|url st ns r rest k|url [v|e]|url p|b];
    simpl; unfold building, complete, stack_ok, abandoned; try done.
  - intros Hs x Hx. destruct (Hs x Hx) as [ns Hns]. eauto.
  - intros [Hl [Hn|[Hf Hno]]]; (split; [done|]); [left; eauto|right].
    split; [done|]. intros x Hx. eapply Hno; eauto.
  - intros Hs x Hx. destruct (Hs x Hx) as [ns Hns]. eauto.
  - intros [[Hn Hp] Hs]. split; [split; eauto|].
    intros x Hx. destruct (Hs x Hx) as [ns' Hns]. eauto.
  - intros [[Hn Hp] Hs]. split; [split; eauto|].
    intros x Hx. destruct (Hs x Hx) as [ns' Hns]. eauto.
  - intros (ns & -> & Hn & Hf). eauto 10.
  - intros H Hpm. destruct (H Hpm) as (ns & Hn & Hf). eauto.
Qed.

Lemma has_namespace_ensured u g x ns :
  has_namespace (ensured env u g) x ns ↔ has_namespace g x ns.
Proof.
  unfold has_namespace, ensured. destruct (g !! u) eqn:Hu; [done|].
  split; intros (m & Hm & Hns).
  - apply lookup_insert_Some in Hm as [[<- <-]|[Hne Hm]]; [done|eauto].
  - exists m. split; [|done]. rewrite lookup_insert_ne; [done|]. congruence.
Qed.

Lemma InvB_graph g g' h pm ts :
  (∀ x ns, has_namespace g' x ns ↔ has_namespace g x ns) →
  InvB g h pm ts → InvB g' h pm ts.
Proof.
  intros Heq [Ht Ha Hi]. split.
  - intros j t Hj. eapply task_ok_graph; [..|by eapply Ht]; intros; by apply Heq.
  - intros u ns H. apply Heq in H. eauto.
  - intros u1 u2 ns H1 H2. apply Heq in H1, H2. eauto.
Qed.

Lemma InvB_ensure g h pm ts u : InvB g h pm ts → InvB (ensured env u g) h pm ts.
Proof. apply InvB_graph. intros. apply has_namespace_ensured. Qed.

Lemma InvB_update g h pm ts i t' :
  InvB g h pm ts → task_ok g h pm i t' → InvB g h pm (<[i := t']> ts).
Proof.
  intros [Ht Ha Hi] Hok. split; [|done..].
  intros j t Hj. look; eauto.
Qed.

Lemma InvB_spawn g h pm ts new :
  InvB g h pm ts →
  (∀ k t, new !! k = Some t → task_ok g h pm (length ts + k) t) →
  InvB g h pm (ts ++ new).
Proof.
  intros [Ht Ha Hi] Hok. split; [|done..].
  intros j t Hj. look; [eauto|].
  replace j with (length ts + (j - length ts)) by lia. eauto.
Qed.

Lemma task_ok_load g h pm j dep st : stack_ok g st → task_ok g h pm j (LoadEntry dep st).
Proof. done. Qed.

Lemma InvB_spawn_loads g h pm ts new stk :
  InvB g h pm ts → Forall (is_load_with stk) new → stack_ok g stk →
  InvB g h pm (ts ++ new).
Proof.
  intros HB Hnew Hstk. apply InvB_spawn; [done|].
  intros k t Hk. eapply Forall_lookup_1 in Hnew as [dep ->]; [|done]. done.
Qed.

(** The heap while the owner of [ns] runs its body. *)
Lemma InvB_evolve g h h1 pm ts u ns :
  InvB g h pm ts → building g h u ns → heap_evolves ns h h1 →
  InvB g h1 pm ts ∧ building g h1 u ns.
Proof.
  intros [Ht Ha Hi] [Hns (ps & tag & Hps)] (Hlen & Hother & Hkeep & Hfrozen).
  assert (∀ l, l < length h → isFrozen h l = false → isFrozen h1 l = false) as Hunfrozen.
  { intros l Hl Hf. destruct (decide (l = ns)) as [Heq|Hne].
    - subst l. destruct (Hkeep _ _ Hps) as [ps' Hps']. by eapply isFrozen_building.
    - rewrite (isFrozen_lookup h); [done|]. by apply Hother. }
  assert (∀ l, isFrozen h l = true → isFrozen h1 l = true) as Hfz.
  { intros l. unfold isFrozen. destruct (h !! l) as [o|] eqn:Hl; [|done].
    intros Hf. by rewrite (Hfrozen _ _ Hl Hf). }
  assert (∀ u' ns', building g h u' ns' → building g h1 u' ns') as Hb.
  { intros u' ns' [Hns' (ps' & tag' & Hps')]. split; [done|].
    destruct (decide (ns' = ns)) as [Heq|Hne].
    { subst ns'. destruct (Hkeep _ _ Hps') as [ps1 Hps1]. eauto. }
    assert (ns' < length h) by (by eapply lookup_lt_Some).
    rewrite Hother by done. eauto. }
  split; [|by apply Hb; split; eauto].
  split.
  - intros j t Hj. specialize (Ht _ _ Hj).
    destruct t as [url st|url [| | | |l]|url p|url st|url st l|url st l r rest k|url [v|e]|url p|b];
      simpl in *; try done.
    + destruct Ht as [Hl Hor]. split; [lia|]. destruct Hor as [?|[Hf Hno]]; [by left|right].
      split; [|done]. by apply Hunfrozen.
    + destruct Ht as [Hbd ?]. split; [by apply Hb|done].
    + destruct Ht as [Hbd ?]. split; [by apply Hb|done].
    + destruct Ht as (l & -> & Hl & Hf). exists l. split; [done|]. split; [done|]. by apply Hfz.
    + intros Hpm. destruct (Ht Hpm) as (l & Hl & Hf). exists l. split; [done|].
      apply Hunfrozen; [by eapply Ha|done].
  - intros u' ns' H. specialize (Ha _ _ H). lia.
  - done.
Qed.

Lemma task_ok_pm g h pm pm' j t :
  (∀ u, pm' !! u = Some j → pm !! u = Some j) →
  task_ok g h pm j t → task_ok g h pm' j t.
Proof.
  intros Hpm.
  destruct t as [url st|url [| | | |ns]|url p|url st|url st ns|url st ns r rest k|url [v|e]|url p|b];
    simpl; try done.
  intros H Hj. apply H. by apply Hpm.
Qed.

Lemma InvB_pm g h pm pm' ts :
  InvB g h pm ts →
  (∀ j u, j < length ts → pm' !! u = Some j → pm !! u = Some j) →
  InvB g h pm' ts.
Proof.
  intros [Ht Ha Hi] Hpm. split; [|done..].
  intros j t Hj. eapply task_ok_pm; [|by eapply Ht].
  intros u. apply Hpm. by eapply lookup_lt_Some.
Qed.

Lemma InvB_start g h pm ts i u st :
  InvB g h pm ts → ts !! i = Some (LoadEntry u st) →
  InvB g h (<[u := length ts]> pm)
       (<[i := LoadReturn u (length ts)]> ts ++ [InstEntry u st; Cleanup u (length ts)]).
Proof.
  intros HB Hi. pose proof (inv_tasks _ _ _ _ HB _ _ Hi) as Hst. simpl in Hst.
  apply InvB_spawn.
  - apply InvB_update; [|done]. eapply InvB_pm; [done|].
    intros j u' Hj Hl. apply lookup_insert_Some in Hl as [[_ <-]|[_ Hl]]; [lia|done].
  - intros [|[|k]] t Hk; simplify_eq/=; done.
Qed.

Lemma length_freeze h ns : length (freeze h ns) = length h.
Proof. unfold freeze, update. destruct (h !! ns); [apply length_insert|done]. Qed.

Lemma freeze_lookup_ne h ns l : l ≠ ns → freeze h ns !! l = h !! l.
Proof.
  intros Hne. unfold freeze, update. destruct (h !! ns); [|done].
  by rewrite list_lookup_insert_ne.
Qed.

Lemma isFrozen_freeze h ns ps ext tag :
  h !! ns = Some (Plain ps ext tag) → isFrozen (freeze h ns) ns = true.
Proof.
  intros Hns. unfold isFrozen, freeze, update. rewrite Hns.
  rewrite list_lookup_insert_eq; [|by eapply lookup_lt_Some]. apply obj_frozen_freeze.
Qed.

(** The instantiation at [i] returns: its namespace is frozen. *)
Lemma InvB_return g h pm ts i t u ns :
  InvA pm ts → InvB g h pm ts → ts !! i = Some t → inst_url t = Some u →
  building g h u ns →
  InvB g (freeze h ns) pm (<[i := InstDone u (Fulfilled (VObj ns))]> ts).
Proof.
  intros HA [Ht Ha Hi] Hti Hu [Hns (ps & tag & Hps)].
  pose proof (inv_flight _ _ HA _ _ _ Hti Hu) as Hpmi.
  assert (∀ l, l ≠ ns → isFrozen (freeze h ns) l = isFrozen h l) as Hsame.
  { intros l Hne. apply isFrozen_lookup. by apply freeze_lookup_ne. }
  split.
  - intros j x Hj. apply list_lookup_insert_Some in Hj as [(<- & <- & _)|[Hne Hj]].
    { simpl. exists ns. split; [done|]. split; [done|]. by eapply isFrozen_freeze. }
    specialize (Ht _ _ Hj).
    destruct x as [url st|url [| | | |l]|url p|url st|url st l|url st l r rest k|url [v|e]|url p|b];
      simpl in *; try done.
    + rewrite length_freeze. destruct Ht as [Hl [Hn|[Hf Hno]]]; (split; [done|]); [by left|right].
      split; [|done]. rewrite Hsame; [done|]. intros ->. by eapply Hno.
    + destruct Ht as [[Hn (ps' & tag' & Hl)] Hs]. split; [|done]. split; [done|].
      rewrite freeze_lookup_ne; [eauto|]. intros ->.
      pose proof (Hi _ _ _ Hn Hns) as ->.
      pose proof (inv_flight _ _ HA _ _ _ Hj eq_refl). congruence.
    + destruct Ht as [[Hn (ps' & tag' & Hl)] Hs]. split; [|done]. split; [done|].
      rewrite freeze_lookup_ne; [eauto|]. intros ->.
      pose proof (Hi _ _ _ Hn Hns) as ->.
      pose proof (inv_flight _ _ HA _ _ _ Hj eq_refl). congruence.
    + destruct Ht as (l & -> & Hn & Hf). exists l. split; [done|]. split; [done|].
      rewrite Hsame; [done|]. intros ->. rewrite (isFrozen_building _ _ _ _ Hps) in Hf. done.
    + intros Hpm. destruct (Ht Hpm) as (l & Hn & Hf). exists l. split; [done|].
      rewrite Hsame; [done|]. intros ->. pose proof (Hi _ _ _ Hn Hns) as ->. congruence.
  - intros u' l H. rewrite length_freeze. eauto.
  - done.
Qed.

Lemma complete_namespace_None g h u :
  complete_namespace h (record_of env u g) = None →
  ∀ l, has_namespace g u l → isFrozen h l = false.
Proof.
  unfold complete_namespace, record_of. intros Hc l (m & Hm & Hl). rewrite Hm, Hl in Hc.
  by destruct (isFrozen h l).
Qed.

Lemma complete_namespace_Some g h u ns :
  complete_namespace h (record_of env u g) = Some ns → complete g h u ns.
Proof.
  unfold complete_namespace, record_of, complete, has_namespace.
  destruct (g !! u) as [m|] eqn:Hm; [|done].
  destruct (ssrModule m) as [l|] eqn:Hl; [|done].
  destruct (isFrozen h l) eqn:Hf; [|done]. intros [= <-]. eauto.
Qed.

(** Line 63: the fresh namespace goes into the record. *)
Lemma InvB_entered g h pm ts i u st f r :
  InvA pm ts → InvB g h pm ts → ts !! i = Some (InstEntry u st) →
  complete_namespace h (record_of env u g) = None →
  InvB (<[u := mkNode f (Some (length h)) r]> g) (h ++ [new_ssrModule]) pm ts ∧
  building (<[u := mkNode f (Some (length h)) r]> g) (h ++ [new_ssrModule]) u (length h).
Proof.
  intros HA [Ht Ha Hi] Hti Hc.
  pose proof (complete_namespace_None _ _ _ Hc) as Hunfrozen.
  pose proof (inv_flight _ _ HA _ _ _ Hti eq_refl) as Hpmi.
  set (g' := <[u := mkNode f (Some (length h)) r]> g).
  set (h' := h ++ [new_ssrModule]).
  assert (has_namespace g' u (length h)) as Hnew.
  { eexists. split; [apply lookup_insert_eq|done]. }
  assert (∀ x l, x ≠ u → has_namespace g x l → has_namespace g' x l) as Hold.
  { intros x l Hne (m & Hm & Hl). exists m. split; [|done]. unfold g'. by rewrite lookup_insert_ne. }
  assert (∀ x l, has_namespace g' x l → (x = u ∧ l = length h) ∨ (x ≠ u ∧ has_namespace g x l))
    as Hinv.
  { intros x l (m & Hm & Hl). unfold g' in Hm. apply lookup_insert_Some in Hm as [[<- <-]|[Hne Hm]].
    - left. simpl in Hl. by simplify_eq.
    - right. split; [done|]. by exists m. }
  assert (∀ l, l < length h → h' !! l = h !! l) as Hlook.
  { intros l Hl. unfold h'. by apply lookup_app_l. }
  assert (∀ l, l < length h → isFrozen h' l = isFrozen h l) as Hfz.
  { intros l Hl. apply isFrozen_lookup. by apply Hlook. }
  assert (∀ stk, stack_ok g stk → stack_ok g' stk) as Hstack.
  { intros stk Hs x Hx. destruct (Hs x Hx) as [l Hl].
    destruct (decide (x = u)) as [->|Hne]; eauto. }
  assert (∀ j u' l, ts !! j = Some (InstDone u' (Rejected l)) → pm !! u' = Some j → u' ≠ u) as Hrej.
  { intros j u' e Hj Hpm ->. rewrite Hpmi in Hpm. simplify_eq. }
  split; [split|].
  - intros j x Hj. specialize (Ht _ _ Hj).
    destruct x as [url s0|url [| | | |l]|url p|url s0|url s0 l|url s0 l r0 rest k|url [v|e]|url p|b];
      simpl in *; try done; eauto.
    + destruct Ht as [Hl Hor]. unfold h'. rewrite length_app. simpl. split; [lia|].
      assert (abandoned g' h' l ∨ url ≠ u ∧ has_namespace g url l) as [?|[? ?]]; [|by right|by left; eauto].
      destruct Hor as [Hn|[Hf Hno]].
      * destruct (decide (url = u)) as [->|Hne]; [left|by right].
        split; [rewrite Hfz; eauto|].
        intros x Hx. apply Hinv in Hx as [[-> ->]|[Hne Hx]]; [lia|].
        by pose proof (Hi _ _ _ Hn Hx).
      * left. split; [by rewrite Hfz|].
        intros x Hx. apply Hinv in Hx as [[-> ->]|[Hne Hx]]; [lia|]. by eapply Hno.
    + destruct Ht as [[Hn (ps' & tag' & Hl)] Hs].
      assert (url ≠ u).
      { intros ->. pose proof (inv_flight _ _ HA _ _ _ Hj eq_refl). simplify_eq. }
      split; [|eauto]. split; [eauto|].
      rewrite Hlook; [eauto|]. by eapply lookup_lt_Some.
    + destruct Ht as [[Hn (ps' & tag' & Hl)] Hs].
      assert (url ≠ u).
      { intros ->. pose proof (inv_flight _ _ HA _ _ _ Hj eq_refl). simplify_eq. }
      split; [|eauto]. split; [eauto|].
      rewrite Hlook; [eauto|]. by eapply lookup_lt_Some.
    + destruct Ht as (l & -> & Hn & Hf). exists l. split; [done|].
      assert (url ≠ u). { intros ->. rewrite (Hunfrozen _ Hn) in Hf. done. }
      split; [eauto|]. rewrite Hfz; eauto.
    + intros Hpm. destruct (Ht Hpm) as (l & Hn & Hf). exists l.
      split; [eapply Hold; eauto|]. rewrite Hfz; eauto.
  - intros x l Hx. unfold h'. rewrite length_app. simpl.
    apply Hinv in Hx as [[-> ->]|[Hne Hx]]; [lia|]. specialize (Ha _ _ Hx). lia.
  - intros x1 x2 l H1 H2.
    apply Hinv in H1 as [[-> ->]|[Hne1 H1]], H2 as [[-> Hl2]|[Hne2 H2]]; try done.
    + specialize (Ha _ _ H2). lia.
    + specialize (Ha _ _ H1). lia.
    + eauto.
  - split; [done|]. unfold h', new_ssrModule.
    rewrite lookup_app_r; [|done]. rewrite Nat.sub_diag. simpl. eauto.
Qed.

End Namespaces.

Section Preservation.
Context (env : Env).

Lemma is_load_with_entry stk new :
  Forall (is_load_with stk) new → Forall is_load_entry new.
Proof. intros H. eapply Forall_impl; [exact H|]. intros t [dep ->]. by eexists _, _. Qed.

Lemma stack_ok_snoc g st u ns :
  stack_ok g st → has_namespace g u ns → stack_ok g (st ++ [u]).
Proof.
  intros Hs Hu x Hx. apply elem_of_app in Hx as [Hx|Hx]; [eauto|].
  apply list_elem_of_singleton in Hx as ->. eauto.
Qed.

Lemma instance_of_done u o : instance_of u (InstDone u o).
Proof. right. by eexists. Qed.

Lemma Inv_loop_out i u st ns r sm rest s' t :
  Inv sm → tasks sm !! i = Some t → inst_url t = Some u →
  stack_ok (moduleGraph sm) st → building (moduleGraph sm) (heap sm) u ns →
  loop_out env i u st ns r sm rest s' → Inv s'.
Proof.
  intros [HA HB] Hi Hu Hst Hbd Hout. pose proof Hbd as [Hns _].
  pose proof (stack_ok_snoc _ _ _ _ Hst Hns) as Hstk.
  destruct Hout as [ext d rest' -> Hexts Hd Hg Hh Hp Ht Hts|h1 new evs Hexts Hh1 Hnew Hevs Hg Hh Hp Ht Hts
                   |h1 new evs e Hexts Hh1 Hnew Hevs Hg Hh Hp Ht Hts
                   |h1 new evs e Hexts Hh1 Hnew Hevs Hg Hh Hp Ht Hts];
    unfold Inv; rewrite Hg, Hh, Hp, Hts.
  - split.
    + apply A_spawn; [|apply Forall_singleton; by eexists _, _].
      eapply A_inst; eauto. by left.
    + eapply InvB_spawn_loads; [|apply Forall_singleton; by eexists|done].
      apply InvB_update; [done|]. simpl. done.
  - destruct (InvB_evolve _ _ _ _ _ _ _ HB Hbd Hh1) as [HB1 Hbd1]. split.
    + apply A_spawn; [|by eapply is_load_with_entry].
      eapply A_inst; eauto using instance_of_done.
    + eapply InvB_spawn_loads; [|done..]. by eapply InvB_return.
  - destruct (InvB_evolve _ _ _ _ _ _ _ HB Hbd Hh1) as [HB1 Hbd1]. split.
    + apply A_spawn; [|by eapply is_load_with_entry].
      eapply A_inst; eauto using instance_of_done.
    + eapply InvB_spawn_loads; [|done..]. apply InvB_update; [done|].
      simpl. intros _. destruct Hbd1 as [? (ps & tag & Hps)]. exists ns. split; [done|].
      by eapply isFrozen_building.
  - destruct (InvB_evolve _ _ _ _ _ _ _ HB Hbd Hh1) as [HB1 Hbd1]. split.
    + apply A_spawn; [|by eapply is_load_with_entry].
      eapply A_inst; eauto using instance_of_done.
    + eapply InvB_spawn_loads; [|done..]. apply InvB_update; [done|].
      simpl. intros _. destruct Hbd1 as [? (ps & tag & Hps)]. exists ns. split; [done|].
      by eapply isFrozen_building.
Qed.

Lemma settled_not_flight s p o t :
  settled s p = Some o → tasks s !! p = Some t → inst_url t = None.
Proof. unfold settled. intros H Ht. rewrite Ht in H. by destruct t. Qed.

(** Every resumption keeps the invariants. *)
Lemma Inv_trans s i s' : Inv s → trans env s i s' → Inv s'.
Proof.
  intros [HA HB] Htrans.
  destruct Htrans as
    [url st Hi Hin Hg Hh Hp Ht Hts
    |url st p Hi Hin Hpm Hg Hh Hp Ht Hts
    |url st Hi Hin Hpm Hg Hh Hp Ht Hts
    |url st ns Hi Hc Hg Hh Hp Ht Hts
    |url st Hi Hc Hr Hg Hh Hp Ht Hts
    |url st r Hi Hc Hr Hout
    |url st ns e Hi He Hg Hh Hp Ht Hts
    |url st ns r Hi Hr Hout
    |url st ns r rest t e Hi Ho Hg Hh Hp Ht Hts
    |url st ns r rest t v Hi Ho Hout
    |url p o Hi Ho Hg Hh Hp Ht Hts];
    try (unfold Inv; rewrite Hg, Hh, Hp, Hts).
  - (* a cycle closes *)
    split.
    + eapply A_inert; eauto; done.
    + apply InvB_update; [by apply InvB_ensure|].
      unfold record_of. destruct (moduleGraph s !! url) as [m|] eqn:Hm; [|done].
      destruct (ssrModule m) as [ns|] eqn:Hns; [|done]. simpl.
      assert (has_namespace (moduleGraph s) url ns) as Hhas by (by exists m).
      split; [by eapply inv_alloc|]. left. by apply has_namespace_ensured.
  - (* an entry is found *)
    split.
    + eapply A_inert; eauto; try done.
      intros u' p' [= <- <-]. by apply (inv_pending _ _ HA).
    + apply InvB_update; [by apply InvB_ensure|done].
  - (* a new instantiation *)
    split.
    + by eapply A_start.
    + eapply InvB_start; [by apply InvB_ensure|done].
  - (* the frozen namespace is returned *)
    split.
    + eapply A_inst; eauto using instance_of_done.
    + apply InvB_update; [by apply InvB_ensure|]. simpl. exists ns. split; [done|].
      apply complete_namespace_Some in Hc as [Hn Hf]. split; [|done].
      by apply has_namespace_ensured.
  - (* a fresh namespace, the transform is awaited *)
    unfold entered. simpl.
    destruct (InvB_entered env _ _ _ _ _ _ _
                (file (record_of env url (moduleGraph s)))
                (ssrTransformResult (record_of env url (moduleGraph s))) HA HB Hi Hc)
      as [HB' Hbd].
    split.
    + eapply A_inst; eauto. by left.
    + apply InvB_update; [done|]. simpl. split; [done|].
      by apply (inv_tasks _ _ _ _ HB' _ _ Hi).
  - (* a fresh namespace, the transform result is there *)
    destruct (InvB_entered env _ _ _ _ _ _ _
                (file (record_of env url (moduleGraph s)))
                (ssrTransformResult (record_of env url (moduleGraph s))) HA HB Hi Hc)
      as [HB' Hbd].
    eapply (Inv_loop_out _ _ _ _ _ (entered env url s)); [| | | | |exact Hout]; try done.
    + by apply (inv_tasks _ _ _ _ HB' _ _ Hi).
  - (* the transform failed *)
    pose proof (inv_tasks _ _ _ _ HB _ _ Hi) as [[Hn (ps & tag & Hps)] Hs].
    split.
    + eapply A_inst; eauto using instance_of_done.
    + apply InvB_update; [done|]. simpl. intros _. exists ns. split; [done|].
      by eapply isFrozen_building.
  - (* the transform result arrived *)
    pose proof (inv_tasks _ _ _ _ HB _ _ Hi) as [Hbd Hs].
    eapply (Inv_loop_out _ _ _ _ _ s); [| | | | |exact Hout]; try done.
  - (* a dependency failed *)
    pose proof (inv_tasks _ _ _ _ HB _ _ Hi) as [[Hn (ps & tag & Hps)] Hs].
    split.
    + eapply A_inst; eauto using instance_of_done.
    + apply InvB_update; [done|]. simpl. intros _. exists ns. split; [done|].
      by eapply isFrozen_building.
  - (* a dependency is loaded *)
    pose proof (inv_tasks _ _ _ _ HB _ _ Hi) as [Hbd Hs].
    eapply (Inv_loop_out _ _ _ _ _ (emit (EvAwaited i t) s)); [| | | | |exact Hout]; try done.
  - (* the clean-up *)
    split.
    + eapply A_cleanup; eauto. intros t Htp. by eapply settled_not_flight.
    + apply InvB_update; [|done]. eapply InvB_pm; [done|].
      intros j u _ Hl. by apply lookup_delete_Some in Hl as [_ Hl].
Qed.

Lemma Inv_call url s : Inv s → Inv (ssrLoadModule env url s).
Proof.
  intros [HA HB]. split; simpl.
  - apply A_spawn; [done|]. apply Forall_singleton. by eexists _, _.
  - eapply InvB_spawn_loads; [done|apply Forall_singleton; by eexists|].
    intros x Hx. by apply elem_of_nil in Hx.
Qed.

Lemma Inv_initial s : initial s → Inv s.
Proof.
  intros (Hts & Hpm & _ & Hg).
  assert (∀ u ns, ¬ has_namespace (moduleGraph s) u ns) as Hno.
  { intros u ns (m & Hm & Hns). apply Hg in Hm. simpl in Hm. congruence. }
  split; [split|split]; rewrite ?Hts, ?Hpm; try done.
  - intros u ns H. by apply Hno in H.
  - intros u1 u2 ns H. by apply Hno in H.
Qed.

Lemma Inv_sstep s s' : Inv s → sstep env s s' → Inv s'.
Proof.
  intros HI Hs. inversion Hs as [url s0|i s0 s1 Hstep]; subst.
  - by apply Inv_call.
  - eapply Inv_trans; [done|]. by apply step_trans.
Qed.

Lemma Inv_rtc s s' : Inv s → rtc (sstep env) s s' → Inv s'.
Proof. intros HI Hrtc. induction Hrtc; eauto using Inv_sstep. Qed.

Lemma Inv_reachable s : reachable env s → Inv s.
Proof. intros (s0 & Hinit & Hrtc). eapply Inv_rtc; [|done]. by apply Inv_initial. Qed.

End Preservation.

(* ===================================================================== *)
(** *** The history of every instantiation is a served script             *)
(* ===================================================================== *)

Section Trace.
Context (env : Env).



Lemma executions_zero u p tr : EvExec u p ∉ tr ↔ executions u p tr = 0.
Proof. unfold executions. rewrite <- count_occ_not_In. by rewrite list_elem_of_In. Qed.











Lemma executions_resolve u p evs : Forall is_resolve evs → executions u p evs = 0.
Proof.
  intros Hall. apply executions_zero. intros Hin.
  eapply Forall_forall in Hall as (id & dir & ?); [|done]. done.
Qed.















End Trace.

(* ===================================================================== *)
(** *** Single flight                                                     *)
(* ===================================================================== *)

Section Facts.
Context (env : Env).

Lemma play_rtc acts : ∀ s s', play env acts s = Some s' → rtc (sstep env) s s'.
Proof.
  induction acts as [|[url|i] acts IH]; intros s s'; simpl.
  - by intros [= <-].
  - intros H. eapply rtc_l; [apply sstep_call|by apply IH].
  - destruct (step env s i) as [s1|] eqn:Hs; [|done].
    intros H. eapply rtc_l; [by apply sstep_run with (i := i)|by apply IH].
Qed.

Lemma play_reachable acts s0 s :
  initial s0 → play env acts s0 = Some s → reachable env s.
Proof. intros Hi Hp. exists s0. split; [done|]. by eapply play_rtc. Qed.

Lemma reachable_rtc s s' : reachable env s → rtc (sstep env) s s' → reachable env s'.
Proof. intros (s0 & Hi & H) H'. exists s0. split; [done|]. by etrans. Qed.

(** What a resumption does to the pool: the resumed activation was not
    final, it is replaced, and activations are added at the end. *)
Lemma loop_out_tasks i u st ns r sm rest s' :
  loop_out env i u st ns r sm rest s' →
  ∃ t' new, tasks s' = <[i := t']> (tasks sm) ++ new.
Proof.
  intros [? ? ? ? ? ? ? ? ? ? ->|? ? ? ? ? ? ? ? ? ? ? ->|? ? ? ? ? ? ? ? ? ? ? ? ->
         |? ? ? ? ? ? ? ? ? ? ? ? ->]; eauto.
Qed.

Lemma trans_tasks s i s' :
  trans env s i s' →
  ∃ t t' new, tasks s !! i = Some t ∧ ¬ final t ∧ tasks s' = <[i := t']> (tasks s) ++ new.
Proof.
  intros Htrans.
  destruct Htrans as
    [url st Hi Hin Hg Hh Hp Ht Hts
    |url st p Hi Hin Hpm Hg Hh Hp Ht Hts
    |url st Hi Hin Hpm Hg Hh Hp Ht Hts
    |url st ns Hi Hc Hg Hh Hp Ht Hts
    |url st Hi Hc Hr Hg Hh Hp Ht Hts
    |url st r Hi Hc Hr Hout
    |url st ns e Hi He Hg Hh Hp Ht Hts
    |url st ns r Hi Hr Hout
    |url st ns r rest t e Hi Ho Hg Hh Hp Ht Hts
    |url st ns r rest t v Hi Ho Hout
    |url p o Hi Ho Hg Hh Hp Ht Hts];
    try (apply loop_out_tasks in Hout as (t' & new & Hts));
    eexists _, _; try (eexists; split; [exact Hi|]; split; [by intros []|]; exact Hts);
    exists []; (split; [exact Hi|]); (split; [by intros []|]); rewrite app_nil_r; exact Hts.
Qed.

Lemma final_stable_trans s i s' j t :
  trans env s i s' → tasks s !! j = Some t → final t → tasks s' !! j = Some t.
Proof.
  intros Htrans Hj Hfin. apply trans_tasks in Htrans as (ti & t' & new & Hi & Hnf & ->).
  apply lookup_app_l_Some. rewrite list_lookup_insert_ne; [done|].
  intros ->. rewrite Hi in Hj. by simplify_eq.
Qed.

Lemma final_stable s s' j t :
  rtc (sstep env) s s' → tasks s !! j = Some t → final t → tasks s' !! j = Some t.
Proof.
  intros Hrtc. induction Hrtc as [|s1 s2 s3 Hstep _ IH]; [done|]. intros Hj Hfin.
  apply IH; [|done]. inversion Hstep as [url s0|i s0 s0' Hs]; subst.
  - simpl. by apply lookup_app_l_Some.
  - eapply final_stable_trans; eauto using step_trans.
Qed.

End Facts.

Section C1.
Context (env : Env).

Lemma step_join s i u st p :
  tasks s !! i = Some (LoadEntry u st) → u ∉ st → pendingModules s !! u = Some p →
  step env s i = Some (set_task i (LoadReturn u p) (with_graph s (ensured env u (moduleGraph s)))).
Proof.
  intros Hi Hin Hp. unfold step. rewrite Hi. unfold load_entry.
  rewrite ensureEntryFromUrl_spec. rewrite bool_decide_eq_false_2 by done. simpl. by rewrite Hp.
Qed.


Lemma settled_instance s p o u t :
  settled s p = Some o → tasks s !! p = Some t → instance_of u t → t = InstDone u o.
Proof.
  unfold settled. intros Hs Ht Hi. rewrite Ht in Hs.
  destruct Hi as [Hi|[o' ->]]; [by destruct t|]. by simplify_eq.
Qed.


End C1.

Lemma initial_start : initial Scenario.start.
Proof. repeat split. apply map_Forall_empty. Qed.

Lemma after_reachable acts :
  is_Some (play Scenario.env acts Scenario.start) → reachable Scenario.env (Scenario.after acts).
Proof.
  intros [s Hs]. apply (play_reachable _ acts Scenario.start); [apply initial_start|].
  unfold Scenario.after. by rewrite Hs.
Qed.

(** Scenario 4 of the specification: two requests for c.js before either
    resolves settle to the same object; c.js is instantiated, transformed
    and run once. *)
Lemma two_callers_example :
  let s := run Scenario.env 16 (Scenario.after Scenario.two_callers) in
  tasks (Scenario.after Scenario.two_callers) !! 0 = Some (LoadReturn "/c.js" 2) ∧
  tasks (Scenario.after Scenario.two_callers) !! 1 = Some (LoadReturn "/c.js" 2) ∧
  quiescent Scenario.env s = true ∧
  outcome s 0 = Some (Fulfilled (VObj 2)) ∧ outcome s 1 = Some (Fulfilled (VObj 2)) ∧
  isFrozen (heap s) 2 = true ∧ get 8 (heap s) 2 "x" = inr (VNum 1) ∧
  trace s = [EvExec "/c.js" 2; EvTransform "/c.js" 2; EvInstantiate "/c.js" 2].
Proof. vm_compute. repeat split. Qed.

Section C2.
Context (env : Env).

Lemma step_cycle s i u st :
  tasks s !! i = Some (LoadEntry u st) → u ∈ st →
  step env s i
  = Some (set_task i (LoadNow u (ns_val (ssrModule (record_of env u (moduleGraph s)))))
            (with_graph s (ensured env u (moduleGraph s)))).
Proof.
  intros Hi Hin. unfold step. rewrite Hi. unfold load_entry.
  rewrite ensureEntryFromUrl_spec. by rewrite bool_decide_eq_true_2.
Qed.

(** Lines 35 and 63.  In every state the loader can reach, every url on the [urlStack]
    of an activation has a namespace in its record (it was stored at line 63,
    before the activation that put the url on the stack did anything else);
    so an [ssrLoadModule] whose url is on its [urlStack] returns at once
    that namespace object, not [null], as a fulfilled promise, and changes
    nothing else: no activation is created, the graph, the heap, the table
    and the trace stay as they are. *)
Theorem cycle_returns_namespace s i u st :
  reachable env s →
  tasks s !! i = Some (LoadEntry u st) → u ∈ st →
  (∀ j t x, tasks s !! j = Some t → x ∈ task_stack t →
     ∃ ns, has_namespace (moduleGraph s) x ns) ∧
  ∃ ns s',
    has_namespace (moduleGraph s) u ns ∧
    step env s i = Some s' ∧
    tasks s' = <[i := LoadNow u (VObj ns)]> (tasks s) ∧
    outcome s' i = Some (Fulfilled (VObj ns)) ∧
    moduleGraph s' = moduleGraph s ∧ heap s' = heap s ∧
    pendingModules s' = pendingModules s ∧ trace s' = trace s.
Proof.
  intros Hreach Hi Hin. pose proof (Inv_reachable env s Hreach) as [HA HB].
  assert (∀ j t x, tasks s !! j = Some t → x ∈ task_stack t →
            ∃ ns, has_namespace (moduleGraph s) x ns) as Hstack.
  { intros j t x Hj Hx. pose proof (inv_tasks _ _ _ _ HB _ _ Hj) as Hok.
    destruct t as [url s0|url [| | | |l]|url p|url s0|url s0 l|url s0 l r0 rest k|url [v|e]|url p|b];
      simpl in *; try (by apply elem_of_nil in Hx); try (by apply Hok); by apply (proj2 Hok). }
  split; [done|].
  destruct (Hstack i _ u Hi Hin) as (ns & m & Hm & Hns).
  exists ns. eexists. split; [by exists m|]. split; [by apply (step_cycle s i u st)|].
  unfold record_of, ensured. rewrite Hm, Hns. simpl.
  repeat split; try done.
  unfold outcome, settled. simpl.
  rewrite list_lookup_insert_eq; [done|]. by eapply lookup_lt_Some.
Qed.

End C2.

Lemma cycle_returns_namespace_witness :
  reachable Scenario.env (Scenario.after Scenario.cycle_closing) ∧
  tasks (Scenario.after Scenario.cycle_closing) !! 6 = Some (LoadEntry "/a.js" ["/a.js"; "/b.js"]) ∧
  "/a.js" ∈ ["/a.js"; "/b.js"] ∧
  (∀ j t x, tasks (Scenario.after Scenario.cycle_closing) !! j = Some t → x ∈ task_stack t →
     ∃ ns, has_namespace (moduleGraph (Scenario.after Scenario.cycle_closing)) x ns) ∧
  ∃ ns s',
    has_namespace (moduleGraph (Scenario.after Scenario.cycle_closing)) "/a.js" ns ∧
    step Scenario.env (Scenario.after Scenario.cycle_closing) 6 = Some s' ∧
    tasks s' = <[6 := LoadNow "/a.js" (VObj ns)]> (tasks (Scenario.after Scenario.cycle_closing)) ∧
    outcome s' 6 = Some (Fulfilled (VObj ns)) ∧
    moduleGraph s' = moduleGraph (Scenario.after Scenario.cycle_closing) ∧ heap s' = heap (Scenario.after Scenario.cycle_closing) ∧
    pendingModules s' = pendingModules (Scenario.after Scenario.cycle_closing) ∧
    trace s' = trace (Scenario.after Scenario.cycle_closing).
Proof.
  split; [apply after_reachable; vm_compute; eauto|].
  split; [vm_compute; reflexivity|].
  split; [apply list_elem_of_here|].
  apply (cycle_returns_namespace Scenario.env (Scenario.after Scenario.cycle_closing) 6 "/a.js" ["/a.js"; "/b.js"]).
  - apply after_reachable. vm_compute. eauto.
  - vm_compute. reflexivity.
  - apply list_elem_of_here.
Defined.

(** Scenario 3 of the specification: a.js imports b.js and b.js imports
    a.js.  The load of a.js runs to the end: when the body of b.js imports
    a.js it gets the namespace object of a.js (2), which it keeps under
    [seen]; both namespaces end up frozen, the load is fulfilled with the
    namespace of a.js, and nothing is left to resume. *)
Lemma cyclic_load_terminates :
  let s := run Scenario.env 32 (ssrLoadModule Scenario.env "/a.js" Scenario.start) in
  quiescent Scenario.env s = true ∧
  outcome s 0 = Some (Fulfilled (VObj 2)) ∧
  tasks s !! 6 = Some (LoadNow "/a.js" (VObj 2)) ∧
  ssrImport_internal Scenario.env s "/a.js" = VObj 2 ∧
  ssrImport_internal Scenario.env s "/b.js" = VObj 3 ∧
  get 8 (heap s) 3 "seen" = inr (VObj 2) ∧
  get 8 (heap s) 2 "x" = inr (VNum 1) ∧
  get 8 (heap s) 2 "b" = inr (VObj 3) ∧
  isFrozen (heap s) 2 = true ∧ isFrozen (heap s) 3 = true ∧
  pendingModules s = ∅.
Proof. vm_compute. repeat split. Qed.

Section C9.
Context (env : Env).

Lemma step_start s i u st :
  tasks s !! i = Some (LoadEntry u st) → u ∉ st → pendingModules s !! u = None →
  ∃ s', step env s i = Some s' ∧
    tasks s' = <[i := LoadReturn u (length (tasks s))]> (tasks s)
                 ++ [InstEntry u st; Cleanup u (length (tasks s))] ∧
    pendingModules s' = <[u := length (tasks s)]> (pendingModules s) ∧
    trace s' = EvInstantiate u (length (tasks s)) :: trace s.
Proof.
  intros Hi Hin Hp. pose proof (lookup_lt_Some _ _ _ Hi) as Hlt.
  unfold step. rewrite Hi. unfold load_entry.
  rewrite ensureEntryFromUrl_spec. rewrite bool_decide_eq_false_2 by done. simpl. rewrite Hp.
  eexists. split; [done|]. simpl. split; [|done].
  rewrite <- app_assoc. simpl. by rewrite insert_app_l.
Qed.





End C9.

(* ===================================================================== *)
(** *** Idempotence                                                       *)
(* ===================================================================== *)

Section C3.
Context (env : Env).

Lemma has_namespace_fun g u ns ns' : has_namespace g u ns → has_namespace g u ns' → ns = ns'.
Proof. intros (m & Hm & Hns) (m' & Hm' & Hns'). congruence. Qed.

Lemma complete_not_building g h u ns ns' : complete g h u ns → building g h u ns' → False.
Proof.
  intros [Hn Hf] [Hn' (ps & tag & Hps)]. rewrite (has_namespace_fun _ _ _ _ Hn Hn') in Hf.
  rewrite (isFrozen_building _ _ _ _ Hps) in Hf. done.
Qed.

Lemma complete_namespace_complete g h u ns :
  complete g h u ns → complete_namespace h (record_of env u g) = Some ns.
Proof.
  intros [(m & Hm & Hns) Hf]. unfold complete_namespace, record_of. by rewrite Hm, Hns, Hf.
Qed.

Lemma complete_record g h u ns :
  complete g h u ns → ensured env u g = g ∧ ns_val (ssrModule (record_of env u g)) = VObj ns.
Proof.
  intros [(m & Hm & Hns) Hf]. unfold ensured, record_of. by rewrite Hm, Hns.
Qed.

Lemma frozen_evolves l h h1 ns :
  isFrozen h ns = true → heap_evolves l h h1 → h1 !! ns = h !! ns.
Proof.
  unfold isFrozen. intros Hf (_ & _ & _ & Hfrozen).
  destruct (h !! ns) as [o|] eqn:Ho; [|done]. by apply Hfrozen.
Qed.

Lemma frozen_freeze l h ns : isFrozen h ns = true → freeze h l !! ns = h !! ns.
Proof.
  intros Hf. destruct (decide (ns = l)) as [Heq|Hne]; [|by apply freeze_lookup_ne].
  subst l. unfold isFrozen in Hf. unfold freeze, update.
  destruct (h !! ns) as [o|] eqn:Ho; [|done].
  rewrite freeze_obj_frozen by done. rewrite list_lookup_insert_eq; [done|].
  by eapply lookup_lt_Some.
Qed.

Lemma complete_heap g h h' u ns :
  complete g h u ns → h' !! ns = h !! ns → complete g h' u ns.
Proof. intros [Hn Hf] Heq. split; [done|]. by rewrite (isFrozen_lookup h). Qed.

Lemma complete_graph g g' h u ns :
  complete g h u ns → (has_namespace g u ns → has_namespace g' u ns) → complete g' h u ns.
Proof. intros [Hn Hf] Hg. split; auto. Qed.

Lemma loop_out_complete i url st l r sm rest s' u ns :
  loop_out env i url st l r sm rest s' →
  complete (moduleGraph sm) (heap sm) u ns →
  complete (moduleGraph s') (heap s') u ns ∧ heap s' !! ns = heap sm !! ns.
Proof.
  intros Hout Hc. pose proof Hc as [_ Hf].
  destruct Hout as [ext d rest' -> Hexts Hd Hg Hh Hp Ht Hts|h1 new evs Hexts Hh1 Hnew Hevs Hg Hh Hp Ht Hts
                   |h1 new evs e Hexts Hh1 Hnew Hevs Hg Hh Hp Ht Hts
                   |h1 new evs e Hexts Hh1 Hnew Hevs Hg Hh Hp Ht Hts];
    rewrite Hg, Hh.
  - done.
  - pose proof (frozen_evolves _ _ _ _ Hf Hh1) as H1.
    assert (freeze h1 l !! ns = heap sm !! ns) as Heq.
    { rewrite frozen_freeze; [done|]. by rewrite (isFrozen_lookup (heap sm)). }
    split; [|done]. by eapply complete_heap.
  - pose proof (frozen_evolves _ _ _ _ Hf Hh1) as H1.
    split; [|done]. by eapply complete_heap.
  - pose proof (frozen_evolves _ _ _ _ Hf Hh1) as H1.
    split; [|done]. by eapply complete_heap.
Qed.

Lemma entered_complete url s u ns :
  complete (moduleGraph s) (heap s) u ns →
  complete_namespace (heap s) (record_of env url (moduleGraph s)) = None →
  url ≠ u ∧
  complete (moduleGraph (entered env url s)) (heap (entered env url s)) u ns ∧
  heap (entered env url s) !! ns = heap s !! ns.
Proof.
  intros Hc Hnone.
  assert (url ≠ u) as Hne.
  { intros ->. rewrite (complete_namespace_complete _ _ _ _ Hc) in Hnone. done. }
  split; [done|]. destruct Hc as [(m & Hm & Hns) Hf]. simpl.
  assert ((heap s ++ [new_ssrModule]) !! ns = heap s !! ns) as Heq.
  { apply lookup_app_l. unfold isFrozen in Hf.
    destruct (heap s !! ns) eqn:Ho; [by eapply lookup_lt_Some|done]. }
  split; [|done]. split.
  - exists m. split; [|done]. by rewrite lookup_insert_ne.
  - by rewrite (isFrozen_lookup (heap s)).
Qed.

(** Once a module is complete, no resumption changes its record or its
    namespace object. *)
Lemma complete_stable s i s' u ns :
  trans env s i s' → complete (moduleGraph s) (heap s) u ns →
  complete (moduleGraph s') (heap s') u ns ∧ heap s' !! ns = heap s !! ns.
Proof.
  intros Htrans Hc.
  assert (complete (ensured env u (moduleGraph s)) (heap s) u ns) as _ by
    (by rewrite (proj1 (complete_record _ _ _ _ Hc))).
  assert (∀ url, complete (ensured env url (moduleGraph s)) (heap s) u ns) as Hens.
  { intros url. eapply complete_graph; [done|]. by apply has_namespace_ensured. }
  destruct Htrans as
    [url st Hi Hin Hg Hh Hp Ht Hts
    |url st p Hi Hin Hpm Hg Hh Hp Ht Hts
    |url st Hi Hin Hpm Hg Hh Hp Ht Hts
    |url st l Hi Hcn Hg Hh Hp Ht Hts
    |url st Hi Hcn Hr Hg Hh Hp Ht Hts
    |url st r Hi Hcn Hr Hout
    |url st l e Hi He Hg Hh Hp Ht Hts
    |url st l r Hi Hr Hout
    |url st l r rest t e Hi Ho Hg Hh Hp Ht Hts
    |url st l r rest t v Hi Ho Hout
    |url p o Hi Ho Hg Hh Hp Ht Hts];
    try (rewrite Hg, Hh; by auto).
  - destruct (entered_complete _ _ _ _ Hc Hcn) as (_ & Hc' & Heq).
    rewrite Hg, Hh. done.
  - destruct (entered_complete _ _ _ _ Hc Hcn) as (_ & Hc' & Heq).
    destruct (loop_out_complete _ _ _ _ _ _ _ _ _ _ Hout Hc') as [? Heq'].
    split; [done|]. by rewrite Heq'.
  - by eapply loop_out_complete.
  - by eapply (loop_out_complete _ _ _ _ _ (emit (EvAwaited i t) s)).
Qed.

Lemma loop_out_pool i u st ns r sm rest s' :
  loop_out env i u st ns r sm rest s' →
  ∃ t' new, tasks s' = <[i := t']> (tasks sm) ++ new ∧ Forall passive new ∧ instance_of u t'.
Proof.
  assert (∀ new, Forall (is_load_with (st ++ [u])) new → Forall passive new) as Hpass.
  { intros new H. eapply Forall_impl; [exact H|]. intros t [dep ->]. left. by eexists _, _. }
  intros [ext d rest' -> Hexts Hd Hg Hh Hp Ht Hts|h1 new evs Hexts Hh1 Hnew Hevs Hg Hh Hp Ht Hts
         |h1 new evs e Hexts Hh1 Hnew Hevs Hg Hh Hp Ht Hts
         |h1 new evs e Hexts Hh1 Hnew Hevs Hg Hh Hp Ht Hts].
  - eexists _, _. split; [exact Hts|]. split; [|by left].
    apply Forall_singleton. left. by eexists _, _.
  - eexists _, _. split; [exact Hts|]. split; [by apply Hpass|]. apply instance_of_done.
  - eexists _, _. split; [exact Hts|]. split; [by apply Hpass|]. apply instance_of_done.
  - eexists _, _. split; [exact Hts|]. split; [by apply Hpass|]. apply instance_of_done.
Qed.

Lemma loop_out_executions i url st l r sm rest s' u :
  loop_out env i url st l r sm rest s' → url ≠ u →
  ∀ p, executions u p (trace s') = executions u p (trace sm).
Proof.
  intros Hout Hne p.
  destruct Hout as [ext d rest' -> Hexts Hd Hg Hh Hp Ht Hts|h1 new evs Hexts Hh1 Hnew Hevs Hg Hh Hp Ht Hts
                   |h1 new evs e Hexts Hh1 Hnew Hevs Hg Hh Hp Ht Hts
                   |h1 new evs e Hexts Hh1 Hnew Hevs Hg Hh Hp Ht Hts];
    rewrite Ht; unfold executions.
  - by rewrite count_occ_cons_neq.
  - rewrite count_occ_app. fold (executions u p evs).
    rewrite (executions_resolve _ _ _ Hevs), Nat.add_0_l.
    rewrite count_occ_cons_neq; [done|congruence].
  - rewrite count_occ_cons_neq by done. rewrite count_occ_app. fold (executions u p evs).
    rewrite (executions_resolve _ _ _ Hevs), Nat.add_0_l.
    rewrite count_occ_cons_neq; [done|congruence].
  - rewrite count_occ_app. fold (executions u p evs).
    rewrite (executions_resolve _ _ _ Hevs), Nat.add_0_l.
    rewrite count_occ_cons_neq; [done|congruence].
Qed.

(** Once a module is complete its body is not run again. *)
Lemma executions_stable s i s' u ns :
  Inv s → trans env s i s' → complete (moduleGraph s) (heap s) u ns →
  ∀ p, executions u p (trace s') = executions u p (trace s).
Proof.
  intros [HA HB] Htrans Hc p.
  destruct Htrans as
    [url st Hi Hin Hg Hh Hp Ht Hts
    |url st q Hi Hin Hpm Hg Hh Hp Ht Hts
    |url st Hi Hin Hpm Hg Hh Hp Ht Hts
    |url st l Hi Hcn Hg Hh Hp Ht Hts
    |url st Hi Hcn Hr Hg Hh Hp Ht Hts
    |url st r Hi Hcn Hr Hout
    |url st l e Hi He Hg Hh Hp Ht Hts
    |url st l r Hi Hr Hout
    |url st l r rest t e Hi Ho Hg Hh Hp Ht Hts
    |url st l r rest t v Hi Ho Hout
    |url q o Hi Ho Hg Hh Hp Ht Hts];
    try (rewrite Ht; unfold executions; by rewrite ?count_occ_cons_neq).
  - destruct (entered_complete _ _ _ _ Hc Hcn) as (Hne & _).
    by rewrite (loop_out_executions _ _ _ _ _ _ _ _ _ Hout Hne).
  - pose proof (inv_tasks _ _ _ _ HB _ _ Hi) as [Hbd _].
    assert (url ≠ u) as Hne by (intros ->; by eapply complete_not_building).
    by rewrite (loop_out_executions _ _ _ _ _ _ _ _ _ Hout Hne).
  - pose proof (inv_tasks _ _ _ _ HB _ _ Hi) as [Hbd _].
    assert (url ≠ u) as Hne by (intros ->; by eapply complete_not_building).
    rewrite (loop_out_executions _ _ _ _ _ _ _ _ _ Hout Hne).
    change (trace (emit (EvAwaited i t) s)) with (EvAwaited i t :: trace s).
    unfold executions. by rewrite count_occ_cons_neq.
Qed.

(** The table's entry for a complete module is an instantiation that will
    return, or has returned, its namespace. *)
Lemma pending_of_complete g h pm ts u ns p :
  InvA pm ts → InvB g h pm ts → complete g h u ns → pm !! u = Some p →
  (∃ st, ts !! p = Some (InstEntry u st)) ∨ ts !! p = Some (InstDone u (Fulfilled (VObj ns))).
Proof.
  intros HA HB Hc Hp. destruct (inv_pending _ _ HA _ _ Hp) as [_ (t & Ht & Hi)].
  pose proof (inv_tasks _ _ _ _ HB _ _ Ht) as Hok.
  destruct Hi as [Hi|[o ->]].
  - destruct t as [| | |url st|url st l|url st l r rest k| | |]; simplify_eq/=.
    + left. eauto.
    + destruct Hok as [Hbd _]. by destruct (complete_not_building _ _ _ _ _ Hc Hbd).
    + destruct Hok as [Hbd _]. by destruct (complete_not_building _ _ _ _ _ Hc Hbd).
  - right. destruct o as [v|e]; simpl in Hok.
    + destruct Hok as (ns' & -> & Hc'). destruct Hc as [Hn _], Hc' as [Hn' _].
      by rewrite (has_namespace_fun _ _ _ _ Hn Hn').
    + destruct (Hok Hp) as (ns' & Hn' & Hf'). destruct Hc as [Hn Hf].
      rewrite (has_namespace_fun _ _ _ _ Hn Hn') in Hf. congruence.
Qed.

Lemma trans_pool s i s' :
  trans env s i s' →
  ∃ t t' new, tasks s !! i = Some t ∧ ¬ final t ∧
    tasks s' = <[i := t']> (tasks s) ++ new ∧ Forall passive new.
Proof.
  intros Htrans.
  destruct Htrans as
    [url st Hi Hin Hg Hh Hp Ht Hts
    |url st p Hi Hin Hpm Hg Hh Hp Ht Hts
    |url st Hi Hin Hpm Hg Hh Hp Ht Hts
    |url st ns Hi Hc Hg Hh Hp Ht Hts
    |url st Hi Hc Hr Hg Hh Hp Ht Hts
    |url st r Hi Hc Hr Hout
    |url st ns e Hi He Hg Hh Hp Ht Hts
    |url st ns r Hi Hr Hout
    |url st ns r rest t e Hi Ho Hg Hh Hp Ht Hts
    |url st ns r rest t v Hi Ho Hout
    |url p o Hi Ho Hg Hh Hp Ht Hts];
    try (apply loop_out_pool in Hout as (t' & new & Hts & Hnew & _);
         eexists _, t', new; split; [exact Hi|]; split; [by intros []|]; by split);
    try (eexists _, _, []; split; [exact Hi|]; split; [by intros []|];
         rewrite app_nil_r; split; [exact Hts|constructor]).
  eexists _, _, _. split; [exact Hi|]. split; [by intros []|]. split; [exact Hts|].
  apply Forall_cons. split; [right; left; by eexists _, _|].
  apply Forall_singleton. right. right. by eexists _, _.
Qed.

Lemma served_by_passive ts u ns t : passive t → served_by ts u ns t.
Proof. by intros [(? & ? & ->)|[(? & ? & ->)|(? & ? & ->)]]. Qed.

(** What a resumption under a complete module [u] makes of the resumed
    activation: a load of [u] is served with [ns], an instantiation of [u]
    returns [ns]. *)
Lemma trans_served s i s' u ns t' :
  Inv s → complete (moduleGraph s) (heap s) u ns → trans env s i s' →
  tasks s' !! i = Some t' →
  served_by (tasks s') u ns t' ∧
  (∀ st, tasks s !! i = Some (InstEntry u st) → t' = InstDone u (Fulfilled (VObj ns))).
Proof.
  intros [HA HB] Hc Htrans Ht'.
  assert (i < length (tasks s)) as Hlt.
  { destruct (trans_pool _ _ _ Htrans) as (t & _ & _ & Hi & _). by eapply lookup_lt_Some. }
  assert (∀ x new, tasks s' = <[i := x]> (tasks s) ++ new → t' = x) as Hself.
  { intros x new E. rewrite E in Ht'. rewrite lookup_app_l in Ht' by (by rewrite length_insert).
    rewrite list_lookup_insert_eq in Ht' by done. congruence. }
  assert (∀ x, tasks s' = <[i := x]> (tasks s) → t' = x) as Hself'.
  { intros x E. apply (Hself x []). by rewrite app_nil_r. }
  assert (∀ st0 t0, tasks s !! i = Some t0 → (∀ st, t0 ≠ InstEntry u st) →
            tasks s !! i = Some (InstEntry u st0) → t' = InstDone u (Fulfilled (VObj ns))) as Hnot.
  { intros st0 t0 H1 H2 H3. rewrite H1 in H3. simplify_eq. by destruct (H2 st0). }
  destruct Htrans as
    [url st Hi Hin Hg Hh Hp Ht Hts
    |url st p Hi Hin Hpm Hg Hh Hp Ht Hts
    |url st Hi Hin Hpm Hg Hh Hp Ht Hts
    |url st l Hi Hcn Hg Hh Hp Ht Hts
    |url st Hi Hcn Hr Hg Hh Hp Ht Hts
    |url st r Hi Hcn Hr Hout
    |url st l e Hi He Hg Hh Hp Ht Hts
    |url st l r Hi Hr Hout
    |url st l r rest t e Hi Ho Hg Hh Hp Ht Hts
    |url st l r rest t v Hi Ho Hout
    |url p o Hi Ho Hg Hh Hp Ht Hts];
    try (apply loop_out_pool in Hout as (t0 & new & Hts & Hnew & Hinst); simpl in Hts);
    first [pose proof (Hself _ _ Hts) as ->|pose proof (Hself' _ Hts) as ->];
    rewrite Hts.
  - (* a cycle closes *)
    split; [|eauto]. simpl. intros ->. apply (proj2 (complete_record _ _ _ _ Hc)).
  - (* an entry is found *)
    split; [|eauto]. simpl. intros ->.
    destruct (pending_of_complete _ _ _ _ _ _ _ HA HB Hc Hpm) as [[st' Hq]|Hq]; [left|right].
    + exists st'. rewrite list_lookup_insert_ne; [done|]. intros ->. congruence.
    + rewrite list_lookup_insert_ne; [done|]. intros ->. congruence.
  - (* a new instantiation *)
    split; [|eauto]. simpl. intros ->. left. exists st.
    rewrite lookup_app_r; rewrite length_insert; [|done]. by rewrite Nat.sub_diag.
  - (* the frozen namespace is returned *)
    split; [done|]. intros st0 Hst0. rewrite Hi in Hst0. injection Hst0 as -> ->.
    rewrite (complete_namespace_complete _ _ _ _ Hc) in Hcn. by injection Hcn as ->.
  - split; [done|]. intros st0 Hst0. rewrite Hi in Hst0. injection Hst0 as -> ->.
    rewrite (complete_namespace_complete _ _ _ _ Hc) in Hcn. done.
  - assert (url ≠ u) as Hne by (by destruct (entered_complete _ _ _ _ Hc Hcn)).
    split.
    + destruct Hinst as [Hin|[o ->]]; [by destruct t0|done].
    + intros st0 Hst0. rewrite Hi in Hst0. by injection Hst0 as -> ->.
  - split; [done|eauto].
  - split; [|eauto]. destruct Hinst as [Hin|[o ->]]; [by destruct t0|done].
  - split; [done|eauto].
  - split; [|eauto]. destruct Hinst as [Hin|[o ->]]; [by destruct t0|done].
  - split; [done|eauto].
Qed.

Lemma After_trans s0 u ns s i s' :
  Inv s → After s0 u ns s → trans env s i s' → After s0 u ns s'.
Proof.
  intros HI [Hc Hobj Hex Hloads] Htrans.
  destruct (complete_stable _ _ _ _ _ Htrans Hc) as [Hc' Hobj'].
  split; [done|congruence| |].
  - intros p. by rewrite (executions_stable _ _ _ _ _ HI Htrans Hc).
  - intros j tj Hsub Hj.
    destruct (decide (j = i)) as [->|Hne]; [by eapply trans_served|].
    pose proof (trans_pool _ _ _ Htrans) as (t & t' & new & Hi & Hnf & Hts & Hnew).
    pose proof (lookup_lt_Some _ _ _ Hi) as Hlt.
    rewrite Hts in Hj. apply lookup_app_Some in Hj as [Hj|[Hge Hj]].
    + rewrite list_lookup_insert_ne in Hj by done.
      specialize (Hloads _ _ Hsub Hj).
      destruct tj as [| |url p| | | | | |]; try done. simpl in *. intros ->.
      assert (∀ x, tasks s !! p = Some x → final x ∨ (∃ st, x = InstEntry u st) →
                (x = InstDone u (Fulfilled (VObj ns)) ∨ (∃ st, x = InstEntry u st)) →
                (∃ st, tasks s' !! p = Some (InstEntry u st)) ∨
                tasks s' !! p = Some (InstDone u (Fulfilled (VObj ns)))) as Hkeep.
      { intros x Hx Hfin Hcase. destruct (decide (p = i)) as [->|Hpi].
        - right. rewrite Hi in Hx. injection Hx as ->.
          destruct Hcase as [->|[st ->]]; [by destruct Hnf|].
          rewrite Hts. rewrite lookup_app_l; [|by rewrite length_insert].
          rewrite list_lookup_insert_eq by done. f_equal.
          assert (tasks s' !! i = Some t') as Hi'.
          { rewrite Hts. apply lookup_app_l_Some. by apply list_lookup_insert_eq. }
          by eapply (proj2 (trans_served _ _ _ _ _ _ HI Hc Htrans Hi')).
        - assert (tasks s' !! p = Some x) as Hx'.
          { rewrite Hts. apply lookup_app_l_Some. by rewrite list_lookup_insert_ne. }
          destruct Hcase as [->|[st ->]]; [by right|left; eauto]. }
      destruct (Hloads eq_refl) as [[st Hp]|Hp].
      * eapply Hkeep; eauto.
      * eapply Hkeep; eauto. by left.
    + apply served_by_passive. by eapply Forall_lookup_1 in Hnew.
Qed.

Lemma After_call s0 u ns s url :
  After s0 u ns s → After s0 u ns (ssrLoadModule env url s).
Proof.
  intros [Hc Hobj Hex Hloads]. split; try done.
  intros j tj Hsub Hj. simpl in *. apply lookup_app_Some in Hj as [Hj|[Hge Hj]].
  - specialize (Hloads _ _ Hsub Hj). destruct tj as [| |url' p| | | | | |]; try done.
    simpl in *. intros ->. destruct (Hloads eq_refl) as [[st Hp]|Hp]; [left|right].
    + exists st. by apply lookup_app_l_Some.
    + by apply lookup_app_l_Some.
  - apply list_lookup_singleton_Some in Hj as [_ <-]. done.
Qed.

Lemma After_rtc s0 u ns s s' :
  Inv s → After s0 u ns s → rtc (sstep env) s s' → After s0 u ns s'.
Proof.
  intros HI HAf Hrtc. induction Hrtc as [|s1 s2 s3 Hstep _ IH]; [done|].
  apply IH; [by eapply Inv_sstep|].
  inversion Hstep as [url x|i x x' Hs]; subst.
  - by apply After_call.
  - eapply After_trans; eauto using step_trans.
Qed.

(** A frozen namespace that a load has returned is the namespace in the
    record of its url. *)
Lemma returned_frozen_complete s i t u ns :
  Inv s → tasks s !! i = Some t → load_of u t →
  outcome s i = Some (Fulfilled (VObj ns)) → isFrozen (heap s) ns = true →
  complete (moduleGraph s) (heap s) u ns.
Proof.
  intros [HA HB] Hi Hload Ho Hf. unfold outcome in Ho. rewrite Hi in Ho.
  destruct Hload as [(st & ->)|[(v & ->)|(p & ->)]].
  - unfold settled in Ho. by rewrite Hi in Ho.
  - unfold settled in Ho. rewrite Hi in Ho. injection Ho as ->.
    pose proof (inv_tasks _ _ _ _ HB _ _ Hi) as [_ [Hn|[Hnf _]]]; [done|congruence].
  - destruct (inv_return _ _ HA _ _ _ Hi) as (tp & Hp & Hinst).
    pose proof (settled_instance _ _ _ _ _ Ho Hp Hinst) as ->.
    pose proof (inv_tasks _ _ _ _ HB _ _ Hp) as (ns' & [= <-] & Hc). done.
Qed.

Lemma step_reuse s p u st ns :
  tasks s !! p = Some (InstEntry u st) → complete (moduleGraph s) (heap s) u ns →
  ∃ s', step env s p = Some s' ∧
    tasks s' = <[p := InstDone u (Fulfilled (VObj ns))]> (tasks s) ∧
    moduleGraph s' = moduleGraph s ∧ heap s' = heap s ∧
    pendingModules s' = pendingModules s ∧ trace s' = EvReuse u p :: trace s.
Proof.
  intros Hp Hc. unfold step. rewrite Hp. unfold instantiate_entry.
  rewrite ensureEntryFromUrl_spec. simpl.
  rewrite (complete_namespace_complete _ _ _ _ Hc).
  eexists. split; [done|]. simpl. by rewrite (proj1 (complete_record _ _ _ _ Hc)).
Qed.

Lemma outcome_return s j u p o :
  tasks s !! j = Some (LoadReturn u p) → settled s p = Some o → outcome s j = Some o.
Proof. intros Hj Hp. unfold outcome. by rewrite Hj. Qed.

Lemma settled_done s p u o : tasks s !! p = Some (InstDone u o) → settled s p = Some o.
Proof. intros Hp. unfold settled. by rewrite Hp. Qed.

(** A load of a complete module that has not passed line 31 yet settles
    with the module's namespace within two resumptions: its own and, when it
    called or joined an instantiation that has not passed line 54, that of
    the instantiation. *)
Lemma complete_load_settles s j u st ns :
  Inv s → complete (moduleGraph s) (heap s) u ns →
  tasks s !! j = Some (LoadEntry u st) →
  ∃ acts s', length acts ≤ 2 ∧ play env acts s = Some s' ∧
    outcome s' j = Some (Fulfilled (VObj ns)).
Proof.
  intros [HA HB] Hc Hj. pose proof (lookup_lt_Some _ _ _ Hj) as Hlt.
  destruct (complete_record _ _ _ _ Hc) as [Hg Hv].
  destruct (decide (u ∈ st)) as [Hin|Hin].
  { exists [Resume j]. eexists. split; [simpl; lia|]. split.
    - simpl. by rewrite (step_cycle env _ _ _ _ Hj Hin).
    - unfold outcome, settled. simpl. rewrite list_lookup_insert_eq by done. by rewrite Hv. }
  destruct (pendingModules s !! u) as [p|] eqn:Hp.
  - pose proof (step_join env _ _ _ _ _ Hj Hin Hp) as Hs1.
    destruct (pending_of_complete _ _ _ _ _ _ _ HA HB Hc Hp) as [[st' Hpt]|Hpt].
    + set (s1 := set_task j (LoadReturn u p) (with_graph s (ensured env u (moduleGraph s)))) in *.
      assert (j ≠ p) as Hne by (intros ->; congruence).
      assert (tasks s1 !! p = Some (InstEntry u st')) as Hpt1.
      { unfold s1. simpl. by rewrite list_lookup_insert_ne. }
      assert (complete (moduleGraph s1) (heap s1) u ns) as Hc1.
      { unfold s1. simpl. by rewrite Hg. }
      destruct (step_reuse _ _ _ _ _ Hpt1 Hc1) as (s2 & Hs2 & Hts2 & _).
      exists [Resume j; Resume p], s2. split; [simpl; lia|]. split.
      * simpl. by rewrite Hs1, Hs2.
      * apply (outcome_return _ _ u p).
        -- rewrite Hts2. rewrite list_lookup_insert_ne by done.
           unfold s1. simpl. by rewrite list_lookup_insert_eq.
        -- apply (settled_done _ _ u). rewrite Hts2. apply list_lookup_insert_eq.
           by eapply lookup_lt_Some.
    + exists [Resume j]. eexists. split; [simpl; lia|]. split.
      * simpl. by rewrite Hs1.
      * assert (j ≠ p) as Hne by (intros ->; congruence).
        apply (outcome_return _ _ u p).
        -- simpl. by rewrite list_lookup_insert_eq.
        -- apply (settled_done _ _ u). simpl. by rewrite list_lookup_insert_ne.
  - destruct (step_start env _ _ _ _ Hj Hin Hp) as (s1 & Hs1 & Hts1 & _).
    destruct (complete_stable _ _ _ _ _ (step_trans env _ _ _ Hs1) Hc) as [Hc1 _].
    assert (tasks s1 !! length (tasks s) = Some (InstEntry u st)) as Hpt1.
    { rewrite Hts1. rewrite lookup_app_r; rewrite length_insert; [|done].
      by rewrite Nat.sub_diag. }
    destruct (step_reuse _ _ _ _ _ Hpt1 Hc1) as (s2 & Hs2 & Hts2 & _).
    exists [Resume j; Resume (length (tasks s))], s2. split; [simpl; lia|]. split.
    + simpl. by rewrite Hs1, Hs2.
    + apply (outcome_return _ _ u (length (tasks s))).
      * rewrite Hts2. rewrite list_lookup_insert_ne by lia. rewrite Hts1.
        apply lookup_app_l_Some. by apply list_lookup_insert_eq.
      * apply (settled_done _ _ u). rewrite Hts2. apply list_lookup_insert_eq.
        by eapply lookup_lt_Some.
Qed.

(** C3.  Let a load of [u] have returned the namespace [ns], frozen, in a
    state [s] the loader can reach.  Then in every later state [s']:
    - [ns] is still the namespace in the record of [u], frozen, and the
      object is what it was;
    - every load of [u] that was called after [s], or had not passed line 31
      in [s], can only settle fulfilled with the same object [ns];
    - the body of [u] has not been run again;
    - an [instantiateModule] for [u] that passes line 54 returns [ns] and
      changes neither the graph nor the heap;
    - a load of [u] that has not passed line 31 settles with [ns] within
      two resumptions, its own and that of the instantiation it called or
      joined: it waits for nothing else. *)
Theorem load_idempotent s i t u ns :
  reachable env s →
  tasks s !! i = Some t → load_of u t →
  outcome s i = Some (Fulfilled (VObj ns)) → isFrozen (heap s) ns = true →
  ∀ s', rtc (sstep env) s s' →
    complete (moduleGraph s') (heap s') u ns ∧
    heap s' !! ns = heap s !! ns ∧
    (∀ j tj o,
       subsequent s u j → tasks s' !! j = Some tj → load_of u tj →
       outcome s' j = Some o → o = Fulfilled (VObj ns)) ∧
    (∀ p, executions u p (trace s') = executions u p (trace s)) ∧
    (∀ p st,
       tasks s' !! p = Some (InstEntry u st) →
       ∃ s'', step env s' p = Some s'' ∧
         tasks s'' = <[p := InstDone u (Fulfilled (VObj ns))]> (tasks s') ∧
         moduleGraph s'' = moduleGraph s' ∧ heap s'' = heap s' ∧
         pendingModules s'' = pendingModules s' ∧ trace s'' = EvReuse u p :: trace s') ∧
    (∀ j st,
       tasks s' !! j = Some (LoadEntry u st) →
       ∃ acts s'', length acts ≤ 2 ∧ play env acts s' = Some s'' ∧
         outcome s'' j = Some (Fulfilled (VObj ns))).
Proof.
  intros Hreach Hi Hload Ho Hf s' Hrtc.
  pose proof (Inv_reachable env s' (reachable_rtc env _ _ Hreach Hrtc)) as HI'.
  pose proof (Inv_reachable env s Hreach) as HI.
  pose proof (returned_frozen_complete _ _ _ _ _ HI Hi Hload Ho Hf) as Hc.
  assert (After s u ns s) as Hinit.
  { split; try done. intros j tj [Hge|[st Hst]] Hj.
    - apply lookup_lt_Some in Hj. lia.
    - rewrite Hst in Hj. by injection Hj as <-. }
  destruct (After_rtc _ _ _ _ _ HI Hinit Hrtc) as [Hc' Hobj Hex Hloads].
  split; [done|]. split; [done|]. split; [|split; [done|split]].
  - intros j tj o Hsub Hj Hlj Hoj. specialize (Hloads _ _ Hsub Hj).
    unfold outcome in Hoj. rewrite Hj in Hoj.
    destruct Hlj as [(st & ->)|[(v & ->)|(p & ->)]]; simpl in *.
    + unfold settled in Hoj. by rewrite Hj in Hoj.
    + unfold settled in Hoj. rewrite Hj in Hoj. injection Hoj as <-.
      by rewrite (Hloads eq_refl).
    + unfold settled in Hoj. destruct (Hloads eq_refl) as [[st Hp]|Hp]; rewrite Hp in Hoj.
      * done.
      * by injection Hoj as <-.
  - intros p st Hp. by eapply step_reuse.
  - intros j st Hj. by eapply complete_load_settles.
Qed.

End C3.

Lemma load_idempotent_witness :
  reachable Scenario.env (Scenario.after Scenario.c_loaded) ∧
  tasks (Scenario.after Scenario.c_loaded) !! 0 = Some (LoadReturn "/c.js" 1) ∧
  load_of "/c.js" (LoadReturn "/c.js" 1) ∧
  outcome (Scenario.after Scenario.c_loaded) 0 = Some (Fulfilled (VObj 2)) ∧
  isFrozen (heap (Scenario.after Scenario.c_loaded)) 2 = true ∧
  ∀ s', rtc (sstep Scenario.env) (Scenario.after Scenario.c_loaded) s' →
    complete (moduleGraph s') (heap s') "/c.js" 2 ∧
    heap s' !! 2 = heap (Scenario.after Scenario.c_loaded) !! 2 ∧
    (∀ j tj o,
       subsequent (Scenario.after Scenario.c_loaded) "/c.js" j → tasks s' !! j = Some tj → load_of "/c.js" tj →
       outcome s' j = Some o → o = Fulfilled (VObj 2)) ∧
    (∀ p, executions "/c.js" p (trace s') = executions "/c.js" p (trace (Scenario.after Scenario.c_loaded))) ∧
    (∀ p st,
       tasks s' !! p = Some (InstEntry "/c.js" st) →
       ∃ s'', step Scenario.env s' p = Some s'' ∧
         tasks s'' = <[p := InstDone "/c.js" (Fulfilled (VObj 2))]> (tasks s') ∧
         moduleGraph s'' = moduleGraph s' ∧ heap s'' = heap s' ∧
         pendingModules s'' = pendingModules s' ∧ trace s'' = EvReuse "/c.js" p :: trace s') ∧
    (∀ j st,
       tasks s' !! j = Some (LoadEntry "/c.js" st) →
       ∃ acts s'', length acts ≤ 2 ∧ play Scenario.env acts s' = Some s'' ∧
         outcome s'' j = Some (Fulfilled (VObj 2))).
Proof.
  split; [apply after_reachable; vm_compute; eauto|].
  split; [vm_compute; reflexivity|].
  split; [right; right; by eexists|].
  split; [vm_compute; reflexivity|].
  split; [vm_compute; reflexivity|].
  apply (load_idempotent Scenario.env (Scenario.after Scenario.c_loaded) 0 (LoadReturn "/c.js" 1) "/c.js" 2).
  - apply after_reachable. vm_compute. eauto.
  - vm_compute. reflexivity.
  - right; right; by eexists.
  - vm_compute. reflexivity.
  - vm_compute. reflexivity.
Defined.

(** Scenario 5 of the specification: bad.js throws.  The load is rejected
    with what the body threw, its stack rewritten, and the error is logged;
    once the clean-up has run the entry is gone, and a second request runs
    the body again instead of waiting. *)
Lemma failed_load_can_be_retried :
  let s1 := run Scenario.env 32 (Scenario.after Scenario.bad_failed) in
  let s2 := run Scenario.env 32 (ssrLoadModule Scenario.env "/bad.js" s1) in
  outcome s1 0 = Some (Rejected (rewrite_stack Scenario.env Scenario.boom)) ∧
  pendingModules s1 !! "/bad.js" = None ∧
  quiescent Scenario.env s2 = true ∧
  outcome s2 3 = Some (Rejected (rewrite_stack Scenario.env Scenario.boom)) ∧
  executions "/bad.js" 1 (trace s2) = 1 ∧ executions "/bad.js" 4 (trace s2) = 1 ∧
  pendingModules s2 !! "/bad.js" = None.
Proof. vm_compute. repeat split. Qed.

(** Scenario 2 of the specification: c.js is loaded, and then asked for
    again.  The second load gives the same object; the second
    [instantiateModule] returns at line 54 and c.js is run once. *)
Lemma second_load_reuses :
  let s1 := run Scenario.env 32 (Scenario.after [Call "/c.js"]) in
  let s2 := run Scenario.env 32 (ssrLoadModule Scenario.env "/c.js" s1) in
  outcome s1 0 = Some (Fulfilled (VObj 2)) ∧
  pendingModules s1 !! "/c.js" = None ∧
  outcome s2 3 = Some (Fulfilled (VObj 2)) ∧
  rev (trace s2)
  = [EvInstantiate "/c.js" 1; EvTransform "/c.js" 1; EvExec "/c.js" 1;
     EvInstantiate "/c.js" 4; EvReuse "/c.js" 4].
Proof. vm_compute. repeat split. Qed.

(* ===================================================================== *)
(** *** Two requests for the modules of a cycle                           *)
(* ===================================================================== *)

Section Waiting.
Context (env : Env).

Lemma mutual_wait_unsettled s p q :
  mutual_wait s p q → settled s p = None ∧ settled s q = None.
Proof.
  intros (u & st & ns & r & rest & a & v & st' & ns' & r' & rest' & b & Hp & _ & Hq & _).
  unfold settled. by rewrite Hp, Hq.
Qed.

Lemma mutual_wait_blocked s p q :
  mutual_wait s p q → step env s p = None ∧ step env s q = None.
Proof.
  intros (u & st & ns & r & rest & a & v & st' & ns' & r' & rest' & b & Hp & Ha & Hq & Hb).
  unfold step, instantiate_resumed, outcome, settled.
  rewrite Hp, Hq, Ha, Hb. by rewrite Hp, Hq.
Qed.

Lemma mutual_wait_sstep s s' p q :
  mutual_wait s p q → sstep env s s' → mutual_wait s' p q.
Proof.
  intros Hw Hstep. pose proof (mutual_wait_blocked _ _ _ Hw) as [Hbp Hbq].
  destruct Hw as (u & st & ns & r & rest & a & v & st' & ns' & r' & rest' & b & Hp & Ha & Hq & Hb).
  inversion Hstep as [url s0|i s0 s0' Hs]; subst.
  - exists u, st, ns, r, rest, a, v, st', ns', r', rest', b.
    simpl. repeat split; by apply lookup_app_l_Some.
  - assert (i ≠ p) as Hnp by (intros ->; congruence).
    assert (i ≠ q) as Hnq by (intros ->; congruence).
    pose proof (step_trans env _ _ _ Hs) as Htrans.
    pose proof (final_stable_trans env _ _ _ _ _ Htrans Ha I) as Ha'.
    pose proof (final_stable_trans env _ _ _ _ _ Htrans Hb I) as Hb'.
    destruct (trans_pool env _ _ _ Htrans) as (ti & t' & new & _ & _ & Hts & _).
    exists u, st, ns, r, rest, a, v, st', ns', r', rest', b.
    repeat split; try done; rewrite Hts; apply lookup_app_l_Some;
      by rewrite list_lookup_insert_ne.
Qed.

(** Nothing that happens later ends a mutual wait: neither instantiation
    ever settles. *)
Lemma mutual_wait_forever s s' p q :
  mutual_wait s p q → rtc (sstep env) s s' → mutual_wait s' p q.
Proof.
  intros Hw Hrtc. induction Hrtc as [|s1 s2 s3 Hstep _ IH]; [done|].
  apply IH. by eapply mutual_wait_sstep.
Qed.

End Waiting.

Lemma both_asked_mutual_wait : mutual_wait (Scenario.after Scenario.both_asked) 2 4.
Proof. vm_compute. do 12 eexists. repeat split. Qed.

(** C2, at the failing input: a.js imports b.js and b.js imports a.js, and
    the server is asked for both.  When both instantiations are under way
    before either reaches its dependency loop, the loop of a.js calls
    [ssrLoadModule] on b.js with the stack [a.js]: b.js is not on it, line 35
    does not apply, and line 38 returns the promise of the instantiation of
    b.js; the loop of b.js gets the promise of the instantiation of a.js in
    the same way.  Each instantiation now awaits the other: nothing can be
    resumed, and in no later state has either load settled. *)
Theorem concurrent_cyclic_loads_never_settle :
  reachable Scenario.env (Scenario.after Scenario.both_asked) ∧
  tasks (Scenario.after Scenario.both_asked) !! 0 = Some (LoadReturn "/a.js" 2) ∧
  tasks (Scenario.after Scenario.both_asked) !! 1 = Some (LoadReturn "/b.js" 4) ∧
  tasks (Scenario.after Scenario.both_asked) !! 6 = Some (LoadReturn "/b.js" 4) ∧
  tasks (Scenario.after Scenario.both_asked) !! 7 = Some (LoadReturn "/a.js" 2) ∧
  quiescent Scenario.env (Scenario.after Scenario.both_asked) = true ∧
  ∀ s', rtc (sstep Scenario.env) (Scenario.after Scenario.both_asked) s' →
    outcome s' 0 = None ∧ outcome s' 1 = None.
Proof.
  split; [apply after_reachable; vm_compute; eauto|].
  do 5 (split; [vm_compute; reflexivity|]).
  intros s' Hrtc.
  pose proof (mutual_wait_forever _ _ _ _ _ both_asked_mutual_wait Hrtc) as Hw.
  apply mutual_wait_unsettled in Hw as [H2 H4].
  assert (tasks s' !! 0 = Some (LoadReturn "/a.js" 2)) as H0.
  { eapply final_stable; [exact Hrtc| |done]. vm_compute. reflexivity. }
  assert (tasks s' !! 1 = Some (LoadReturn "/b.js" 4)) as H1.
  { eapply final_stable; [exact Hrtc| |done]. vm_compute. reflexivity. }
  unfold outcome. by rewrite H0, H1.
Qed.

(* ===================================================================== *)
(** *** The dependency loop                                               *)
(* ===================================================================== *)


Section C4.
Context (env : Env).




End C4.


(** m.js lists c.js, leftpad and d.js.  Its load calls [ssrLoadModule] for
    c.js, gets the answer, then for d.js, gets the answer, and then runs the
    body of m.js; c.js and d.js have been run by then, in this order; no
    load is made for leftpad.  (The trace is newest first.) *)
Lemma preload_order_example :
  let s := run Scenario.env 32 (ssrLoadModule Scenario.env "/m.js" Scenario.start) in
  quiescent Scenario.env s = true ∧
  outcome s 0 = Some (Fulfilled (VObj 2)) ∧
  rev (trace s)
  = [EvInstantiate "/m.js" 1; EvTransform "/m.js" 1;
     EvPreload 1 "/c.js" ["/m.js"] 3;
     EvInstantiate "/c.js" 4; EvTransform "/c.js" 4; EvExec "/c.js" 4;
     EvAwaited 1 3;
     EvPreload 1 "/d.js" ["/m.js"] 6;
     EvInstantiate "/d.js" 7; EvTransform "/d.js" 7; EvExec "/d.js" 7;
     EvAwaited 1 6;
     EvExec "/m.js" 1].
Proof. vm_compute. repeat split. Qed.

Section CacheStable.
Context (env : Env).

Lemma cache_keeps_refl c : cache_keeps c c.
Proof. by intros k p. Qed.

Lemma cache_keeps_trans c1 c2 c3 : cache_keeps c1 c2 → cache_keeps c2 c3 → cache_keeps c1 c3.
Proof. intros H12 H23 k p Hk Hp. eauto. Qed.

Lemma resolve_search_cache id importer rt s r s1 :
  (∀ p, resolveCache s !! cache_key id importer rt = Some p → str_truthy p = false) →
  resolve_search env id importer rt s = (r, s1) →
  cache_keeps (resolveCache s) (resolveCache s1).
Proof.
  intros Hmiss. unfold resolve_search.
  destruct (resolveFrom env id (resolveDir_of env importer rt)) as [e|resolved];
    intros [= _ <-]; simpl; [apply cache_keeps_refl|].
  intros k p Hk Hp. destruct (decide (k = cache_key id importer rt)) as [->|Hne].
  - rewrite (Hmiss _ Hk) in Hp. discriminate.
  - by rewrite lookup_insert_ne.
Qed.

Lemma resolve_cache id importer rt s r s1 :
  resolve env id importer rt s = (r, s1) → cache_keeps (resolveCache s) (resolveCache s1).
Proof.
  unfold resolve.
  destruct (resolveCache s !! cache_key id importer rt) as [cached|] eqn:Hc.
  - destruct (str_truthy cached) eqn:Ht.
    + intros [= _ <-]. apply cache_keeps_refl.
    + apply resolve_search_cache. intros p Hp. congruence.
  - apply resolve_search_cache. intros p Hp. congruence.
Qed.

Lemma nodeRequire_cache id importer rt s r s1 :
  nodeRequire env id importer rt s = (r, s1) → cache_keeps (resolveCache s) (resolveCache s1).
Proof.
  unfold nodeRequire.
  destruct (resolve env id importer rt s) as [[e|path] s0] eqn:Hr;
    [intros [= _ <-]; by eapply resolve_cache|].
  apply resolve_cache in Hr.
  destruct (require env path) as [e|raw]; [by intros [= _ <-]|].
  destruct (interop (stackLimit env) (heap s0) raw) as [e|[v h']]; by intros [= _ <-].
Qed.

Lemma run_body_cache url urlStack ns importer b : ∀ s e s1,
  run_body env url urlStack ns importer b s = (e, s1) →
  cache_keeps (resolveCache s) (resolveCache s1).
Proof.
  induction b as [|e0|key v k IH|dep k IH|dep k IH|src k IH|b IHb handler IHh k IHk];
    intros s e s1; simpl.
  - intros [= _ <-]. apply cache_keeps_refl.
  - intros [= _ <-]. apply cache_keeps_refl.
  - intros H. by apply IH in H.
  - unfold ssrImport. destruct (isExternal dep).
    + destruct (nodeRequire env dep importer (root env) s) as [[e'|v] s0] eqn:Hn.
      * intros [= _ <-]. by eapply nodeRequire_cache.
      * intros H. eapply cache_keeps_trans; [by eapply nodeRequire_cache|by eapply IH].
    + by apply IH.
  - unfold ssrDynamicImport. destruct (isExternal dep).
    + destruct (nodeRequire env dep importer (root env) s) as [[e'|v] s0] eqn:Hn.
      * intros [= _ <-]. by eapply nodeRequire_cache.
      * intros H. eapply cache_keeps_trans; [by eapply nodeRequire_cache|by eapply IH].
    + intros H. by apply IH in H.
  - destruct (ssrExportAll (heap s) ns src) as [[e'|] h1] eqn:Hx.
    + intros [= _ <-]. apply cache_keeps_refl.
    + intros H. by apply IH in H.
  - destruct (run_body env url urlStack ns importer b s) as [[t|] s0] eqn:Hb.
    + destruct (run_body env url urlStack ns importer (handler t) s0) as [[t'|] s2] eqn:Hh.
      * intros [= _ <-]. eapply cache_keeps_trans; [by eapply IHb|by eapply IHh].
      * intros H. eapply cache_keeps_trans; [by eapply IHb|].
        eapply cache_keeps_trans; [by eapply IHh|by eapply IHk].
    + intros H. eapply cache_keeps_trans; [by eapply IHb|by eapply IHk].
Qed.

Lemma execute_cache p url urlStack ns r s :
  cache_keeps (resolveCache s) (resolveCache (execute env p url urlStack ns r s)).
Proof.
  unfold execute.
  destruct (run_body env url urlStack ns _ (code r) (emit (EvExec url p) s)) as [[e|] s1] eqn:Hrun;
    apply run_body_cache in Hrun; [destruct (rewrite_or_throw env e)|]; exact Hrun.
Qed.

Lemma inst_deps_cache p url urlStack ns r rest : ∀ s,
  cache_keeps (resolveCache s) (resolveCache (inst_deps env p url urlStack ns r rest s)).
Proof.
  induction rest as [|dep rest IH]; intros s; simpl.
  - apply execute_cache.
  - destruct (isExternal dep); [apply IH|apply cache_keeps_refl].
Qed.

Lemma with_result_cache p url urlStack ns r s :
  cache_keeps (resolveCache s) (resolveCache (with_result env p url urlStack ns r s)).
Proof. destruct r as [r|]; simpl; [apply inst_deps_cache|apply cache_keeps_refl]. Qed.

Lemma step_cache s i s' :
  step env s i = Some s' → cache_keeps (resolveCache s) (resolveCache s').
Proof.
  unfold step.
  destruct (tasks s !! i) as [[url st|url v|url p|url st|url st ns|url st ns r rest t|url o|url p|b]|];
    try done.
  - intros [= <-]. unfold load_entry. rewrite ensureEntryFromUrl_spec.
    case_bool_decide; [apply cache_keeps_refl|]. simpl.
    destruct (pendingModules s !! url); apply cache_keeps_refl.
  - intros [= <-]. unfold instantiate_entry. rewrite ensureEntryFromUrl_spec. simpl.
    destruct (complete_namespace (heap s) (record_of env url (moduleGraph s)));
      [apply cache_keeps_refl|].
    destruct (ssrTransformResult (record_of env url (moduleGraph s))) as [r|];
      [|apply cache_keeps_refl].
    match goal with |- cache_keeps _ (resolveCache (inst_deps _ _ _ _ _ _ _ ?x)) =>
      apply (inst_deps_cache i url st (length (heap s)) r (deps r) x) end.
  - intros [= <-]. unfold instantiate_transformed.
    destruct (transformRequest env url) as [e|r]; [apply cache_keeps_refl|].
    apply with_result_cache.
  - unfold instantiate_resumed. destruct (outcome s t) as [[v|e]|]; [| |done].
    + intros [= <-]. apply (inst_deps_cache i url st ns r rest (emit (EvAwaited i t) s)).
    + intros [= <-]. apply cache_keeps_refl.
  - unfold cleanup. destruct (settled s p); [|done]. intros [= <-]. apply cache_keeps_refl.
Qed.

Lemma sstep_cache s s' : sstep env s s' → cache_keeps (resolveCache s) (resolveCache s').
Proof.
  intros Hs. inversion Hs as [url s0|i s0 s0' Hstep]; subst.
  - apply cache_keeps_refl.
  - by eapply step_cache.
Qed.

Lemma rtc_cache s s' : rtc (sstep env) s s' → cache_keeps (resolveCache s) (resolveCache s').
Proof.
  induction 1 as [|s1 s2 s3 Hstep _ IH]; [apply cache_keeps_refl|].
  eapply cache_keeps_trans; [by eapply sstep_cache|done].
Qed.

Lemma resolve_cached id importer rt s path :
  resolveCache s !! cache_key id importer rt = Some path → str_truthy path = true →
  resolve env id importer rt s = (inr path, s).
Proof. intros Hc Hp. unfold resolve. by rewrite Hc, Hp. Qed.

Lemma resolve_caches id importer rt s path s1 :
  resolve env id importer rt s = (inr path, s1) →
  resolveCache s1 !! cache_key id importer rt = Some path.
Proof.
  unfold resolve. intros H.
  assert (resolve_search env id importer rt s = (inr path, s1) →
          resolveCache s1 !! cache_key id importer rt = Some path) as Hsearch.
  { unfold resolve_search.
    destruct (resolveFrom env id (resolveDir_of env importer rt)); [discriminate|].
    intros [= <- <-]. simpl. apply lookup_insert_eq. }
  destruct (resolveCache s !! cache_key id importer rt) as [cached|] eqn:Hc; [|by apply Hsearch].
  destruct (str_truthy cached) eqn:Ht; [|by apply Hsearch].
  by injection H as <- <-.
Qed.

(** X1.  Resolution is memoized for good: once [resolve] has answered a
    triple with a non-empty path, then whatever the loader does afterwards
    (calls, resumptions, bodies that resolve other packages), [resolve]
    answers the same triple with the same path and without a search: the
    state, and with it the record of [resolveFrom] calls, stays as it is. *)
Theorem resolve_memoized id importer rt s path s1 :
  resolve env id importer rt s = (inr path, s1) →
  str_truthy path = true →
  ∀ s', rtc (sstep env) s1 s' → resolve env id importer rt s' = (inr path, s').
Proof.
  intros Hr Hp s' Hrtc. apply resolve_cached; [|done].
  eapply rtc_cache; [exact Hrtc| |done]. by eapply resolve_caches.
Qed.

(** X2.  A search that fails is not remembered: [resolve] throws what
    [resolveFrom] threw, the cache is left as it was, and the next [resolve]
    of the same triple calls [resolveFrom] again.  Nothing but the record of
    the search changes. *)
Theorem resolve_failure_not_cached id importer rt s e s1 :
  resolve env id importer rt s = (inl e, s1) →
  resolveFrom env id (resolveDir_of env importer rt) = inl e ∧
  s1 = emit (EvResolveFrom id (resolveDir_of env importer rt)) s ∧
  resolveCache s1 = resolveCache s ∧
  resolve env id importer rt s1
  = (inl e, emit (EvResolveFrom id (resolveDir_of env importer rt)) s1).
Proof.
  unfold resolve. intros H.
  assert (resolve_search env id importer rt s = (inl e, s1) →
          resolveFrom env id (resolveDir_of env importer rt) = inl e ∧
          s1 = emit (EvResolveFrom id (resolveDir_of env importer rt)) s) as Hsearch.
  { unfold resolve_search.
    destruct (resolveFrom env id (resolveDir_of env importer rt)); [|discriminate].
    by intros [= <- <-]. }
  assert (resolveFrom env id (resolveDir_of env importer rt) = inl e ∧
          s1 = emit (EvResolveFrom id (resolveDir_of env importer rt)) s) as [He ->].
  { destruct (resolveCache s !! cache_key id importer rt) as [cached|]; [|by apply Hsearch].
    destruct (str_truthy cached); [discriminate|by apply Hsearch]. }
  split; [done|]. split; [done|]. split; [done|]. simpl.
  assert (∀ x, resolve_search env id importer rt x
               = (inl e, emit (EvResolveFrom id (resolveDir_of env importer rt)) x)) as Hagain.
  { intros x. unfold resolve_search. by rewrite He. }
  destruct (resolveCache s !! cache_key id importer rt) as [cached|] eqn:Hc; [|apply Hagain].
  destruct (str_truthy cached) eqn:Ht; [discriminate|apply Hagain].
Qed.

End CacheStable.

Section Proxies.
Context (env : Env).

Lemma nodeRequire_heap id importer rt s v s1 :
  nodeRequire env id importer rt s = (inr v, s1) →
  ∃ l dflt, v = VObj (length (heap s)) ∧ heap s1 = heap s ++ [InteropProxy l dflt].
Proof.
  intros H. apply nodeRequire_inv in H as (path & s0 & raw & h' & Hr & Hreq & Hi & ->).
  apply interop_inv in Hi as (l & marker & dflt & -> & -> & -> & _).
  exists l, dflt. simpl. done.
Qed.

(** X3.  Every successful [nodeRequire] makes a new proxy: it is allocated
    at the end of the heap, no object that was there is changed, and the
    graph, the table and the activations are left alone.  So two imports,
    even of the same package from the same importer, give two distinct
    objects, both over the module that [require] returned. *)
Theorem nodeRequire_fresh_proxy id importer rt s v1 s1 id' importer' rt' v2 s2 :
  nodeRequire env id importer rt s = (inr v1, s1) →
  nodeRequire env id' importer' rt' s1 = (inr v2, s2) →
  v1 = VObj (length (heap s)) ∧ v2 = VObj (S (length (heap s))) ∧ v1 ≠ v2 ∧
  (∃ l1 d1 l2 d2, heap s2 = heap s ++ [InteropProxy l1 d1; InteropProxy l2 d2]) ∧
  (∀ l, l < length (heap s) → heap s2 !! l = heap s !! l) ∧
  moduleGraph s2 = moduleGraph s ∧ pendingModules s2 = pendingModules s ∧
  tasks s2 = tasks s.
Proof.
  intros H1 H2.
  pose proof (nodeRequire_effect env "" [] 0 _ _ _ _ _ _ H1) as [Hg1 Hp1 (n1 & Ht1 & _) _ _].
  pose proof (nodeRequire_effect env "" [] 0 _ _ _ _ _ _ H2) as [Hg2 Hp2 (n2 & Ht2 & _) _ _].
  assert (∀ id importer rt s v s1, nodeRequire env id importer rt s = (inr v, s1) →
            tasks s1 = tasks s) as Htasks.
  { clear. intros id importer rt s v s1 H.
    apply nodeRequire_inv in H as (path & s0 & raw & h' & Hr & _ & _ & ->). simpl.
    unfold resolve, resolve_search in Hr. repeat case_match; simplify_eq/=; done. }
  apply nodeRequire_heap in H1 as Hh1. destruct Hh1 as (l1 & d1 & -> & Hh1).
  apply nodeRequire_heap in H2 as Hh2. destruct Hh2 as (l2 & d2 & -> & Hh2).
  rewrite Hh1 in Hh2. rewrite Hh1, length_app, Nat.add_comm. simpl.
  split; [done|]. split; [done|]. split; [intros [= E]; lia|]. split.
  - exists l1, d1, l2, d2. rewrite Hh2, <- app_assoc. done.
  - split; [|split; [congruence|split; [congruence|]]].
    + intros l Hl. rewrite Hh2, <- app_assoc. by rewrite lookup_app_l.
    + rewrite (Htasks _ _ _ _ _ _ H2). by rewrite (Htasks _ _ _ _ _ _ H1).
Qed.

End Proxies.

Lemma resolve_memoized_witness :
  resolve Scenario.env "leftpad" (Some "/root/a.js") "/root" Scenario.start
  = (inr "/root/node_modules/leftpad",
     (resolve Scenario.env "leftpad" (Some "/root/a.js") "/root" Scenario.start).2) ∧
  str_truthy "/root/node_modules/leftpad" = true ∧
  ∀ s', rtc (sstep Scenario.env)
          (resolve Scenario.env "leftpad" (Some "/root/a.js") "/root" Scenario.start).2 s' →
    resolve Scenario.env "leftpad" (Some "/root/a.js") "/root" s'
    = (inr "/root/node_modules/leftpad", s').
Proof.
  split; [vm_compute; reflexivity|]. split; [reflexivity|].
  apply (resolve_memoized Scenario.env "leftpad" (Some "/root/a.js") "/root" Scenario.start).
  - vm_compute. reflexivity.
  - reflexivity.
Defined.

Lemma resolve_failure_not_cached_witness :
  resolve Scenario.env_ghost "ghost" None "/root" Scenario.start
  = (inl (Scenario.not_found "ghost"), emit (EvResolveFrom "ghost" "/root") Scenario.start) ∧
  resolveFrom Scenario.env_ghost "ghost" (resolveDir_of Scenario.env_ghost None "/root")
  = inl (Scenario.not_found "ghost") ∧
  emit (EvResolveFrom "ghost" "/root") Scenario.start
  = emit (EvResolveFrom "ghost" (resolveDir_of Scenario.env_ghost None "/root")) Scenario.start ∧
  resolveCache (emit (EvResolveFrom "ghost" "/root") Scenario.start)
  = resolveCache Scenario.start ∧
  resolve Scenario.env_ghost "ghost" None "/root" (emit (EvResolveFrom "ghost" "/root") Scenario.start)
  = (inl (Scenario.not_found "ghost"),
     emit (EvResolveFrom "ghost" (resolveDir_of Scenario.env_ghost None "/root"))
       (emit (EvResolveFrom "ghost" "/root") Scenario.start)).
Proof.
  split; [vm_compute; reflexivity|].
  apply (resolve_failure_not_cached Scenario.env_ghost "ghost" None "/root" Scenario.start).
  vm_compute. reflexivity.
Defined.

Lemma nodeRequire_fresh_proxy_witness :
  nodeRequire Scenario.env "leftpad" None "/root" Scenario.start
  = (inr (VObj 2), (nodeRequire Scenario.env "leftpad" None "/root" Scenario.start).2) ∧
  nodeRequire Scenario.env "leftpad" None "/root"
    (nodeRequire Scenario.env "leftpad" None "/root" Scenario.start).2
  = (inr (VObj 3),
     (nodeRequire Scenario.env "leftpad" None "/root"
        (nodeRequire Scenario.env "leftpad" None "/root" Scenario.start).2).2) ∧
  VObj 2 = VObj (length (heap Scenario.start)) ∧
  VObj 3 = VObj (S (length (heap Scenario.start))) ∧ VObj 2 ≠ VObj 3.
Proof.
  split; [vm_compute; reflexivity|]. split; [vm_compute; reflexivity|].
  pose proof (nodeRequire_fresh_proxy Scenario.env "leftpad" None "/root" Scenario.start
                (VObj 2) (nodeRequire Scenario.env "leftpad" None "/root" Scenario.start).2
                "leftpad" None "/root" (VObj 3)
                (nodeRequire Scenario.env "leftpad" None "/root"
                   (nodeRequire Scenario.env "leftpad" None "/root" Scenario.start).2).2) as H.
  destruct H as (H1 & H2 & H3 & _); [vm_compute; reflexivity|vm_compute; reflexivity|].
  exact (conj H1 (conj H2 H3)).
Defined.

Section ExportAllFrame.

Lemma export_keys_frame keys : ∀ h cur src r h',
  export_keys h cur src keys = (r, h') →
  length h' = length h ∧
  (∀ l, l ≠ cur → h' !! l = h !! l) ∧
  (∀ ps ext tag, h !! cur = Some (Plain ps ext tag) →
     ∃ ps', h' !! cur = Some (Plain ps' ext tag) ∧
       ∀ k, (k = "default" ∨ k ∉ keys) → ps' !! k = ps !! k).
Proof.
  induction keys as [|key keys IH]; intros h cur src r h'; simpl.
  - intros [= _ <-]. split; [done|]. split; [done|]. intros ps ext tag Hc. eauto.
  - destruct (decide (key = "default")) as [->|Hk].
    + intros H. destruct (IH _ _ _ _ _ H) as (Hlen & Hother & Hcur).
      split; [done|]. split; [done|]. intros ps ext tag Hc.
      destruct (Hcur _ _ _ Hc) as (ps' & Hc' & Hkeep). exists ps'. split; [done|].
      intros k [->|Hnin]; [apply Hkeep; by left|].
      apply Hkeep. right. intros Hin. apply Hnin. by apply elem_of_cons; right.
    + destruct (h !! cur) as [o|] eqn:Ho.
      * destruct (defineProperty o key (live_accessor src key)) as [e|o'] eqn:Hd.
        -- intros [= _ <-]. split; [done|]. split; [done|]. intros ps ext tag Hc.
           exists ps. split; [congruence|done].
        -- intros H. apply defineProperty_inr in Hd as (ps0 & ext0 & tag0 & -> & ->).
           destruct (IH _ _ _ _ _ H) as (Hlen & Hother & Hcur).
           pose proof (lookup_lt_Some _ _ _ Ho) as Hlt.
           split; [by rewrite Hlen, length_insert|]. split.
           ++ intros l Hl. rewrite (Hother l Hl). by rewrite list_lookup_insert_ne.
           ++ intros ps ext tag [= <- <- <-].
              destruct (Hcur (<[key := live_accessor src key]> ps0) ext0 tag0) as (ps' & Hc' & Hkeep).
              { by apply list_lookup_insert_eq. }
              exists ps'. split; [done|]. intros k Hk'.
              assert (k ≠ key) as Hne.
              { destruct Hk' as [->|Hnin]; [done|]. intros ->. apply Hnin. apply list_elem_of_here. }
              rewrite Hkeep.
              ** by rewrite lookup_insert_ne.
              ** destruct Hk' as [->|Hnin]; [by left|]. right. intros Hin. apply Hnin.
                 by apply elem_of_cons; right.
      * intros [= _ <-]. split; [done|]. split; [done|]. intros ps ext tag Hc. done.
Qed.

(** X4.  [ssrExportAll] touches one object only, the namespace of the
    running module, and there only the keys that [for ... in] enumerates on
    the source, "default" apart: whether it runs to its end or throws, every
    other object, every other key of the namespace (its own "default"
    included), its tag and its extensibility are what they were.  A source
    that is not an object changes nothing at all. *)
Theorem ssrExportAll_frame h cur sourceModule r h' :
  ssrExportAll h cur sourceModule = (r, h') →
  length h' = length h ∧
  (∀ l, l ≠ cur → h' !! l = h !! l) ∧
  (∀ ps ext tag, h !! cur = Some (Plain ps ext tag) →
     ∃ ps', h' !! cur = Some (Plain ps' ext tag) ∧
       ∀ k, (k = "default" ∨ k ∉ for_in_keys h sourceModule) → ps' !! k = ps !! k) ∧
  ((∀ src, sourceModule ≠ VObj src) → r = None ∧ h' = h).
Proof.
  intros H. unfold ssrExportAll in H.
  destruct sourceModule as [| | | |src];
    try (injection H as <- <-; split; [done|]; split; [done|]; split; [by eauto|done]).
  destruct (export_keys_frame _ _ _ _ _ _ H) as (Hlen & Hother & Hcur).
  split; [done|]. split; [done|]. split; [done|]. intros Hn. by destruct (Hn src).
Qed.

(** The loop runs to its end exactly when no key it has to define is a
    property of the namespace that cannot be redefined. *)
Lemma export_keys_completes keys : ∀ h cur src ps tag,
  h !! cur = Some (Plain ps true tag) →
  (export_keys h cur src keys).1 = None ↔
  ∀ k p, k ∈ keys → k ≠ "default" → ps !! k = Some p → configurable p = true.
Proof.
  induction keys as [|key keys IH]; intros h cur src ps tag Hc; simpl.
  - split; [|done]. intros _ k p Hin. by apply elem_of_nil in Hin.
  - destruct (decide (key = "default")) as [->|Hk].
    + rewrite (IH _ _ _ _ _ Hc). split.
      * intros H k p Hin Hne. apply elem_of_cons in Hin as [->|Hin]; [done|]. by apply H.
      * intros H k p Hin. apply H. by apply elem_of_cons; right.
    + rewrite Hc. simpl. destruct (ps !! key) as [p0|] eqn:Hp0.
      * destruct (configurable p0) eqn:Hcf.
        -- rewrite (IH _ cur src (<[key := live_accessor src key]> ps) tag).
           2:{ apply list_lookup_insert_eq. by eapply lookup_lt_Some. }
           split.
           ++ intros H k p Hin Hne Hp. apply elem_of_cons in Hin as [->|Hin]; [congruence|].
              destruct (decide (k = key)) as [->|Hkk]; [congruence|].
              apply (H k p Hin Hne). by rewrite lookup_insert_ne.
           ++ intros H k p Hin Hne Hp. destruct (decide (k = key)) as [->|Hkk].
              ** rewrite lookup_insert_eq in Hp. by injection Hp as <-.
              ** rewrite lookup_insert_ne in Hp by done.
                 apply (H k p); [by apply elem_of_cons; right|done|done].
        -- simpl. split; [done|]. intros H.
           rewrite (H key p0) in Hcf; [done|apply list_elem_of_here|done|done].
      * rewrite (IH _ cur src (<[key := live_accessor src key]> ps) tag).
        2:{ apply list_lookup_insert_eq. by eapply lookup_lt_Some. }
        split.
        -- intros H k p Hin Hne Hp. apply elem_of_cons in Hin as [->|Hin]; [congruence|].
           destruct (decide (k = key)) as [->|Hkk]; [congruence|].
           apply (H k p Hin Hne). by rewrite lookup_insert_ne.
        -- intros H k p Hin Hne Hp. destruct (decide (k = key)) as [->|Hkk].
           ** rewrite lookup_insert_eq in Hp. by injection Hp as <-.
           ** rewrite lookup_insert_ne in Hp by done.
              apply (H k p); [by apply elem_of_cons; right|done|done].
Qed.

(** X5.  On a namespace that is still extensible, [ssrExportAll] runs to
    its end exactly when none of the keys it has to define (those the source
    enumerates, "default" apart) is a non-configurable property of the
    namespace; otherwise [Object.defineProperty] throws.  On the namespace
    that [instantiateModule] makes, whose only non-configurable property is
    [__esModule] until it is frozen, that is: exactly when the source does
    not enumerate [__esModule]. *)
Theorem ssrExportAll_completes_iff h cur src ps tag :
  h !! cur = Some (Plain ps true tag) →
  ((ssrExportAll h cur (VObj src)).1 = None ↔
   ∀ k p, k ∈ for_in_keys h (VObj src) → k ≠ "default" → ps !! k = Some p →
          configurable p = true) ∧
  ((∀ k p, ps !! k = Some p → configurable p = false → k = "__esModule") →
   ps !! "__esModule" = Some (mkProperty (Data (VBool true) false) false false) →
   ((ssrExportAll h cur (VObj src)).1 = None ↔ "__esModule" ∉ for_in_keys h (VObj src))).
Proof.
  intros Hc.
  assert ((ssrExportAll h cur (VObj src)).1 = None ↔
          ∀ k p, k ∈ for_in_keys h (VObj src) → k ≠ "default" → ps !! k = Some p →
                 configurable p = true) as Hiff.
  { unfold ssrExportAll. by apply export_keys_completes with (tag := tag). }
  split; [done|]. intros Honly Hflag. rewrite Hiff. split.
  - intros H Hin. by specialize (H "__esModule" _ Hin ltac:(done) Hflag).
  - intros Hnin k p Hin Hne Hp. destruct (configurable p) eqn:Hcf; [done|].
    rewrite (Honly _ _ Hp Hcf) in Hin. done.
Qed.

End ExportAllFrame.


Lemma ssrExportAll_frame_witness :
  ssrExportAll Scenario.reexport_heap 1 (VObj 0)
  = (None, (ssrExportAll Scenario.reexport_heap 1 (VObj 0)).2) ∧
  length (ssrExportAll Scenario.reexport_heap 1 (VObj 0)).2 = length Scenario.reexport_heap ∧
  (∀ l, l ≠ 1 → (ssrExportAll Scenario.reexport_heap 1 (VObj 0)).2 !! l
                = Scenario.reexport_heap !! l) ∧
  (∀ ps ext tag, Scenario.reexport_heap !! 1 = Some (Plain ps ext tag) →
     ∃ ps', (ssrExportAll Scenario.reexport_heap 1 (VObj 0)).2 !! 1 = Some (Plain ps' ext tag) ∧
       ∀ k, (k = "default" ∨ k ∉ for_in_keys Scenario.reexport_heap (VObj 0)) →
            ps' !! k = ps !! k) ∧
  ((∀ src, VObj 0 ≠ VObj src) →
   (None : option Exn) = None ∧
   (ssrExportAll Scenario.reexport_heap 1 (VObj 0)).2 = Scenario.reexport_heap).
Proof.
  split; [vm_compute; reflexivity|].
  apply (ssrExportAll_frame Scenario.reexport_heap 1 (VObj 0) None).
  vm_compute. reflexivity.
Defined.

(** The namespace keeps its own "default" and "own", and gets "x". *)
Lemma reexport_example :
  let h' := (ssrExportAll Scenario.reexport_heap 1 (VObj 0)).2 in
  get 8 h' 1 "default" = inr (VNum 9) ∧ get 8 h' 1 "own" = inr (VNum 5) ∧
  get 8 h' 1 "x" = inr (VNum 1).
Proof. vm_compute. done. Qed.

Lemma ssrExportAll_completes_iff_witness :
  Scenario.flagged_source_heap !! 1
  = Some (Plain {[ "__esModule" := mkProperty (Data (VBool true) false) false false ]}
            true (Some "Module")) ∧
  ((ssrExportAll Scenario.flagged_source_heap 1 (VObj 0)).1 = None ↔
   ∀ k p, k ∈ for_in_keys Scenario.flagged_source_heap (VObj 0) → k ≠ "default" →
          ({[ "__esModule" := mkProperty (Data (VBool true) false) false false ]}
             : gmap string Property) !! k = Some p →
          configurable p = true) ∧
  ((∀ k p, ({[ "__esModule" := mkProperty (Data (VBool true) false) false false ]}
              : gmap string Property) !! k = Some p →
           configurable p = false → k = "__esModule") →
   ({[ "__esModule" := mkProperty (Data (VBool true) false) false false ]}
      : gmap string Property) !! "__esModule"
   = Some (mkProperty (Data (VBool true) false) false false) →
   ((ssrExportAll Scenario.flagged_source_heap 1 (VObj 0)).1 = None ↔
    "__esModule" ∉ for_in_keys Scenario.flagged_source_heap (VObj 0))).
Proof.
  split; [reflexivity|].
  apply (ssrExportAll_completes_iff Scenario.flagged_source_heap 1 0
           {[ "__esModule" := mkProperty (Data (VBool true) false) false false ]} (Some "Module")).
  reflexivity.
Defined.

(** X6.  Line 145 freezes the accessors that [ssrExportAll] installed, not
    the values behind them: once the namespace is frozen it is reported
    frozen, and in every heap in which it is still that frozen object a read
    of a re-exported key reads the source at that moment. *)
Theorem reexport_survives_freeze h cur key src :
  bound_to h cur key src →
  isFrozen (freeze h cur) cur = true ∧
  ∀ h2 d, h2 !! cur = freeze h cur !! cur →
    get (S d) h2 cur key = get d h2 src key.
Proof.
  intros (ps & ext & tag & Hc & Hk). split.
  - by eapply isFrozen_freeze.
  - intros h2 d Hsame.
    assert (freeze h cur !! cur = Some (Plain (freeze_property <$> ps) false tag)) as Hf.
    { unfold freeze, update. rewrite Hc. apply list_lookup_insert_eq. by eapply lookup_lt_Some. }
    rewrite Hf in Hsame.
    eapply get_getter; [exact Hsame| |].
    + rewrite lookup_fmap, Hk. reflexivity.
    + reflexivity.
Qed.

Section Records.
Context (env : Env).

(** X7.  No two modules share a namespace: in every state the loader can
    reach, the namespace in the record of a url is an allocated object and is
    the namespace of no other url. *)
Theorem namespaces_distinct s u1 u2 ns :
  reachable env s →
  has_namespace (moduleGraph s) u1 ns → has_namespace (moduleGraph s) u2 ns →
  u1 = u2 ∧ ns < length (heap s).
Proof.
  intros Hreach H1 H2. destruct (Inv_reachable env s Hreach) as [_ HB]. split.
  - by eapply inv_inj.
  - by eapply inv_alloc.
Qed.


Lemma loop_out_settles i u st ns r sm rest s' url o :
  i < length (tasks sm) →
  loop_out env i u st ns r sm rest s' →
  tasks s' !! i = Some (InstDone url o) →
  url = u ∧ pendingModules s' = pendingModules sm.
Proof.
  intros Hlt [ext d rest' -> Hexts Hd Hg Hh Hp Ht Hts|h1 new evs Hexts Hh1 Hnew Hevs Hg Hh Hp Ht Hts
         |h1 new evs e Hexts Hh1 Hnew Hevs Hg Hh Hp Ht Hts
         |h1 new evs e Hexts Hh1 Hnew Hevs Hg Hh Hp Ht Hts];
    rewrite Hts; rewrite lookup_app_l by (by rewrite length_insert);
    rewrite list_lookup_insert_eq by done; intros [= <- <-] || intros [=]; done.
Qed.

Lemma trans_settles s i s' u o :
  trans env s i s' → tasks s' !! i = Some (InstDone u o) →
  ∃ t, tasks s !! i = Some t ∧ inst_url t = Some u ∧ pendingModules s' = pendingModules s.
Proof.
  intros Htrans Hdone.
  destruct Htrans as
    [url st Hi Hin Hg Hh Hp Ht Hts
    |url st p Hi Hin Hpm Hg Hh Hp Ht Hts
    |url st Hi Hin Hpm Hg Hh Hp Ht Hts
    |url st ns Hi Hc Hg Hh Hp Ht Hts
    |url st Hi Hc Hr Hg Hh Hp Ht Hts
    |url st r Hi Hc Hr Hout
    |url st ns e Hi He Hg Hh Hp Ht Hts
    |url st ns r Hi Hr Hout
    |url st ns r rest t e Hi Ho Hg Hh Hp Ht Hts
    |url st ns r rest t v Hi Ho Hout
    |url p o' Hi Ho Hg Hh Hp Ht Hts];
    pose proof (lookup_lt_Some _ _ _ Hi) as Hlt;
    try (rewrite Hts in Hdone;
         rewrite ?lookup_app_l in Hdone by (by rewrite length_insert);
         rewrite list_lookup_insert_eq in Hdone by done;
         first [by simplify_eq
               |simplify_eq; eexists; split; [exact Hi|by split]]).
  - destruct (loop_out_settles _ _ _ _ _ (entered env url s) _ _ _ _ Hlt Hout Hdone) as [-> Hp].
    eexists. split; [exact Hi|]. by split.
  - destruct (loop_out_settles _ _ _ _ _ _ _ _ _ _ Hlt Hout Hdone) as [-> Hp].
    eexists. split; [exact Hi|]. by split.
  - destruct (loop_out_settles _ _ _ _ _ (emit (EvAwaited i t) s) _ _ _ _ Hlt Hout Hdone) as [-> Hp].
    eexists. split; [exact Hi|]. by split.
Qed.

(** X9.  A failed instantiation leaves its namespace behind: when an
    activation of [instantiateModule] rejects, for whatever reason (no
    transform result, a rejected dependency, a throwing body), the record of
    its url still holds the namespace that line 63 stored, not frozen; a
    static import of the url gets that half-built object. *)
Theorem rejected_keeps_namespace s i s' u e :
  reachable env s →
  step env s i = Some s' →
  tasks s' !! i = Some (InstDone u (Rejected e)) →
  ∃ ns mod_, moduleGraph s' !! u = Some mod_ ∧ ssrModule mod_ = Some ns ∧
    isFrozen (heap s') ns = false ∧
    pendingModules s' !! u = Some i.
Proof.
  intros Hreach Hstep Hdone. pose proof (Inv_reachable env s Hreach) as HI.
  pose proof (step_trans env _ _ _ Hstep) as Htrans.
  destruct (Inv_trans env _ _ _ HI Htrans) as [HA' HB'].
  destruct (trans_settles _ _ _ _ _ Htrans Hdone) as (t & Hi & Hu & Hpm).
  destruct HI as [HA _].
  pose proof (inv_flight _ _ HA _ _ _ Hi Hu) as Hentry. rewrite <- Hpm in Hentry.
  pose proof (inv_tasks _ _ _ _ HB' _ _ Hdone) as Hok. simpl in Hok.
  destruct (Hok Hentry) as (ns & (mod_ & Hm & Hns) & Hf).
  by exists ns, mod_.
Qed.

(** X10.  An instantiation never takes up a namespace that is not frozen:
    when [instantiateModule] passes line 54 for a url whose record holds an
    unfrozen namespace (left by an instantiation that failed), it stores a
    new object in the record; the old one is in no record any more, and the
    step leaves it as it is. *)
Theorem unfrozen_namespace_replaced s i u st old :
  reachable env s →
  tasks s !! i = Some (InstEntry u st) →
  has_namespace (moduleGraph s) u old → isFrozen (heap s) old = false →
  ∃ s', step env s i = Some s' ∧
    has_namespace (moduleGraph s') u (length (heap s)) ∧
    old < length (heap s) ∧
    heap s' !! old = heap s !! old ∧
    ∀ u', has_namespace (moduleGraph s') u' old → False.
Proof.
  intros Hreach Hi Hold Hf. destruct (Inv_reachable env s Hreach) as [HA HB].
  pose proof (inv_alloc _ _ _ _ HB _ _ Hold) as Hlt.
  assert (∃ s', step env s i = Some s') as [s' Hstep].
  { unfold step. rewrite Hi. eauto. }
  exists s'. split; [done|].
  assert (complete_namespace (heap s) (record_of env u (moduleGraph s)) = None) as Hcn.
  { destruct Hold as (m & Hm & Hns). unfold complete_namespace, record_of.
    by rewrite Hm, Hns, Hf. }
  assert (∀ g, g = moduleGraph (entered env u s) →
            has_namespace g u (length (heap s)) ∧ ∀ u', has_namespace g u' old → False) as Hgraph.
  { intros g ->. simpl. split.
    - eexists. split; [apply lookup_insert_eq|done].
    - intros u' (m & Hm & Hns). destruct (decide (u' = u)) as [->|Hne].
      + rewrite lookup_insert_eq in Hm. injection Hm as <-. simpl in Hns.
        injection Hns as Hns. lia.
      + rewrite lookup_insert_ne in Hm by done.
        assert (has_namespace (moduleGraph s) u' old) as Hold' by (by exists m).
        by pose proof (inv_inj _ _ _ _ HB _ _ _ Hold Hold'). }
  assert (∀ sm rest r, heap sm = heap s ++ [new_ssrModule] → moduleGraph sm = moduleGraph (entered env u s) →
            loop_out env i u st (length (heap s)) r sm rest s' →
            moduleGraph s' = moduleGraph (entered env u s) ∧ heap s' !! old = heap s !! old) as Hloop.
  { intros sm rest r Hh Hg Hout.
    assert (heap sm !! old = heap s !! old) as Hsm by (rewrite Hh; by apply lookup_app_l).
    assert (old < length (heap sm)) as Hlt' by (rewrite Hh, length_app; lia).
    destruct Hout as [ext d rest' -> Hexts Hd Hg' Hh' Hp Ht Hts
                     |h1 new evs Hexts Hh1 Hnew Hevs Hg' Hh' Hp Ht Hts
                     |h1 new evs e Hexts Hh1 Hnew Hevs Hg' Hh' Hp Ht Hts
                     |h1 new evs e Hexts Hh1 Hnew Hevs Hg' Hh' Hp Ht Hts].
    - split; [congruence|]. by rewrite Hh'.
    - split; [congruence|]. rewrite Hh'. rewrite freeze_lookup_ne by lia.
      destruct Hh1 as (_ & Hother & _). rewrite Hother; [done|done|lia].
    - split; [congruence|]. rewrite Hh'.
      destruct Hh1 as (_ & Hother & _). rewrite Hother; [done|done|lia].
    - split; [congruence|]. rewrite Hh'.
      destruct Hh1 as (_ & Hother & _). rewrite Hother; [done|done|lia]. }
  pose proof (step_trans env _ _ _ Hstep) as Htrans.
  destruct Htrans as
    [url st0 Hi' Hin Hg Hh Hp Ht Hts
    |url st0 p Hi' Hin Hpm Hg Hh Hp Ht Hts
    |url st0 Hi' Hin Hpm Hg Hh Hp Ht Hts
    |url st0 ns Hi' Hc Hg Hh Hp Ht Hts
    |url st0 Hi' Hc Hr Hg Hh Hp Ht Hts
    |url st0 r Hi' Hc Hr Hout
    |url st0 ns e Hi' He Hg Hh Hp Ht Hts
    |url st0 ns r Hi' Hr Hout
    |url st0 ns r rest t e Hi' Ho Hg Hh Hp Ht Hts
    |url st0 ns r rest t v Hi' Ho Hout
    |url p o' Hi' Ho Hg Hh Hp Ht Hts];
    rewrite Hi in Hi'; try discriminate; injection Hi' as <- <-.
  - congruence.
  - destruct (Hgraph _ Hg) as [H1 H2]. split; [done|]. split; [done|]. split; [|done].
    rewrite Hh. by apply lookup_app_l.
  - destruct (Hloop (entered env u s) _ _ eq_refl eq_refl Hout) as [Hg Hh].
    destruct (Hgraph _ Hg) as [H1 H2]. done.
Qed.

(** X11.  A clean-up removes the entry of its own instantiation and no
    other: in every state the loader can reach, as long as the clean-up of
    line 41 has not run, the table still maps its url to its promise; it
    cannot run before that promise has settled, and when it runs
    [pendingModules.delete] finds the entry (it returns true) and the table
    loses exactly that url. *)
Theorem cleanup_own_entry s c u p :
  reachable env s →
  tasks s !! c = Some (Cleanup u p) →
  pendingModules s !! u = Some p ∧
  (settled s p = None → step env s c = None) ∧
  ∀ s', step env s c = Some s' →
    (∃ o, settled s p = Some o) ∧
    tasks s' = <[c := CleanupDone true]> (tasks s) ∧
    pendingModules s' = delete u (pendingModules s) ∧
    moduleGraph s' = moduleGraph s ∧ heap s' = heap s.
Proof.
  intros Hreach Hc. destruct (Inv_reachable env s Hreach) as [HA _].
  pose proof (inv_cleanup _ _ HA _ _ _ Hc) as Hentry.
  split; [done|]. unfold step. rewrite Hc. unfold cleanup. split.
  - by intros ->.
  - intros s'. destruct (settled s p) as [o|]; [|done]. intros [= <-].
    split; [eauto|]. simpl. rewrite Hentry.
    rewrite bool_decide_eq_true_2 by eauto. done.
Qed.

End Records.

Lemma reexport_survives_freeze_witness :
  bound_to (ssrExportAll Scenario.reexport_heap 1 (VObj 0)).2 1 "x" 0 ∧
  isFrozen (freeze (ssrExportAll Scenario.reexport_heap 1 (VObj 0)).2 1) 1 = true ∧
  ∀ h2 d, h2 !! 1 = freeze (ssrExportAll Scenario.reexport_heap 1 (VObj 0)).2 1 !! 1 →
    get (S d) h2 1 "x" = get d h2 0 "x".
Proof.
  assert (bound_to (ssrExportAll Scenario.reexport_heap 1 (VObj 0)).2 1 "x" 0) as Hb.
  { eapply (export_keys_binds (for_in_keys Scenario.reexport_heap (VObj 0))
              Scenario.reexport_heap 1 0).
    - vm_compute. reflexivity.
    - apply list_elem_of_In. vm_compute. tauto.
    - done. }
  split; [exact Hb|].
  apply (reexport_survives_freeze (ssrExportAll Scenario.reexport_heap 1 (VObj 0)).2 1 "x" 0 Hb).
Defined.

(** After the freeze the namespace still follows its source. *)
Lemma reexport_after_freeze_example :
  let h1 := freeze (ssrExportAll Scenario.reexport_heap 1 (VObj 0)).2 1 in
  get 8 h1 1 "x" = inr (VNum 1) ∧
  get 8 (update h1 0 (λ o, assign o "x" (VNum 2))) 1 "x" = inr (VNum 2) ∧
  update h1 1 (λ o, assign o "x" (VNum 3)) = h1.
Proof. vm_compute. done. Qed.

Lemma namespaces_distinct_witness :
  reachable Scenario.env (Scenario.after Scenario.cycle_closing) ∧
  has_namespace (moduleGraph (Scenario.after Scenario.cycle_closing)) "/a.js" 2 ∧
  "/a.js" = "/a.js" ∧ 2 < length (heap (Scenario.after Scenario.cycle_closing)).
Proof.
  assert (has_namespace (moduleGraph (Scenario.after Scenario.cycle_closing)) "/a.js" 2) as Hn.
  { eexists. split; vm_compute; reflexivity. }
  split; [apply after_reachable; vm_compute; eauto|]. split; [exact Hn|].
  apply (namespaces_distinct Scenario.env (Scenario.after Scenario.cycle_closing) "/a.js" "/a.js" 2).
  - apply after_reachable. vm_compute. eauto.
  - exact Hn.
  - exact Hn.
Defined.


Lemma rejected_keeps_namespace_witness :
  reachable Scenario.env (Scenario.after Scenario.bad_transforming) ∧
  step Scenario.env (Scenario.after Scenario.bad_transforming) 1
  = Some (Scenario.after Scenario.bad_failed) ∧
  tasks (Scenario.after Scenario.bad_failed) !! 1
  = Some (InstDone "/bad.js" (Rejected (rewrite_stack Scenario.env Scenario.boom))) ∧
  ∃ ns mod_, moduleGraph (Scenario.after Scenario.bad_failed) !! "/bad.js" = Some mod_ ∧
    ssrModule mod_ = Some ns ∧
    isFrozen (heap (Scenario.after Scenario.bad_failed)) ns = false ∧
    pendingModules (Scenario.after Scenario.bad_failed) !! "/bad.js" = Some 1.
Proof.
  split; [apply after_reachable; vm_compute; eauto|].
  split; [vm_compute; reflexivity|]. split; [vm_compute; reflexivity|].
  apply (rejected_keeps_namespace Scenario.env (Scenario.after Scenario.bad_transforming) 1
           (Scenario.after Scenario.bad_failed) "/bad.js"
           (rewrite_stack Scenario.env Scenario.boom)).
  - apply after_reachable. vm_compute. eauto.
  - vm_compute. reflexivity.
  - vm_compute. reflexivity.
Defined.

Lemma unfrozen_namespace_replaced_witness :
  reachable Scenario.env (Scenario.after Scenario.bad_retried) ∧
  tasks (Scenario.after Scenario.bad_retried) !! 4 = Some (InstEntry "/bad.js" []) ∧
  has_namespace (moduleGraph (Scenario.after Scenario.bad_retried)) "/bad.js" 2 ∧
  isFrozen (heap (Scenario.after Scenario.bad_retried)) 2 = false ∧
  ∃ s', step Scenario.env (Scenario.after Scenario.bad_retried) 4 = Some s' ∧
    has_namespace (moduleGraph s') "/bad.js" (length (heap (Scenario.after Scenario.bad_retried))) ∧
    2 < length (heap (Scenario.after Scenario.bad_retried)) ∧
    heap s' !! 2 = heap (Scenario.after Scenario.bad_retried) !! 2 ∧
    ∀ u', has_namespace (moduleGraph s') u' 2 → False.
Proof.
  assert (has_namespace (moduleGraph (Scenario.after Scenario.bad_retried)) "/bad.js" 2) as Hn.
  { eexists. split; vm_compute; reflexivity. }
  split; [apply after_reachable; vm_compute; eauto|].
  split; [vm_compute; reflexivity|]. split; [exact Hn|]. split; [vm_compute; reflexivity|].
  apply (unfrozen_namespace_replaced Scenario.env (Scenario.after Scenario.bad_retried) 4 "/bad.js" [] 2).
  - apply after_reachable. vm_compute. eauto.
  - vm_compute. reflexivity.
  - exact Hn.
  - vm_compute. reflexivity.
Defined.

Lemma cleanup_own_entry_witness :
  reachable Scenario.env (Scenario.after Scenario.c_loaded) ∧
  tasks (Scenario.after Scenario.c_loaded) !! 2 = Some (Cleanup "/c.js" 1) ∧
  pendingModules (Scenario.after Scenario.c_loaded) !! "/c.js" = Some 1 ∧
  (settled (Scenario.after Scenario.c_loaded) 1 = None →
   step Scenario.env (Scenario.after Scenario.c_loaded) 2 = None) ∧
  ∀ s', step Scenario.env (Scenario.after Scenario.c_loaded) 2 = Some s' →
    (∃ o, settled (Scenario.after Scenario.c_loaded) 1 = Some o) ∧
    tasks s' = <[2 := CleanupDone true]> (tasks (Scenario.after Scenario.c_loaded)) ∧
    pendingModules s' = delete "/c.js" (pendingModules (Scenario.after Scenario.c_loaded)) ∧
    moduleGraph s' = moduleGraph (Scenario.after Scenario.c_loaded) ∧
    heap s' = heap (Scenario.after Scenario.c_loaded).
Proof.
  split; [apply after_reachable; vm_compute; eauto|].
  split; [vm_compute; reflexivity|].
  apply (cleanup_own_entry Scenario.env (Scenario.after Scenario.c_loaded) 2 "/c.js" 1).
  - apply after_reachable. vm_compute. eauto.
  - vm_compute. reflexivity.
Defined.

Section Dynamic.
Context (env : Env).

(** X12.  [ssrDynamicImport] of an external specifier calls [nodeRequire]
    before there is a promise (line 96): when [nodeRequire] throws, no load
    has been started and the throw goes into the running body, not into a
    rejected promise.  A [try] around the import catches the value thrown,
    and the body goes on with its handler.  In a body that does not catch
    it, what the body would do next is not done, the namespace is not
    frozen, and the instantiation is rejected: with what was thrown, its
    stack rewritten, and logged, when line 134 can rewrite the stack; with
    the error of line 134, and nothing logged, when it cannot. *)
Theorem external_dynamic_import_throws p url st ns r s pre dep k t s1 s2 :
  p < length (tasks s) →
  isExternal dep = true →
  (∀ k', run_body env url st ns
           (match moduleGraph s !! url with Some mod_ => file mod_ | None => None end)
           (pre k') (emit (EvExec url p) s)
         = run_body env url st ns
             (match moduleGraph s !! url with Some mod_ => file mod_ | None => None end)
             k' s1) →
  code r = pre (BDynamicImport dep k) →
  nodeRequire env dep (match moduleGraph s !! url with Some mod_ => file mod_ | None => None end)
    (root env) s1 = (inl t, s2) →
  tasks s2 = tasks s1 ∧
  (∀ handler k2,
     run_body env url st ns
       (match moduleGraph s !! url with Some mod_ => file mod_ | None => None end)
       (BTry (BDynamicImport dep k) handler k2) s1
     = match run_body env url st ns
               (match moduleGraph s !! url with Some mod_ => file mod_ | None => None end)
               (handler t) s2 with
       | (Some t', s3) => (Some t', s3)
       | (None, s3) =>
           run_body env url st ns
             (match moduleGraph s !! url with Some mod_ => file mod_ | None => None end) k2 s3
       end) ∧
  heap (execute env p url st ns r s) = heap s2 ∧
  match rewrite_or_throw env t with
  | inr e' =>
      execute env p url st ns r s
      = set_task p (InstDone url (Rejected e')) (emit (EvLogError url e') s2)
  | inl e134 =>
      execute env p url st ns r s = set_task p (InstDone url (Rejected e134)) s2
  end.
Proof.
  intros Hlt Hext Hpre Hcode Hreq.
  assert (run_body env url st ns
            (match moduleGraph s !! url with Some mod_ => file mod_ | None => None end)
            (code r) (emit (EvExec url p) s) = (Some t, s2)) as Hrun.
  { rewrite Hcode, Hpre. simpl. unfold ssrDynamicImport. by rewrite Hext, Hreq. }
  split; [|split; [|split]].
  - revert Hreq. unfold nodeRequire, resolve, resolve_search.
    repeat case_match; simplify_eq; intros; by simplify_eq.
  - intros handler k2. simpl. unfold ssrDynamicImport. by rewrite Hext, Hreq.
  - unfold execute. rewrite Hrun. by destruct (rewrite_or_throw env t).
  - unfold execute. rewrite Hrun. by destruct (rewrite_or_throw env t).
Qed.

(** X13.  A dynamic import of a module that is on the call stack, the
    running module itself included, starts no instantiation: the body goes
    on at once, and the load that [ssrDynamicImport] called is answered at
    the cycle check of line 35 with the namespace in the record, the object
    that a static import of the same specifier gives. *)
Theorem dynamic_import_on_stack s url st ns importer dep k target :
  isExternal dep = false →
  unwrapId env dep ∈ st ++ [url] →
  has_namespace (moduleGraph s) (unwrapId env dep) target →
  run_body env url st ns importer (BDynamicImport dep k) s
  = run_body env url st ns importer k (spawn (LoadEntry (unwrapId env dep) (st ++ [url])) s) ∧
  ∃ s2, step env (spawn (LoadEntry (unwrapId env dep) (st ++ [url])) s) (length (tasks s)) = Some s2 ∧
    tasks s2 = tasks s ++ [LoadNow (unwrapId env dep) (VObj target)] ∧
    outcome s2 (length (tasks s)) = Some (Fulfilled (VObj target)) ∧
    ssrImport_internal env s dep = VObj target ∧
    moduleGraph s2 = moduleGraph s ∧ heap s2 = heap s ∧
    pendingModules s2 = pendingModules s ∧ trace s2 = trace s.
Proof.
  intros Hext Hin (mod_ & Hm & Hns). split.
  - simpl. unfold ssrDynamicImport. by rewrite Hext.
  - assert (tasks (spawn (LoadEntry (unwrapId env dep) (st ++ [url])) s) !! length (tasks s)
            = Some (LoadEntry (unwrapId env dep) (st ++ [url]))) as Hi.
    { simpl. rewrite lookup_app_r by done. by rewrite Nat.sub_diag. }
    rewrite (step_cycle env _ _ _ _ Hi Hin). eexists. split; [done|]. simpl.
    unfold record_of, ensured, ssrImport_internal. rewrite Hm, Hns. simpl.
    split; [|split; [|by destruct s]].
    + rewrite insert_app_r_alt by done. by rewrite Nat.sub_diag.
    + unfold outcome, settled. simpl.
      rewrite list_lookup_insert_eq by (rewrite length_app; simpl; lia). done.
Qed.

End Dynamic.

Lemma external_dynamic_import_throws_witness :
  1 < length (tasks (Scenario.after Scenario.ghost_transforming)) ∧
  isExternal "ghost" = true ∧
  nodeRequire Scenario.env_dynamic "ghost" (Some "/root/ghost.js") "/root"
    (with_heap (emit (EvExec "/ghost.js" 1) (Scenario.after Scenario.ghost_transforming))
       (update (heap (Scenario.after Scenario.ghost_transforming)) 2 (λ o, assign o "x" (VNum 1))))
  = (inl (ThrownError (Scenario.not_found "ghost")),
     emit (EvResolveFrom "ghost" "/root")
       (with_heap (emit (EvExec "/ghost.js" 1) (Scenario.after Scenario.ghost_transforming))
          (update (heap (Scenario.after Scenario.ghost_transforming)) 2
             (λ o, assign o "x" (VNum 1))))) ∧
  (run_body Scenario.env_dynamic "/ghost.js" [] 2 (Some "/root/ghost.js")
     (BTry (BDynamicImport "ghost" (BSet "y" (VNum 2) BDone))
           (λ t, BSet "caught" (VBool true) BDone) BDone)
     (with_heap (emit (EvExec "/ghost.js" 1) (Scenario.after Scenario.ghost_transforming))
        (update (heap (Scenario.after Scenario.ghost_transforming)) 2
           (λ o, assign o "x" (VNum 1))))).1 = None ∧
  execute Scenario.env_dynamic 1 "/ghost.js" [] 2 (mkResult Scenario.bodyGhost [])
    (Scenario.after Scenario.ghost_transforming)
  = set_task 1 (InstDone "/ghost.js" (Rejected (rewrite_stack Scenario.env_dynamic (Scenario.not_found "ghost"))))
      (emit (EvLogError "/ghost.js" (rewrite_stack Scenario.env_dynamic (Scenario.not_found "ghost")))
         (emit (EvResolveFrom "ghost" "/root")
            (with_heap (emit (EvExec "/ghost.js" 1) (Scenario.after Scenario.ghost_transforming))
               (update (heap (Scenario.after Scenario.ghost_transforming)) 2
                  (λ o, assign o "x" (VNum 1)))))) ∧
  get 8 (heap (execute Scenario.env_dynamic 1 "/ghost.js" [] 2 (mkResult Scenario.bodyGhost [])
                 (Scenario.after Scenario.ghost_transforming))) 2 "y" = inr VUndef.
Proof.
  split; [vm_compute; lia|]. split; [reflexivity|]. split; [vm_compute; reflexivity|].
  destruct (external_dynamic_import_throws Scenario.env_dynamic 1 "/ghost.js" [] 2
              (mkResult Scenario.bodyGhost []) (Scenario.after Scenario.ghost_transforming)
              (λ k', BSet "x" (VNum 1) k') "ghost" (BSet "y" (VNum 2) BDone)
              (ThrownError (Scenario.not_found "ghost"))
              (with_heap (emit (EvExec "/ghost.js" 1) (Scenario.after Scenario.ghost_transforming))
                 (update (heap (Scenario.after Scenario.ghost_transforming)) 2
                    (λ o, assign o "x" (VNum 1))))
              (emit (EvResolveFrom "ghost" "/root")
                 (with_heap (emit (EvExec "/ghost.js" 1) (Scenario.after Scenario.ghost_transforming))
                    (update (heap (Scenario.after Scenario.ghost_transforming)) 2
                       (λ o, assign o "x" (VNum 1))))))
    as (H1 & H2 & H3 & H4).
  - vm_compute. lia.
  - reflexivity.
  - intros k'. reflexivity.
  - reflexivity.
  - vm_compute. reflexivity.
  - split; [|split; [exact H4|]].
    + etrans; [exact (f_equal fst (H2 (λ t, BSet "caught" (VBool true) BDone) BDone))|].
      vm_compute. reflexivity.
    + rewrite H3. vm_compute. reflexivity.
Defined.

Lemma dynamic_import_on_stack_witness :
  isExternal "/self.js" = false ∧
  unwrapId Scenario.env_dynamic "/self.js" ∈ [] ++ ["/self.js"] ∧
  has_namespace (moduleGraph (Scenario.after Scenario.self_transforming))
    (unwrapId Scenario.env_dynamic "/self.js") 2 ∧
  ∃ s2, step Scenario.env_dynamic
          (spawn (LoadEntry (unwrapId Scenario.env_dynamic "/self.js") ([] ++ ["/self.js"]))
             (Scenario.after Scenario.self_transforming))
          (length (tasks (Scenario.after Scenario.self_transforming))) = Some s2 ∧
    tasks s2 = tasks (Scenario.after Scenario.self_transforming)
               ++ [LoadNow (unwrapId Scenario.env_dynamic "/self.js") (VObj 2)] ∧
    outcome s2 (length (tasks (Scenario.after Scenario.self_transforming)))
    = Some (Fulfilled (VObj 2)) ∧
    ssrImport_internal Scenario.env_dynamic (Scenario.after Scenario.self_transforming) "/self.js"
    = VObj 2 ∧
    moduleGraph s2 = moduleGraph (Scenario.after Scenario.self_transforming) ∧
    heap s2 = heap (Scenario.after Scenario.self_transforming) ∧
    pendingModules s2 = pendingModules (Scenario.after Scenario.self_transforming) ∧
    trace s2 = trace (Scenario.after Scenario.self_transforming).
Proof.
  assert (has_namespace (moduleGraph (Scenario.after Scenario.self_transforming))
            (unwrapId Scenario.env_dynamic "/self.js") 2) as Hn.
  { eexists. split; vm_compute; reflexivity. }
  split; [reflexivity|]. split; [apply list_elem_of_here|]. split; [exact Hn|].
  apply (dynamic_import_on_stack Scenario.env_dynamic (Scenario.after Scenario.self_transforming)
           "/self.js" [] 2 None "/self.js" BDone 2).
  - reflexivity.
  - apply list_elem_of_here.
  - exact Hn.
Defined.

(** self.js runs to its end: its load is fulfilled with its namespace, and
    so is the load its dynamic import started, without a second
    instantiation. *)
Lemma self_import_example :
  let s := run Scenario.env_dynamic 32 (ssrLoadModule Scenario.env_dynamic "/self.js" Scenario.start) in
  quiescent Scenario.env_dynamic s = true ∧
  outcome s 0 = Some (Fulfilled (VObj 2)) ∧
  tasks s !! 3 = Some (LoadNow "/self.js" (VObj 2)) ∧
  rev (trace s) = [EvInstantiate "/self.js" 1; EvTransform "/self.js" 1; EvExec "/self.js" 1].
Proof. vm_compute. repeat split. Qed.

Section Marks.
Context (env : Env).

Lemma marks_kept_refl h : marks_kept h h.
Proof. intros l o Hl Hm. eauto. Qed.

Lemma marks_kept_trans h1 h2 h3 : marks_kept h1 h2 → marks_kept h2 h3 → marks_kept h1 h3.
Proof.
  intros H12 H23 l o Hl Hm. destruct (H12 _ _ Hl Hm) as (o' & Hl' & Hm'). eauto.
Qed.

Lemma marks_kept_alloc h o : marks_kept h (h ++ [o]).
Proof. intros l o0 Hl Hm. exists o0. split; [by apply lookup_app_l_Some|done]. Qed.

Lemma marks_kept_update h l f :
  (∀ o, marked o → marked (f o)) → marks_kept h (update h l f).
Proof.
  intros Hf l' o Hl Hm. unfold update. destruct (h !! l) as [o0|] eqn:Ho; [|eauto].
  destruct (decide (l' = l)) as [->|Hne].
  - exists (f o0). split; [|apply Hf; congruence].
    apply list_lookup_insert_eq. by eapply lookup_lt_Some.
  - exists o. split; [|done]. by rewrite list_lookup_insert_ne.
Qed.

Lemma marked_assign o k v : marked o → marked (assign o k v).
Proof.
  intros (ps & ext & -> & Hflag). simpl.
  destruct (decide (k = "__esModule")) as [->|Hne].
  - rewrite Hflag. simpl. by exists ps, ext.
  - destruct (ps !! k) as [p|] eqn:Hp.
    + destruct (slot p) as [v0 [|]|]; try (by exists ps, ext).
      eexists _, ext. split; [done|]. by rewrite lookup_insert_ne.
    + destruct ext; [|by exists ps, false].
      eexists _, true. split; [done|]. by rewrite lookup_insert_ne.
Qed.

Lemma marked_freeze o : marked o → marked (freeze_obj o).
Proof.
  intros (ps & ext & -> & Hflag). simpl. eexists _, false. split; [done|].
  rewrite lookup_fmap, Hflag. reflexivity.
Qed.

Lemma marked_defineProperty o key desc o' :
  marked o → defineProperty o key desc = inr o' → marked o'.
Proof.
  intros (ps & ext & -> & Hflag). simpl.
  destruct (decide (key = "__esModule")) as [->|Hne].
  - rewrite Hflag. simpl. discriminate.
  - destruct (ps !! key) as [p|].
    + destruct (configurable p); [|discriminate]. intros [= <-].
      eexists _, ext. split; [done|]. by rewrite lookup_insert_ne.
    + destruct ext; [|discriminate]. intros [= <-].
      eexists _, true. split; [done|]. by rewrite lookup_insert_ne.
Qed.

Lemma export_keys_marks keys : ∀ h cur src r h',
  export_keys h cur src keys = (r, h') → marks_kept h h'.
Proof.
  induction keys as [|key keys IH]; intros h cur src r h'; simpl.
  - intros [= _ <-]. apply marks_kept_refl.
  - destruct (decide (key = "default")); [apply IH|].
    destruct (h !! cur) as [o|] eqn:Ho; [|intros [= _ <-]; apply marks_kept_refl].
    destruct (defineProperty o key (live_accessor src key)) as [e|o'] eqn:Hd;
      [intros [= _ <-]; apply marks_kept_refl|].
    intros H. eapply marks_kept_trans; [|by eapply IH].
    intros l o0 Hl Hm. destruct (decide (l = cur)) as [->|Hne].
    + exists o'. split; [apply list_lookup_insert_eq; by eapply lookup_lt_Some|].
      eapply marked_defineProperty; [|exact Hd]. congruence.
    + exists o0. split; [|done]. by rewrite list_lookup_insert_ne.
Qed.

Lemma ssrExportAll_marks h cur src r h' :
  ssrExportAll h cur src = (r, h') → marks_kept h h'.
Proof.
  unfold ssrExportAll. destruct src; try (intros [= _ <-]; apply marks_kept_refl).
  apply export_keys_marks.
Qed.

Lemma nodeRequire_marks id importer rt s r s1 :
  nodeRequire env id importer rt s = (r, s1) → marks_kept (heap s) (heap s1).
Proof.
  unfold nodeRequire.
  destruct (resolve env id importer rt s) as [[e|path] s0] eqn:Hr;
    pose proof (resolve_heap env id importer rt s) as Hh; rewrite Hr in Hh; simpl in Hh;
    [intros [= _ <-]; rewrite Hh; apply marks_kept_refl|].
  destruct (require env path) as [e|raw]; [intros [= _ <-]; rewrite Hh; apply marks_kept_refl|].
  destruct (interop (stackLimit env) (heap s0) raw) as [e|[v h']] eqn:Hi;
    [intros [= _ <-]; rewrite Hh; apply marks_kept_refl|].
  intros [= _ <-]. simpl. apply interop_inv in Hi as (l & marker & dflt & _ & _ & -> & _).
  rewrite Hh. apply marks_kept_alloc.
Qed.

Lemma run_body_marks url urlStack ns importer b : ∀ s e s1,
  run_body env url urlStack ns importer b s = (e, s1) → marks_kept (heap s) (heap s1).
Proof.
  induction b as [|e0|key v k IH|dep k IH|dep k IH|src k IH|b IHb handler IHh k IHk];
    intros s e s1; simpl.
  - intros [= _ <-]. apply marks_kept_refl.
  - intros [= _ <-]. apply marks_kept_refl.
  - intros H. apply IH in H. simpl in H. eapply marks_kept_trans; [|exact H].
    apply marks_kept_update. intros o. apply marked_assign.
  - unfold ssrImport. destruct (isExternal dep).
    + destruct (nodeRequire env dep importer (root env) s) as [[e'|v] s0] eqn:Hn.
      * intros [= _ <-]. by eapply nodeRequire_marks.
      * intros H. eapply marks_kept_trans; [by eapply nodeRequire_marks|by eapply IH].
    + by apply IH.
  - unfold ssrDynamicImport. destruct (isExternal dep).
    + destruct (nodeRequire env dep importer (root env) s) as [[e'|v] s0] eqn:Hn.
      * intros [= _ <-]. by eapply nodeRequire_marks.
      * intros H. eapply marks_kept_trans; [by eapply nodeRequire_marks|by eapply IH].
    + intros H. by apply IH in H.
  - destruct (ssrExportAll (heap s) ns src) as [[e'|] h1] eqn:Hx.
    + intros [= _ <-]. by eapply ssrExportAll_marks.
    + intros H. apply IH in H. eapply marks_kept_trans; [by eapply ssrExportAll_marks|exact H].
  - destruct (run_body env url urlStack ns importer b s) as [[t|] s0] eqn:Hb.
    + destruct (run_body env url urlStack ns importer (handler t) s0) as [[t'|] s2] eqn:Hh.
      * intros [= _ <-]. eapply marks_kept_trans; [by eapply IHb|by eapply IHh].
      * intros H. eapply marks_kept_trans; [by eapply IHb|].
        eapply marks_kept_trans; [by eapply IHh|by eapply IHk].
    + intros H. eapply marks_kept_trans; [by eapply IHb|by eapply IHk].
Qed.

Lemma execute_marks p url urlStack ns r s :
  marks_kept (heap s) (heap (execute env p url urlStack ns r s)).
Proof.
  unfold execute.
  destruct (run_body env url urlStack ns _ (code r) (emit (EvExec url p) s)) as [[e|] s1] eqn:Hrun;
    apply run_body_marks in Hrun; simpl in *; [by destruct (rewrite_or_throw env e)|].
  eapply marks_kept_trans; [exact Hrun|]. apply marks_kept_update. apply marked_freeze.
Qed.

Lemma inst_deps_marks p url urlStack ns r rest : ∀ s,
  marks_kept (heap s) (heap (inst_deps env p url urlStack ns r rest s)).
Proof.
  induction rest as [|dep rest IH]; intros s; simpl.
  - apply execute_marks.
  - destruct (isExternal dep); [apply IH|apply marks_kept_refl].
Qed.

Lemma step_marks s i s' : step env s i = Some s' → marks_kept (heap s) (heap s').
Proof.
  unfold step.
  destruct (tasks s !! i) as [[url st|url v|url p|url st|url st ns|url st ns r rest t|url o|url p|b]|];
    try done.
  - intros [= <-]. unfold load_entry. rewrite ensureEntryFromUrl_spec.
    case_bool_decide; [apply marks_kept_refl|]. simpl.
    destruct (pendingModules s !! url); apply marks_kept_refl.
  - intros [= <-]. unfold instantiate_entry. rewrite ensureEntryFromUrl_spec. simpl.
    destruct (complete_namespace (heap s) (record_of env url (moduleGraph s)));
      [apply marks_kept_refl|].
    destruct (ssrTransformResult (record_of env url (moduleGraph s))) as [r|];
      [|apply marks_kept_alloc].
    eapply marks_kept_trans; [apply (marks_kept_alloc _ new_ssrModule)|].
    match goal with |- marks_kept _ (heap (inst_deps _ _ _ _ _ _ _ ?x)) =>
      apply (inst_deps_marks i url st (length (heap s)) r (deps r) x) end.
  - intros [= <-]. unfold instantiate_transformed.
    destruct (transformRequest env url) as [e|[r|]]; simpl; try apply marks_kept_refl.
    apply inst_deps_marks.
  - unfold instantiate_resumed. destruct (outcome s t) as [[v|e]|]; [| |done].
    + intros [= <-]. apply (inst_deps_marks i url st ns r rest (emit (EvAwaited i t) s)).
    + intros [= <-]. apply marks_kept_refl.
  - unfold cleanup. destruct (settled s p); [|done]. intros [= <-]. apply marks_kept_refl.
Qed.

(** Which records hold which namespace after a resumption: those that did,
    and the record of the url whose instantiation has just made one. *)
Lemma trans_namespaces s i s' u ns :
  trans env s i s' → has_namespace (moduleGraph s') u ns →
  has_namespace (moduleGraph s) u ns ∨ ns = length (heap s).
Proof.
  intros Htrans Hn.
  assert (∀ g url, g = ensured env url (moduleGraph s) → has_namespace g u ns →
            has_namespace (moduleGraph s) u ns) as Hens.
  { intros g url -> H. by apply has_namespace_ensured in H. }
  assert (∀ g url, g = moduleGraph (entered env url s) → has_namespace g u ns →
            has_namespace (moduleGraph s) u ns ∨ ns = length (heap s)) as Hent.
  { intros g url -> (m & Hm & Hns). simpl in Hm. destruct (decide (u = url)) as [->|Hne].
    - rewrite lookup_insert_eq in Hm. injection Hm as <-. simpl in Hns. right. congruence.
    - rewrite lookup_insert_ne in Hm by done. left. by exists m. }
  assert (∀ u0 st ns0 r sm rest, loop_out env i u0 st ns0 r sm rest s' →
            moduleGraph s' = moduleGraph sm) as Hloop.
  { intros u0 st ns0 r sm rest [? ? ? ? ? ? Hg|? ? ? ? ? ? ? Hg|? ? ? ? ? ? ? ? Hg
                                       |? ? ? ? ? ? ? ? Hg]; exact Hg. }
  destruct Htrans as
    [url st Hi Hin Hg Hh Hp Ht Hts
    |url st p Hi Hin Hpm Hg Hh Hp Ht Hts
    |url st Hi Hin Hpm Hg Hh Hp Ht Hts
    |url st ns0 Hi Hc Hg Hh Hp Ht Hts
    |url st Hi Hc Hr Hg Hh Hp Ht Hts
    |url st r Hi Hc Hr Hout
    |url st ns0 e Hi He Hg Hh Hp Ht Hts
    |url st ns0 r Hi Hr Hout
    |url st ns0 r rest t e Hi Ho Hg Hh Hp Ht Hts
    |url st ns0 r rest t v Hi Ho Hout
    |url p o' Hi Ho Hg Hh Hp Ht Hts];
    try (left; by eapply Hens); try (left; congruence); try (by eapply Hent).
  - eapply Hent; [|done]. by eapply Hloop.
  - left. pose proof (Hloop _ _ _ _ _ _ Hout) as E. simpl in E. by rewrite <- E.
  - left. pose proof (Hloop _ _ _ _ _ _ Hout) as E. simpl in E. by rewrite <- E.
Qed.

Lemma step_fresh_marked s i s' u :
  step env s i = Some s' → has_namespace (moduleGraph s') u (length (heap s)) →
  (∀ x, ¬ has_namespace (moduleGraph s) x (length (heap s))) →
  ∃ o, heap s' !! length (heap s) = Some o ∧ marked o.
Proof.
  intros Hstep Hn Hfresh.
  assert (marked new_ssrModule) as Hnew by (by eexists _, _).
  assert (∀ sm, heap sm = heap s ++ [new_ssrModule] →
            ∀ h', marks_kept (heap sm) h' → ∃ o, h' !! length (heap s) = Some o ∧ marked o) as Hkeep.
  { intros sm Hsm h' Hk. apply (Hk (length (heap s)) new_ssrModule); [|done].
    rewrite Hsm. rewrite lookup_app_r by done. by rewrite Nat.sub_diag. }
  pose proof (step_trans env _ _ _ Hstep) as Htrans.
  assert (∀ g, g = moduleGraph s ∨ (∃ url, g = ensured env url (moduleGraph s)) →
            has_namespace g u (length (heap s)) → False) as Hold.
  { intros g [->|[url ->]] H; [by eapply Hfresh|].
    apply has_namespace_ensured in H. by eapply Hfresh. }
  assert (∀ u0 st ns0 r sm rest, loop_out env i u0 st ns0 r sm rest s' →
            moduleGraph s' = moduleGraph sm) as Hloop.
  { intros u0 st ns0 r sm rest [? ? ? ? ? ? Hg|? ? ? ? ? ? ? Hg|? ? ? ? ? ? ? ? Hg
                                       |? ? ? ? ? ? ? ? Hg]; exact Hg. }
  revert Hstep. unfold step.
  destruct Htrans as
    [url st Hi Hin Hg Hh Hp Ht Hts
    |url st p Hi Hin Hpm Hg Hh Hp Ht Hts
    |url st Hi Hin Hpm Hg Hh Hp Ht Hts
    |url st ns0 Hi Hc Hg Hh Hp Ht Hts
    |url st Hi Hc Hr Hg Hh Hp Ht Hts
    |url st r Hi Hc Hr Hout
    |url st ns0 e Hi He Hg Hh Hp Ht Hts
    |url st ns0 r Hi Hr Hout
    |url st ns0 r rest t e Hi Ho Hg Hh Hp Ht Hts
    |url st ns0 r rest t v Hi Ho Hout
    |url p o' Hi Ho Hg Hh Hp Ht Hts];
    try (exfalso; eapply Hold; [|exact Hn]; eauto; fail).
  - intros _. exists new_ssrModule. split; [|done]. rewrite Hh.
    rewrite lookup_app_r by done. by rewrite Nat.sub_diag.
  - rewrite Hi. intros [= Hs']. unfold instantiate_entry in Hs'.
    rewrite ensureEntryFromUrl_spec in Hs'. simpl in Hs'. rewrite Hc, Hr in Hs'.
    rewrite <- Hs'.
    match goal with |- ∃ o, heap (inst_deps _ _ _ _ _ _ _ ?x) !! _ = _ ∧ _ =>
      apply (Hkeep x eq_refl); apply (inst_deps_marks i url st (length (heap s)) r (deps r) x) end.
  - exfalso. eapply Hold; [left; reflexivity|].
    pose proof (Hloop _ _ _ _ _ _ Hout) as E. simpl in E. by rewrite <- E.
Qed.

Lemma step_namespaces_marked s i s' :
  Inv s → namespaces_marked (moduleGraph s) (heap s) → step env s i = Some s' →
  namespaces_marked (moduleGraph s') (heap s').
Proof.
  intros [_ HB] Hm Hstep u ns Hn.
  destruct (trans_namespaces _ _ _ _ _ (step_trans env _ _ _ Hstep) Hn) as [Hold| ->].
  - destruct (Hm _ _ Hold) as (o & Ho & Hmo). by eapply step_marks.
  - eapply step_fresh_marked; [done|done|].
    intros x Hx. pose proof (inv_alloc _ _ _ _ HB _ _ Hx). lia.
Qed.

Lemma rtc_namespaces_marked s s' :
  Inv s → namespaces_marked (moduleGraph s) (heap s) → rtc (sstep env) s s' →
  namespaces_marked (moduleGraph s') (heap s').
Proof.
  intros HI Hm Hrtc. induction Hrtc as [|s1 s2 s3 Hstep _ IH]; [done|].
  apply IH; [by eapply Inv_sstep|].
  inversion Hstep as [url s0|i s0 s0' Hs]; subst; [exact Hm|].
  by eapply step_namespaces_marked.
Qed.

(** X14.  Every namespace the graph holds bears the mark of lines 58-61, for
    good: in every state the loader can reach, the namespace in a record is
    an ordinary object tagged "Module" whose [__esModule] is [true]; no body
    can overwrite, redefine or remove it, since it is neither writable nor
    configurable, and being not enumerable it is not among the keys that a
    [for ... in] over the namespace gives to [ssrExportAll]. *)
Theorem namespace_keeps_mark s u ns :
  reachable env s → has_namespace (moduleGraph s) u ns →
  (∃ ps ext, heap s !! ns = Some (Plain ps ext (Some "Module")) ∧
     ps !! "__esModule" = Some esModule_flag) ∧
  (∀ d, get d (heap s) ns "__esModule" = inr (VBool true)) ∧
  "__esModule" ∉ for_in_keys (heap s) (VObj ns).
Proof.
  intros (s0 & Hinit & Hrtc) Hn.
  assert (namespaces_marked (moduleGraph s0) (heap s0)) as Hm0.
  { intros x l (m & Hm & Hns). destruct Hinit as (_ & _ & _ & Hg).
    apply Hg in Hm. simpl in Hm. congruence. }
  pose proof (rtc_namespaces_marked _ _ (Inv_initial _ Hinit) Hm0 Hrtc) as Hm.
  destruct (Hm _ _ Hn) as (o & Ho & ps & ext & -> & Hflag).
  split; [by exists ps, ext|]. split.
  - intros d. by eapply get_data.
  - intros Hin. apply (for_in_keys_plain _ _ _ _ _ _ Ho) in Hin as (p & Hp & Hen).
    rewrite Hflag in Hp. by injection Hp as <-.
Qed.

End Marks.

Lemma namespace_keeps_mark_witness :
  reachable Scenario.env (Scenario.after Scenario.cycle_closing) ∧
  has_namespace (moduleGraph (Scenario.after Scenario.cycle_closing)) "/a.js" 2 ∧
  (∃ ps ext, heap (Scenario.after Scenario.cycle_closing) !! 2 = Some (Plain ps ext (Some "Module")) ∧
     ps !! "__esModule" = Some esModule_flag) ∧
  (∀ d, get d (heap (Scenario.after Scenario.cycle_closing)) 2 "__esModule" = inr (VBool true)) ∧
  "__esModule" ∉ for_in_keys (heap (Scenario.after Scenario.cycle_closing)) (VObj 2).
Proof.
  assert (has_namespace (moduleGraph (Scenario.after Scenario.cycle_closing)) "/a.js" 2) as Hn.
  { eexists. split; vm_compute; reflexivity. }
  split; [apply after_reachable; vm_compute; eauto|]. split; [exact Hn|].
  apply (namespace_keeps_mark Scenario.env (Scenario.after Scenario.cycle_closing) "/a.js" 2).
  - apply after_reachable. vm_compute. eauto.
  - exact Hn.
Defined.

Section Stacks.
Context (env : Env).

Lemma stack_fresh_pool ts i t' new :
  Forall stack_fresh ts → stack_fresh t' → Forall stack_fresh new →
  Forall stack_fresh (<[i := t']> ts ++ new).
Proof. intros Hts Ht' Hnew. apply Forall_app. split; [by apply Forall_insert|done]. Qed.

Lemma stack_fresh_flat t : task_stack t = [] → stack_fresh t.
Proof. intros E. unfold stack_fresh. rewrite E. split; [constructor|]. intros u _ Hin. by apply elem_of_nil in Hin. Qed.

Lemma stack_fresh_loads st u new :
  NoDup st → u ∉ st → Forall (is_load_with (st ++ [u])) new → Forall stack_fresh new.
Proof.
  intros Hnd Hu Hnew. eapply Forall_impl; [exact Hnew|]. intros t [dep ->]. split; simpl.
  - apply NoDup_app. split; [done|]. split; [|apply NoDup_singleton].
    intros x Hx Hx'. apply list_elem_of_singleton in Hx' as ->. done.
  - done.
Qed.

Lemma loop_out_fresh i u st ns r sm rest s' :
  Forall stack_fresh (tasks sm) → NoDup st → u ∉ st →
  loop_out env i u st ns r sm rest s' → Forall stack_fresh (tasks s').
Proof.
  intros Hts Hnd Hu
    [ext d rest' -> Hexts Hd Hg Hh Hp Ht ->|h1 new evs Hexts Hh1 Hnew Hevs Hg Hh Hp Ht ->
    |h1 new evs e Hexts Hh1 Hnew Hevs Hg Hh Hp Ht ->
    |h1 new evs e Hexts Hh1 Hnew Hevs Hg Hh Hp Ht ->].
  - apply stack_fresh_pool; [done| |].
    + split; simpl; [done|]. by intros x [= <-].
    + eapply stack_fresh_loads; [done|done|]. apply Forall_singleton. by eexists.
  - apply stack_fresh_pool; [done|by apply stack_fresh_flat|by eapply stack_fresh_loads].
  - apply stack_fresh_pool; [done|by apply stack_fresh_flat|by eapply stack_fresh_loads].
  - apply stack_fresh_pool; [done|by apply stack_fresh_flat|by eapply stack_fresh_loads].
Qed.

Lemma trans_fresh s i s' :
  Forall stack_fresh (tasks s) → trans env s i s' → Forall stack_fresh (tasks s').
Proof.
  intros Hts Htrans.
  assert (∀ t, tasks s !! i = Some t → stack_fresh t) as Hat.
  { intros t Hi. by eapply Forall_lookup_1. }
  destruct Htrans as
    [url st Hi Hin Hg Hh Hp Ht Hts'
    |url st p Hi Hin Hpm Hg Hh Hp Ht Hts'
    |url st Hi Hin Hpm Hg Hh Hp Ht Hts'
    |url st ns Hi Hc Hg Hh Hp Ht Hts'
    |url st Hi Hc Hr Hg Hh Hp Ht Hts'
    |url st r Hi Hc Hr Hout
    |url st ns e Hi He Hg Hh Hp Ht Hts'
    |url st ns r Hi Hr Hout
    |url st ns r rest t e Hi Ho Hg Hh Hp Ht Hts'
    |url st ns r rest t v Hi Ho Hout
    |url p o Hi Ho Hg Hh Hp Ht Hts'];
    destruct (Hat _ Hi) as [Hnd Hself]; simpl in Hnd, Hself;
    try (rewrite Hts'; rewrite <- (app_nil_r (<[i := _]> (tasks s)));
         apply stack_fresh_pool; [done|by apply stack_fresh_flat|constructor]).
  - rewrite Hts'. apply stack_fresh_pool; [done|by apply stack_fresh_flat|].
    apply Forall_cons. split; [|apply Forall_singleton; by apply stack_fresh_flat].
    split; simpl; [done|]. by intros x [= <-].
  - rewrite Hts'. rewrite <- (app_nil_r (<[i := _]> (tasks s))).
    apply stack_fresh_pool; [done| |constructor]. split; simpl; [done|].
    intros x [= <-]. by apply Hself.
  - eapply loop_out_fresh; [| | |exact Hout]; [done|done|by apply Hself].
  - eapply loop_out_fresh; [| | |exact Hout]; [done|done|by apply Hself].
  - eapply loop_out_fresh; [| | |exact Hout]; [done|done|by apply Hself].
Qed.

Lemma rtc_fresh s s' :
  Forall stack_fresh (tasks s) → rtc (sstep env) s s' → Forall stack_fresh (tasks s').
Proof.
  intros Hts Hrtc. induction Hrtc as [|s1 s2 s3 Hstep _ IH]; [done|]. apply IH.
  inversion Hstep as [url s0|i s0 s0' Hs]; subst.
  - simpl. apply Forall_app. split; [done|]. apply Forall_singleton. by apply stack_fresh_flat.
  - eapply trans_fresh; [done|]. by apply step_trans.
Qed.

Lemma stack_bound (g : gmap string ModuleNode) st :
  NoDup st → (∀ x, x ∈ st → is_Some (g !! x)) → length st ≤ size g.
Proof.
  intros Hnd Hin. rewrite <- length_map_to_list, <- (length_fmap fst).
  apply submseteq_length, NoDup_submseteq; [done|].
  intros x Hx. destruct (Hin _ Hx) as [m Hm].
  apply list_elem_of_fmap. exists (x, m). split; [done|]. by apply elem_of_map_to_list.
Qed.

(** X15.  A call stack names no module twice: in every state the loader
    can reach, the [urlStack] of every activation is free of repetitions,
    an instantiation is never under way beneath itself (its url is not on
    its own stack), and so the stack is never longer than the graph has
    records. *)
Theorem call_stack_no_repeat s j t :
  reachable env s → tasks s !! j = Some t →
  NoDup (task_stack t) ∧
  (∀ u, inst_url t = Some u → u ∉ task_stack t) ∧
  length (task_stack t) ≤ size (moduleGraph s).
Proof.
  intros Hreach Hj. destruct (Inv_reachable env s Hreach) as [_ HB].
  destruct Hreach as (s0 & Hinit & Hrtc).
  assert (Forall stack_fresh (tasks s0)) as H0.
  { destruct Hinit as (-> & _). constructor. }
  pose proof (rtc_fresh _ _ H0 Hrtc) as Hall.
  destruct (Forall_lookup_1 _ _ _ _ Hall Hj) as [Hnd Hself].
  split; [done|]. split; [done|]. apply stack_bound; [done|].
  intros x Hx. pose proof (inv_tasks _ _ _ _ HB _ _ Hj) as Hok.
  assert (stack_ok (moduleGraph s) (task_stack t)) as Hst.
  { destruct t as [? st|? ?|? ?|? st|? st ?|? st ? ? ? ?|? ?|? ?|?]; simpl in *;
      try (intros y Hy; by apply elem_of_nil in Hy); try done; by destruct Hok. }
  destruct (Hst _ Hx) as (ns & m & Hm & _). eauto.
Qed.

End Stacks.

Section Log.
Context (env : Env).

Lemma log_resolve u e evs : Forall is_resolve evs → EvLogError u e ∉ evs.
Proof.
  intros Hall Hin. eapply Forall_forall in Hall; [|done]. by destruct Hall as (? & ? & ?).
Qed.

Lemma log_justified_quiet s s' i t' new evs :
  log_justified s → i < length (tasks s) →
  (∀ t, tasks s !! i = Some t → ¬ final t) →
  tasks s' = <[i := t']> (tasks s) ++ new →
  trace s' = evs ++ trace s → (∀ u e, EvLogError u e ∉ evs) →
  log_justified s'.
Proof.
  intros HL Hlt Hnf Hts Htr Hno u e Hin. rewrite Htr in Hin.
  apply elem_of_app in Hin as [Hin|Hin]; [by destruct (Hno u e)|].
  destruct (HL _ _ Hin) as (p & Hp & Hex). exists p. split.
  - rewrite Hts. apply lookup_app_l_Some. rewrite list_lookup_insert_ne; [done|].
    intros ->. by apply (Hnf _ Hp).
  - rewrite Htr. apply elem_of_app. by right.
Qed.

Lemma loop_out_log i u st ns r sm rest s' :
  log_justified sm → i < length (tasks sm) →
  (∀ t, tasks sm !! i = Some t → ¬ final t) →
  loop_out env i u st ns r sm rest s' → log_justified s'.
Proof.
  intros HL Hlt Hnf
    [ext d rest' -> Hexts Hd Hg Hh Hp Ht Hts|h1 new evs Hexts Hh1 Hnew Hevs Hg Hh Hp Ht Hts
    |h1 new evs e Hexts Hh1 Hnew Hevs Hg Hh Hp Ht Hts
    |h1 new evs e Hexts Hh1 Hnew Hevs Hg Hh Hp Ht Hts].
  - eapply (log_justified_quiet sm s' i _ _ [_]); [done|done|done|exact Hts|exact Ht|].
    intros x y Hin. apply list_elem_of_singleton in Hin. discriminate.
  - eapply (log_justified_quiet sm s' i _ _ (evs ++ [_])); [done|done|done|exact Hts| |].
    + rewrite Ht. by rewrite <- app_assoc.
    + intros x y Hin. apply elem_of_app in Hin as [Hin|Hin]; [by eapply log_resolve|].
      apply list_elem_of_singleton in Hin. discriminate.
  - intros x y Hin. rewrite Ht in Hin.
    apply elem_of_cons in Hin as [[= -> ->]|Hin].
    + exists i. split.
      * rewrite Hts. apply lookup_app_l_Some. by apply list_lookup_insert_eq.
      * rewrite Ht. apply elem_of_cons. right. apply elem_of_app. right. apply list_elem_of_here.
    + apply elem_of_app in Hin as [Hin|Hin]; [by destruct (log_resolve x y evs Hevs)|].
      apply elem_of_cons in Hin as [Hin|Hin]; [discriminate|].
      destruct (HL _ _ Hin) as (p & Hpt & Hex). exists p. split.
      * rewrite Hts. apply lookup_app_l_Some. rewrite list_lookup_insert_ne; [done|].
        intros ->. by apply (Hnf _ Hpt).
      * rewrite Ht. apply elem_of_cons. right. apply elem_of_app. right.
        apply elem_of_cons. by right.
  - eapply (log_justified_quiet sm s' i _ _ (evs ++ [_])); [done|done|done|exact Hts| |].
    + rewrite Ht. by rewrite <- app_assoc.
    + intros x y Hin. apply elem_of_app in Hin as [Hin|Hin]; [by eapply log_resolve|].
      apply list_elem_of_singleton in Hin. discriminate.
Qed.

Lemma trans_log s i s' : log_justified s → trans env s i s' → log_justified s'.
Proof.
  intros HL Htrans.
  assert (∀ t0, tasks s !! i = Some t0 → ¬ final t0 → ∀ t, tasks s !! i = Some t → ¬ final t) as Hnf.
  { intros t0 H0 Hn t Ht. congruence. }
  assert (∀ u e, EvLogError u e ∉ ([] : list Event)) as Hnil.
  { intros u e Hin. by apply elem_of_nil in Hin. }
  destruct Htrans as
    [url st Hi Hin Hg Hh Hp Ht Hts
    |url st p Hi Hin Hpm Hg Hh Hp Ht Hts
    |url st Hi Hin Hpm Hg Hh Hp Ht Hts
    |url st ns Hi Hc Hg Hh Hp Ht Hts
    |url st Hi Hc Hr Hg Hh Hp Ht Hts
    |url st r Hi Hc Hr Hout
    |url st ns e Hi He Hg Hh Hp Ht Hts
    |url st ns r Hi Hr Hout
    |url st ns r rest t e Hi Ho Hg Hh Hp Ht Hts
    |url st ns r rest t v Hi Ho Hout
    |url p o Hi Ho Hg Hh Hp Ht Hts];
    pose proof (lookup_lt_Some _ _ _ Hi) as Hlt;
    pose proof (Hnf _ Hi ltac:(simpl; tauto)) as Hnf';
    try (eapply (log_justified_quiet s s' i _ [] []);
           [done|done|done|by rewrite app_nil_r|exact Ht|exact Hnil]);
    try (eapply (log_justified_quiet s s' i _ _ [_]);
           [done|done|done|exact Hts|exact Ht|];
         intros x y Hx; apply list_elem_of_singleton in Hx; discriminate);
    try (eapply (log_justified_quiet s s' i _ [] [_]);
           [done|done|done|by rewrite app_nil_r|exact Ht|];
         intros x y Hx; apply list_elem_of_singleton in Hx; discriminate).
  - eapply (loop_out_log i url st _ r (entered env url s)); [| | |exact Hout]; done.
  - eapply loop_out_log; [| | |exact Hout]; done.
  - eapply (loop_out_log i url st ns r (emit (EvAwaited i t) s)); [| | |exact Hout]; try done.
    intros x y Hx. apply elem_of_cons in Hx as [Hx|Hx]; [discriminate|].
    destruct (HL _ _ Hx) as (p & Hp & Hex). exists p. split; [done|].
    apply elem_of_cons. by right.
Qed.

Lemma rtc_log s s' : log_justified s → rtc (sstep env) s s' → log_justified s'.
Proof.
  intros H0 Hrtc. induction Hrtc as [|s1 s2 s3 Hstep _ IH]; [done|]. apply IH.
  inversion Hstep as [url x|i x x' Hs]; subst.
  - intros a b Hab. destruct (H0 _ _ Hab) as (p & Hp & Hex). exists p.
    split; [by apply lookup_app_l_Some|done].
  - eapply trans_log; [done|]. by apply step_trans.
Qed.

(** X16.  The log holds body failures only: in every state the loader can
    reach, every error that was logged for a url is the error with which an
    instantiation of that url was rejected after it had run the body.  An
    instantiation that fails without running its body (no transform result,
    a rejected transform, a rejected dependency) logs nothing. *)
Theorem logged_errors_are_body_failures s u e :
  reachable env s → EvLogError u e ∈ trace s →
  ∃ p, tasks s !! p = Some (InstDone u (Rejected e)) ∧ EvExec u p ∈ trace s ∧
       settled s p = Some (Rejected e).
Proof.
  intros (s0 & Hinit & Hrtc) Hin.
  assert (log_justified s0) as H0.
  { destruct Hinit as (_ & _ & Htr & _). intros x y Hx. rewrite Htr in Hx.
    by apply elem_of_nil in Hx. }
  pose proof (rtc_log _ _ H0 Hrtc) as HL.
  destruct (HL _ _ Hin) as (p & Hp & Hex). exists p. split; [done|]. split; [done|].
  unfold settled. by rewrite Hp.
Qed.

End Log.

Lemma call_stack_no_repeat_witness :
  reachable Scenario.env (Scenario.after Scenario.cycle_closing) ∧
  tasks (Scenario.after Scenario.cycle_closing) !! 6 = Some (LoadEntry "/a.js" ["/a.js"; "/b.js"]) ∧
  NoDup (task_stack (LoadEntry "/a.js" ["/a.js"; "/b.js"])) ∧
  (∀ u, inst_url (LoadEntry "/a.js" ["/a.js"; "/b.js"]) = Some u →
        u ∉ task_stack (LoadEntry "/a.js" ["/a.js"; "/b.js"])) ∧
  length (task_stack (LoadEntry "/a.js" ["/a.js"; "/b.js"]))
  ≤ size (moduleGraph (Scenario.after Scenario.cycle_closing)).
Proof.
  split; [apply after_reachable; vm_compute; eauto|]. split; [vm_compute; reflexivity|].
  apply (call_stack_no_repeat Scenario.env (Scenario.after Scenario.cycle_closing) 6).
  - apply after_reachable. vm_compute. eauto.
  - vm_compute. reflexivity.
Defined.

Lemma logged_errors_are_body_failures_witness :
  reachable Scenario.env (Scenario.after Scenario.bad_failed) ∧
  EvLogError "/bad.js" (rewrite_stack Scenario.env Scenario.boom)
    ∈ trace (Scenario.after Scenario.bad_failed) ∧
  ∃ p, tasks (Scenario.after Scenario.bad_failed) !! p
       = Some (InstDone "/bad.js" (Rejected (rewrite_stack Scenario.env Scenario.boom))) ∧
       EvExec "/bad.js" p ∈ trace (Scenario.after Scenario.bad_failed) ∧
       settled (Scenario.after Scenario.bad_failed) p
       = Some (Rejected (rewrite_stack Scenario.env Scenario.boom)).
Proof.
  assert (EvLogError "/bad.js" (rewrite_stack Scenario.env Scenario.boom)
            ∈ trace (Scenario.after Scenario.bad_failed)) as Hin.
  { apply list_elem_of_In. vm_compute. tauto. }
  split; [apply after_reachable; vm_compute; eauto|]. split; [exact Hin|].
  apply (logged_errors_are_body_failures Scenario.env (Scenario.after Scenario.bad_failed)).
  - apply after_reachable. vm_compute. eauto.
  - exact Hin.
Defined.

Section Frozen.
Context (env : Env).

Lemma loop_out_frozen i u st ns r sm rest s' l :
  isFrozen (heap sm) l = true → loop_out env i u st ns r sm rest s' →
  heap s' !! l = heap sm !! l.
Proof.
  intros Hf [ext d rest' -> Hexts Hd Hg Hh Hp Ht Hts|h1 new evs Hexts Hh1 Hnew Hevs Hg Hh Hp Ht Hts
            |h1 new evs e Hexts Hh1 Hnew Hevs Hg Hh Hp Ht Hts
            |h1 new evs e Hexts Hh1 Hnew Hevs Hg Hh Hp Ht Hts].
  - by rewrite Hh.
  - rewrite Hh. pose proof (frozen_evolves _ _ _ _ Hf Hh1) as E.
    rewrite frozen_freeze; [done|]. by rewrite (isFrozen_lookup (heap sm)).
  - rewrite Hh. by eapply frozen_evolves.
  - rewrite Hh. by eapply frozen_evolves.
Qed.

Lemma trans_frozen s i s' l :
  isFrozen (heap s) l = true → trans env s i s' → heap s' !! l = heap s !! l.
Proof.
  intros Hf Htrans.
  assert (l < length (heap s)) as Hlt.
  { unfold isFrozen in Hf. destruct (heap s !! l) eqn:E; [|done]. by eapply lookup_lt_Some. }
  destruct Htrans as
    [url st Hi Hin Hg Hh Hp Ht Hts
    |url st p Hi Hin Hpm Hg Hh Hp Ht Hts
    |url st Hi Hin Hpm Hg Hh Hp Ht Hts
    |url st ns Hi Hc Hg Hh Hp Ht Hts
    |url st Hi Hc Hr Hg Hh Hp Ht Hts
    |url st r Hi Hc Hr Hout
    |url st ns e Hi He Hg Hh Hp Ht Hts
    |url st ns r Hi Hr Hout
    |url st ns r rest t e Hi Ho Hg Hh Hp Ht Hts
    |url st ns r rest t v Hi Ho Hout
    |url p o Hi Ho Hg Hh Hp Ht Hts];
    try (by rewrite Hh).
  - rewrite Hh. by apply lookup_app_l.
  - assert (heap (entered env url s) !! l = heap s !! l) as E by (simpl; by apply lookup_app_l).
    rewrite <- E. eapply loop_out_frozen; [|exact Hout]. by rewrite (isFrozen_lookup (heap s)).
  - by eapply loop_out_frozen.
  - by apply (loop_out_frozen _ _ _ _ _ (emit (EvAwaited i t) s) _ _ _ Hf Hout).
Qed.

(** X17.  The loader never changes a frozen object: whatever is frozen in
    some state, be it the namespace of a module that was loaded or an object
    of a package, is the same object, with the same properties, in every
    later state, whatever is called or resumed and whatever the bodies that
    run try to assign or re-export. *)
Theorem frozen_never_changes s s' l o :
  heap s !! l = Some o → obj_frozen o = true →
  rtc (sstep env) s s' →
  heap s' !! l = Some o ∧ isFrozen (heap s') l = true.
Proof.
  intros Hl Hf Hrtc.
  assert (heap s' !! l = heap s !! l) as E.
  { assert (isFrozen (heap s) l = true) as Hfz by (unfold isFrozen; by rewrite Hl).
    clear Hl. induction Hrtc as [|s1 s2 s3 Hstep _ IH]; [done|].
    assert (heap s2 !! l = heap s1 !! l) as E12.
    { inversion Hstep as [url x|i x x' Hs]; subst; [done|].
      eapply trans_frozen; [done|]. by apply step_trans. }
    rewrite IH; [done|]. by rewrite (isFrozen_lookup (heap s1)). }
  split; [congruence|]. unfold isFrozen. by rewrite E, Hl.
Qed.

End Frozen.

Lemma frozen_never_changes_witness :
  heap (Scenario.after Scenario.c_loaded) !! 2
  = Some (freeze_obj (Plain {[ "__esModule" := esModule_flag; "x" := Scenario.data (VNum 1) ]}
                        true (Some "Module"))) ∧
  obj_frozen (freeze_obj (Plain {[ "__esModule" := esModule_flag; "x" := Scenario.data (VNum 1) ]}
                            true (Some "Module"))) = true ∧
  ∀ s', rtc (sstep Scenario.env) (Scenario.after Scenario.c_loaded) s' →
    heap s' !! 2
    = Some (freeze_obj (Plain {[ "__esModule" := esModule_flag; "x" := Scenario.data (VNum 1) ]}
                          true (Some "Module"))) ∧
    isFrozen (heap s') 2 = true.
Proof.
  split; [vm_compute; reflexivity|]. split; [vm_compute; reflexivity|].
  intros s'.
  apply (frozen_never_changes Scenario.env (Scenario.after Scenario.c_loaded) s' 2).
  - vm_compute. reflexivity.
  - vm_compute. reflexivity.
Defined.

(* ===================================================================== *)
(** *** One instantiation in flight, one run to the end                   *)
(* ===================================================================== *)

Section SingleFlight.
Context (env : Env).








End SingleFlight.




(* ===================================================================== *)
(** *** Re-exporting from a source that enumerates its flag               *)
(* ===================================================================== *)

(** On the namespace of a module whose body is running (extensible, with
    [__esModule] its only property that cannot be redefined), and for a
    source that does not enumerate [__esModule], [ssrExportAll] runs to its
    end, and every key the source enumerates, "default" apart, is then on
    the namespace as an accessor onto the source: a read of it is a read of
    the source. *)
Lemma ssrExportAll_binds h cur src ps tag :
  h !! cur = Some (Plain ps true tag) →
  (∀ k p, ps !! k = Some p → configurable p = false → k = "__esModule") →
  "__esModule" ∉ for_in_keys h (VObj src) →
  ∃ h', ssrExportAll h cur (VObj src) = (None, h') ∧
    ∀ key, key ∈ for_in_keys h (VObj src) → key ≠ "default" →
      bound_to h' cur key src ∧ ∀ d, get (S d) h' cur key = get d h' src key.
Proof.
  intros Hc Honly Hnin.
  assert ((ssrExportAll h cur (VObj src)).1 = None) as Hend.
  { unfold ssrExportAll. apply (export_keys_completes _ _ _ _ _ tag Hc).
    intros k p Hin Hne Hp. destruct (configurable p) eqn:Hcf; [done|].
    rewrite (Honly _ _ Hp Hcf) in Hin. done. }
  destruct (ssrExportAll h cur (VObj src)) as [r h'] eqn:Hx. simpl in Hend. subst r.
  exists h'. split; [done|]. intros key Hin Hne.
  assert (bound_to h' cur key src) as Hb by (by eapply export_keys_binds).
  split; [done|]. intros d. destruct Hb as (ps' & ext' & tag' & Hcur & Hkey).
  by eapply get_getter.
Qed.

(** C7, at the failing input: the source is a module written
    [exports.__esModule = true; exports.x = 1], whose [__esModule] is an
    ordinary property that [for ... in] enumerates with [x], and the
    namespace is the one lines 58-61 make.  Line 104 passes over "default"
    only, so [Object.defineProperty] is called for [__esModule], which the
    namespace holds as a property that cannot be redefined (line 61): the
    call throws, [ssrExportAll] does not run to its end, and the key
    [__esModule] of the source is not re-exported: the namespace still
    reads its own flag. *)
Theorem ssrExportAll_throws_on_flagged_source :
  "x" ∈ for_in_keys Scenario.flagged_source_heap (VObj 0) ∧
  "__esModule" ∈ for_in_keys Scenario.flagged_source_heap (VObj 0) ∧
  Scenario.flagged_source_heap !! 1 = Some new_ssrModule ∧
  (ssrExportAll Scenario.flagged_source_heap 1 (VObj 0)).1
  = Some (TypeError "Cannot redefine property: __esModule") ∧
  ¬ bound_to (ssrExportAll Scenario.flagged_source_heap 1 (VObj 0)).2 1 "__esModule" 0.
Proof.
  split; [apply list_elem_of_In; vm_compute; tauto|].
  split; [apply list_elem_of_In; vm_compute; tauto|].
  split; [reflexivity|]. split; [vm_compute; reflexivity|].
  intros (ps & ext & tag & Hc & Hk). vm_compute in Hc. injection Hc as <- <- <-.
  vm_compute in Hk. discriminate Hk.
Qed.

(** What a body throws need not be an error.  str.js throws a string: line
    134 reads its [stack], [undefined], and [ssrRewriteStacktrace] throws on
    it; the load is rejected with that error and nothing is logged.  try.js
    throws the same string inside a [try]: it catches it and runs to its
    end. *)
Lemma thrown_values_example :
  let s1 := run Scenario.env 32 (ssrLoadModule Scenario.env "/str.js" Scenario.start) in
  let s2 := run Scenario.env 32 (ssrLoadModule Scenario.env "/try.js" Scenario.start) in
  outcome s1 0
  = Some (Rejected (TypeError "Cannot read properties of undefined (reading 'split')")) ∧
  rev (trace s1) = [EvInstantiate "/str.js" 1; EvTransform "/str.js" 1; EvExec "/str.js" 1] ∧
  outcome s2 0 = Some (Fulfilled (VObj 2)) ∧
  get 8 (heap s2) 2 "caught" = inr (VBool true) ∧ get 8 (heap s2) 2 "x" = inr (VNum 1) ∧
  isFrozen (heap s2) 2 = true.
Proof. vm_compute. repeat split. Qed.

End Properties.
